(** * Scarpet tokenizer and assignment discovery

    A shallow embedding of [Tokenizer] (scanner state, literal readers,
    operator dispatch, diagnostics), of [findAssign] (the AST walk that
    collects compound assignments) and of the whitespace list that
    [genUnicodeData.cjs] computes, followed by the properties established
    about them.

    Conventions of the embedding:
    - a JavaScript string is the list of its UTF-16 code units ([Z]);
      [charCodeAt] out of range is [NaN], rendered as [None];
    - [BigInt] is [Z]; the fractional accumulator of a number literal is a
      binary64 float ([PrimFloat]); the exponent counter, a JavaScript
      [Number] that only ever holds non-negative integers, is [IntNumber]:
      an integer rounded to binary64 after every operation, or [+Infinity];
    - the [errors] and [warnings] arrays are caller-owned objects: the
      tokenizer holds two references into a store of arrays, so that a caller
      who passes one array twice is represented;
    - a method that mutates [this] takes the tokenizer and returns the new one;
    - the only loop of the scanner without a decreasing measure
      ([readComment]'s do-while, and through it [nextToken]) takes fuel and
      answers [OutOfFuel] when it is exhausted; a thrown exception is
      [Throw];
    - the bounds of the engine that a scan can reach are parameters: the
      largest BigInt, and the room of the call stack for the recursion of
      [nextToken]; going beyond either is a [RangeError]. *)

From Stdlib Require Import ZArith List Bool Lia String Ascii Floats Sorted.
Import ListNotations.
Local Open Scope Z_scope.

(** ** JavaScript strings as code-unit sequences *)

Module JS.

Definition str := list Z.

Definition length (s : str) : Z := Z.of_nat (List.length s).

(** [s.charCodeAt(i)]: [NaN] (here [None]) outside [0 .. length-1]. *)
Definition charCodeAt (s : str) (i : Z) : option Z :=
  if i <? 0 then None else nth_error s (Z.to_nat i).

(** Relative index resolution of [slice]: negative indices count from the
    end, everything is clamped to [0 .. length]. *)
Definition clamp (len i : Z) : Z :=
  if i <? 0 then Z.max (len + i) 0 else Z.min i len.

(** [s.slice(a, b)]; empty when the resolved start is not before the
    resolved end. *)
Definition slice (s : str) (a b : Z) : str :=
  let from := clamp (length s) a in
  let to := clamp (length s) b in
  firstn (Z.to_nat (to - from)) (skipn (Z.to_nat from) s).

Fixpoint find (ch : Z) (s : str) (i : Z) : Z :=
  match s with
  | [] => -1
  | c :: s' => if c =? ch then i else find ch s' (i + 1)
  end.

(** [s.indexOf(ch, from)] for a one-unit needle: [-1] when absent. *)
Definition indexOf (s : str) (ch : Z) (from : Z) : Z :=
  let k := Z.min (Z.max from 0) (length s) in
  find ch (skipn (Z.to_nat k) s) k.

(** Code units of an ASCII literal, for examples. *)
Fixpoint lit (s : string) : str :=
  match s with
  | EmptyString => []
  | String a s' => Z.of_N (N_of_ascii a) :: lit s'
  end.

End JS.

(** ** JavaScript numbers that hold non-negative integers *)

Inductive IntNumber :=
| Finite (z : Z)
| PosInfinity.

Module IntNumber.

(** Rounding of a non-negative integer to binary64, to nearest, ties to
    even; an integer below [2^53] is exact, a rounded magnitude of [2^1024]
    or more is [+Infinity]. *)
Definition round (z : Z) : IntNumber :=
  if z <? 2 ^ 53 then Finite z
  else
    let k := Z.log2 z - 52 in
    let q := Z.shiftr z k in
    let r := z - Z.shiftl q k in
    let half := 2 ^ (k - 1) in
    let q' :=
      if r <? half then q
      else if half <? r then q + 1
      else if Z.even q then q else q + 1 in
    let res := Z.shiftl q' k in
    if res <? 2 ^ 1024 then Finite res else PosInfinity.

Definition mul (x : IntNumber) (k : Z) : IntNumber :=
  match x with
  | Finite z => round (z * k)
  | PosInfinity => PosInfinity
  end.

Definition add (x : IntNumber) (k : Z) : IntNumber :=
  match x with
  | Finite z => round (z + k)
  | PosInfinity => PosInfinity
  end.

End IntNumber.

(** [Number(b)] for a BigInt [b]: the nearest binary64. *)
Definition NumberOfBigInt (z : Z) : float :=
  SF2Prim (binary_normalize prec emax z 0 false).

Definition floatOfIntNumber (x : IntNumber) : float :=
  match x with
  | Finite z => NumberOfBigInt z
  | PosInfinity => infinity
  end.

(** Truthiness of a JavaScript number: neither zero nor [NaN]. *)
Definition truthy (f : float) : bool :=
  negb (PrimFloat.eqb f 0%float) && negb (PrimFloat.is_nan f).

Definition MAX_SAFE_INTEGER : Z := 2 ^ 53 - 1.

(** ** Outcomes of a call *)

Inductive Exn := RangeError.

Inductive Outcome (A : Type) :=
| Ret (a : A)
| Throw (e : Exn)
| OutOfFuel.

Arguments Ret {A} a.
Arguments Throw {A} e.
Arguments OutOfFuel {A}.

Definition bind {A B} (m : Outcome A) (k : A -> Outcome B) : Outcome B :=
  match m with
  | Ret a => k a
  | Throw e => Throw e
  | OutOfFuel => OutOfFuel
  end.

(** ** Positions, diagnostics, tokens *)

Module Position.
Record t := mk { pos : Z; row : Z; col : Z }.
End Position.

Inductive Diagnostics :=
| ExpectedHexDigit | UnicodeDigit | LossOfPrecision | UnexpectedEof
| UnknownEscapeSequence | UnexpectedComment | UnexpectedNewLineMarker
| UnknownOperator | UnexpectedToken.

Module Diagnostic.
Record t := mk { kind : Diagnostics; start : Position.t; end_ : Position.t }.
End Diagnostic.

Inductive TokenType :=
| String_ | Number | HexNumber | Function_ | Constant | Variable_ | Comment
| Spread | NewLineMarker | Semicolon | Comma | Colon | Tilde | Not
| NotEquals | Div | Add | AddAssign | Sub | Arrow | SwapAssign | LtEq | Lt
| GtEq | Gt | Equals | Assign | Pow | Mul | Mod | And | Or | OpenParen
| CloseParen | OpenBrack | CloseBrack | OpenBrace | CloseBrace.

(** The decoded value of a token. *)
Inductive Value :=
| BigIntV (z : Z)
| NumberV (f : float)
| StringV (s : JS.str).

(** Modelled from the spec: the [Token] class ([Token.js] is not part of the
    sources).  A token has a kind, a start and an end position, an optional
    decoded value and an error flag; the two trailing constructor arguments
    may be omitted, which leaves the token without a value and with the flag
    clear. *)
Module Token.
Record t := mk {
  kind : TokenType;
  start : Position.t;
  end_ : Position.t;
  value : option Value;
  hasError : bool
}.
End Token.

Definition Token3 (ty : TokenType) (s e : Position.t) : Token.t :=
  Token.mk ty s e None false.

Definition Token4 (ty : TokenType) (s e : Position.t) (v : Value) : Token.t :=
  Token.mk ty s e (Some v) false.

(** ** The store of diagnostic arrays *)

Definition Ref := nat.

(** Every reference denotes an array; [next] is the first reference not yet
    handed out. *)
Record Store := mkStore {
  next : Ref;
  arrays : Ref -> list Diagnostic.t
}.

Definition emptyStore : Store := mkStore O (fun _ => []).

Definition deref (s : Store) (r : Ref) : list Diagnostic.t := arrays s r.

(** [a.push(d)] on the array behind [r]. *)
Definition push (s : Store) (r : Ref) (d : Diagnostic.t) : Store :=
  mkStore (next s)
    (fun r' => if Nat.eqb r' r then arrays s r ++ [d] else arrays s r').

(** A fresh empty array ([[]] in an expression). *)
Definition alloc (s : Store) : Ref * Store :=
  (next s,
   mkStore (S (next s)) (fun r' => if Nat.eqb r' (next s) then [] else arrays s r')).

(** ** The tokenizer object *)

Record Tokenizer := mkTokenizer {
  input : JS.str;
  allowComments : bool;
  allowNewLineMarkers : bool;
  pos : Z;
  row : Z;
  col : Z;
  errors : Ref;
  warnings : Ref;
  store : Store
}.

Definition set_pos (t : Tokenizer) (p : Z) : Tokenizer :=
  mkTokenizer (input t) (allowComments t) (allowNewLineMarkers t)
    p (row t) (col t) (errors t) (warnings t) (store t).

Definition set_row (t : Tokenizer) (r : Z) : Tokenizer :=
  mkTokenizer (input t) (allowComments t) (allowNewLineMarkers t)
    (pos t) r (col t) (errors t) (warnings t) (store t).

Definition set_col (t : Tokenizer) (c : Z) : Tokenizer :=
  mkTokenizer (input t) (allowComments t) (allowNewLineMarkers t)
    (pos t) (row t) c (errors t) (warnings t) (store t).

Definition set_store (t : Tokenizer) (s : Store) : Tokenizer :=
  mkTokenizer (input t) (allowComments t) (allowNewLineMarkers t)
    (pos t) (row t) (col t) (errors t) (warnings t) s.

(** [this.pos += n; this.col += n], the pair of updates that advances the
    cursor inside a line. *)
Definition advance (t : Tokenizer) (n : Z) : Tokenizer :=
  set_col (set_pos t (pos t + n)) (col t + n).

(** The contents of the two diagnostic arrays as the tokenizer sees them. *)
Definition errorsOf (t : Tokenizer) : list Diagnostic.t := deref (store t) (errors t).
Definition warningsOf (t : Tokenizer) : list Diagnostic.t := deref (store t) (warnings t).

(** The options object of the constructor: absent members are [None];
    [allowComments] may also be given as [null], which is [None] too. *)
Record TokenizerOptions := mkOptions {
  opt_allowComments : option bool;
  opt_allowNewLineMarkers : option bool;
  opt_errors : option Ref;
  opt_warnings : option Ref
}.

Definition noOptions : TokenizerOptions := mkOptions None None None None.

(** [new Tokenizer(input, options)] in a store [s]: [allowComments] is
    [options.allowComments != false], [allowNewLineMarkers] is
    [!!options.allowNewLineMarkers], and a missing array is a fresh one. *)
Definition newTokenizer (inp : JS.str) (o : TokenizerOptions) (s : Store) : Tokenizer :=
  let ac := match opt_allowComments o with Some false => false | _ => true end in
  let anl := match opt_allowNewLineMarkers o with Some true => true | _ => false end in
  let '(e, s1) := match opt_errors o with Some r => (r, s) | None => alloc s end in
  let '(w, s2) := match opt_warnings o with Some r => (r, s1) | None => alloc s1 end in
  mkTokenizer inp ac anl 0 0 0 e w s2.

Definition getPosition (t : Tokenizer) : Position.t :=
  Position.mk (pos t) (row t) (col t).

Definition getChar (t : Tokenizer) : option Z := JS.charCodeAt (input t) (pos t).

Definition peekChar (t : Tokenizer) : option Z := JS.charCodeAt (input t) (pos t + 1).

(** [this.error(diagnostic, start, end)]. *)
Definition error (t : Tokenizer) (d : Diagnostics) (s e : Position.t) : Tokenizer :=
  set_store t (push (store t) (errors t) (Diagnostic.mk d s e)).

(** [this.error(diagnostic)]: both ends default to the current position. *)
Definition error0 (t : Tokenizer) (d : Diagnostics) : Tokenizer :=
  error t d (getPosition t) (getPosition t).

(** [c === k] for a code unit or [NaN] against a constant. *)
Definition charIs (c : option Z) (k : Z) : bool :=
  match c with
  | Some z => z =? k
  | None => false
  end.

(** [c | 0x20]: [NaN] converts to [0]. *)
Definition lor20 (c : option Z) : Z :=
  match c with
  | Some z => Z.lor z 0x20
  | None => 0x20
  end.

Definition atEnd (t : Tokenizer) : bool := JS.length (input t) <=? pos t.

(** ** The scanner *)

Module Num.
(** The local variables of [readNumber]. *)
Record t := mk {
  c : option Z;
  intValue : Z;
  value : float;
  exp : IntNumber;
  expSign : float;
  decimalDigits : float;
  isUnicode : bool;
  isExp : bool
}.
End Num.

Section Scanner.

(** The generated Unicode tables and the reserved-constant set are not part
    of the sources; the scanner is parametric in them.  [LETTER_CHAR_CODES]
    and [CONSTANTS] are sets (their [has]), [DECIMAL_DIGIT_CHAR_CODES] is a
    map from code unit to digit value (its [get]) and
    [JAVA_WHITESPACE_CHAR_CODES] is an array. *)
Variable LETTER_CHAR_CODES : Z -> bool.
Variable JAVA_WHITESPACE_CHAR_CODES : list Z.
Variable DECIMAL_DIGIT_CHAR_CODES : Z -> option Z.
Variable CONSTANTS : JS.str -> bool.

(** [10 ** y] on binary64: the language leaves the result of
    exponentiation implementation-approximated, so it is a parameter. *)
Variable pow10 : float -> float.

(** Whether a BigInt is beyond what the engine can hold.  The language puts
    no bound on a BigInt; an engine does, and answers an operation whose
    result is beyond it with a [RangeError].  The bound is consulted where
    the size of a result does not follow from the size of the input, at the
    power of ten of an exponent; the BigInts of the digit loops have as many
    digits as the literal has, and are taken to be within it. *)
Variable bigIntTooBig : Z -> bool.

(** How many calls of [nextToken] by itself the call stack has room for
    when [nextToken] is called, each with the calls it makes to the other
    methods.  The recovery from an unexpected unit is such a call, and a
    call that the stack has no room for is a [RangeError]. *)
Variable callStackFrames : nat.

(** Modelled from the spec: the predicates of [char.js], which is not part
    of the sources: membership in the letter set, in the whitespace list
    and in the decimal-digit map; [NaN] belongs to none. *)
Definition isLetter (c : option Z) : bool :=
  match c with
  | Some z => LETTER_CHAR_CODES z
  | None => false
  end.

Definition isWhitespace (c : option Z) : bool :=
  match c with
  | Some z => existsb (Z.eqb z) JAVA_WHITESPACE_CHAR_CODES
  | None => false
  end.

Definition isDigit (c : option Z) : bool :=
  match c with
  | Some z => match DECIMAL_DIGIT_CHAR_CODES z with Some _ => true | None => false end
  | None => false
  end.

(** Modelled from the spec: [isHexDigit] of [char.js], the hexadecimal
    digits [0-9], [a-f], [A-F] that [readNumber] folds into its value. *)
Definition isHexDigit (c : option Z) : bool :=
  match c with
  | Some z =>
      ((0x30 <=? z) && (z <=? 0x39))
      || ((0x61 <=? Z.lor z 0x20) && (Z.lor z 0x20 <=? 0x66))
  | None => false
  end.

(** *** skipWhitespace *)

Definition skipWhitespace_body (t : Tokenizer) : Tokenizer :=
  let c := getChar t in
  let t := advance t 1 in
  if charIs c 0x0a then set_col (set_row t (row t + 1)) 0 else t.

Fixpoint skipWhitespace_loop (n : nat) (t : Tokenizer) : Tokenizer :=
  if negb (atEnd t) && isWhitespace (getChar t) then
    match n with
    | O => t
    | S n' => skipWhitespace_loop n' (skipWhitespace_body t)
    end
  else t.

(** Every iteration moves the cursor one unit towards the end of the
    input, so the distance to the end bounds the iterations. *)
Definition skipWhitespace (t : Tokenizer) : Tokenizer :=
  skipWhitespace_loop (Z.to_nat (JS.length (input t) - pos t)) t.

(** *** readNumber *)

(** The value of a hexadecimal digit:
    [c < 0x3a ? c - 0x30 : (c | 0x20) - 0x57]. *)
Definition hexDigitValue (c : Z) : Z :=
  if c <? 0x3a then c - 0x30 else Z.lor c 0x20 - 0x57.

(** The do-while of the hexadecimal branch, entered on a hex digit [c]. *)
Fixpoint readHex_loop (n : nat) (t : Tokenizer) (c : Z) (intValue : Z)
  : Tokenizer * Z :=
  let intValue := Z.lor (Z.shiftl intValue 4) (hexDigitValue c) in
  let t := advance t 1 in
  match n, getChar t with
  | S n', Some c' =>
      if negb (atEnd t) && isHexDigit (Some c')
      then readHex_loop n' t c' intValue
      else (t, intValue)
  | _, _ => (t, intValue)
  end.

(** [decimalDigits = 10; if (intValue > MAX_SAFE_INTEGER) error(...);
    value = Number(intValue)], shared by the [.] and the [e-] branches. *)
Definition enterFraction (start : Position.t) (t : Tokenizer) (intValue : Z)
  : Tokenizer * float * float :=
  let t := if MAX_SAFE_INTEGER <? intValue
           then error t LossOfPrecision start (getPosition t) else t in
  (t, 10%float, NumberOfBigInt intValue).

(** One iteration of the decimal loop up to, and without, its common tail
    [pos++; col++; c = getChar()]; [None] is [break]. *)
Definition readNumber_step (start : Position.t) (t : Tokenizer) (l : Num.t)
  : option (Tokenizer * Num.t) :=
  let '(Num.mk c iv v e es dd iu ie) := l in
  if isDigit c then
    match c with
    | Some z =>
        if 127 <? z then
          Some (error0 t UnicodeDigit, Num.mk c iv v e es dd true ie)
        else if ie then
          Some (t, Num.mk c iv v (IntNumber.add (IntNumber.mul e 10) (z - 0x30)) es dd iu ie)
        else if truthy dd then
          Some (t, Num.mk c iv
                     (PrimFloat.add v (PrimFloat.div (NumberOfBigInt (z - 0x30)) dd))
                     e es (PrimFloat.mul dd 10%float) iu ie)
        else
          Some (t, Num.mk c (iv * 10 + (z - 0x30)) v e es dd iu ie)
    | None => None
    end
  else if negb (truthy dd) && charIs c 0x2e then
    let '(t, dd, v) := enterFraction start t iv in
    Some (t, Num.mk c iv v e es dd iu ie)
  else if negb ie && (lor20 c =? 0x65) then
    let t := advance t 1 in
    let c := getChar t in
    if charIs c 0x2d then
      if negb (truthy dd) then
        let '(t, dd, v) := enterFraction start t iv in
        Some (t, Num.mk c iv v e (-1)%float dd iu true)
      else Some (t, Num.mk c iv v e (-1)%float dd iu true)
    else if negb (charIs c 0x2b) then
      Some (set_pos t (pos t - 1), Num.mk c iv v e es dd iu true)
    else Some (t, Num.mk c iv v e es dd iu true)
  else None.

Definition Num_set_c (l : Num.t) (c : option Z) : Num.t :=
  let '(Num.mk _ iv v e es dd iu ie) := l in Num.mk c iv v e es dd iu ie.

Fixpoint readNumber_loop (n : nat) (start : Position.t) (t : Tokenizer) (l : Num.t)
  : Tokenizer * Num.t :=
  if atEnd t then (t, l)
  else
    match n with
    | O => (t, l)
    | S n' =>
        match readNumber_step start t l with
        | Some (t, l) =>
            let t := advance t 1 in
            readNumber_loop n' start t (Num_set_c l (getChar t))
        | None => (t, l)
        end
    end.

(** Whether [intValue * 10n ** BigInt(exp)] is beyond the engine: the power
    or the product is.  With the exponent [0] the power is [1n] and the
    product is [intValue], which the engine holds already. *)
Definition exponentTooBig (intValue e : Z) : bool :=
  (0 <? e) && (bigIntTooBig (10 ^ e) || bigIntTooBig (intValue * 10 ^ e)).

(** The final value composition.  [BigInt(exp)] throws a [RangeError] on a
    number that is not an integer, which for the exponent counter is
    [+Infinity]; [10n ** BigInt(exp)] and the product throw a [RangeError]
    when the engine cannot hold their result. *)
Definition finalValue (l : Num.t) : Outcome Value :=
  if Num.isExp l then
    if truthy (Num.decimalDigits l) then
      Ret (NumberV (PrimFloat.mul (Num.value l)
             (pow10 (PrimFloat.mul (floatOfIntNumber (Num.exp l)) (Num.expSign l)))))
    else
      match Num.exp l with
      | Finite e =>
          if exponentTooBig (Num.intValue l) e then Throw RangeError
          else Ret (BigIntV (Num.intValue l * 10 ^ e))
      | PosInfinity => Throw RangeError
      end
  else if truthy (Num.decimalDigits l) then Ret (NumberV (Num.value l))
  else Ret (BigIntV (Num.intValue l)).

Definition readNumber (t : Tokenizer) : Outcome (Token.t * Tokenizer) :=
  let start := getPosition t in
  let c := getChar t in
  if charIs c 0x30 && (lor20 (peekChar t) =? 0x78) then
    let t := set_pos t (pos t + 2) in
    match getChar t with
    | Some c' =>
        if isHexDigit (Some c') then
          let '(t, iv) :=
            readHex_loop (Z.to_nat (JS.length (input t) - pos t)) t c' 0 in
          Ret (Token4 HexNumber start (getPosition t) (BigIntV iv), t)
        else
          let t := error0 t ExpectedHexDigit in
          Ret (Token.mk HexNumber start (getPosition t) None true, t)
    | None =>
        let t := error0 t ExpectedHexDigit in
        Ret (Token.mk HexNumber start (getPosition t) None true, t)
    end
  else
    let '(t, l) :=
      readNumber_loop (Z.to_nat (JS.length (input t) - pos t)) start t
        (Num.mk c 0 0%float (Finite 0) 1%float 0%float false false) in
    bind (finalValue l) (fun fv =>
      Ret (Token.mk Number start (getPosition t)
             (if Num.isUnicode l then None else Some fv) (Num.isUnicode l), t)).

(** *** readString *)

(** The state of the loop between iterations, or the token of an early
    [return]. *)
Inductive StringStep :=
| Returned (r : Token.t * Tokenizer)
| Going (t : Tokenizer) (c : option Z) (start : Z) (value : JS.str).

(** The [if (c === 0x5c)] statement of the loop body. *)
Definition readString_escape (pos0 : Position.t) (t : Tokenizer)
    (c : option Z) (start : Z) (value : JS.str) : StringStep :=
  if charIs c 0x5c then
    let value := value ++ JS.slice (input t) start (pos t) in
    let t := advance t 1 in
    let start := pos t + 1 in
    if atEnd t then
      let t := error0 t UnexpectedEof in
      Returned (Token.mk String_ pos0 (getPosition t) (Some (StringV value)) true, t)
    else
      let c := getChar t in
      if charIs c 0x6e then Going t c start (value ++ [0x0a])
      else if charIs c 0x74 then Going t c start (value ++ [0x09])
      else if charIs c 0x27 then Going t c start (value ++ [0x27])
      else if charIs c 0x5c then Going t c start (value ++ [0x5c])
      else
        let t := set_pos t (pos t - 1) in
        Going (error0 t UnknownEscapeSequence) c start value
  else Going t c start value.

(** The rest of the loop body, after the escape statement. *)
Definition readString_tail (pos0 : Position.t) (t : Tokenizer)
    (c : option Z) (start : Z) (value : JS.str) : StringStep :=
  let t := advance t 1 in
  let t := if charIs c 0x0a then set_col (set_row t (row t + 1)) 0 else t in
  if atEnd t then
    let t := error0 t UnexpectedEof in
    Returned (Token.mk String_ pos0 (getPosition t) None true, t)
  else Going t (getChar t) start value.

Definition readString_body (pos0 : Position.t) (t : Tokenizer)
    (c : option Z) (start : Z) (value : JS.str) : StringStep :=
  match readString_escape pos0 t c start value with
  | Returned r => Returned r
  | Going t c start value => readString_tail pos0 t c start value
  end.

(** [while (c !== 0x27) body], then the statements after the loop.  An
    iteration either returns or moves the cursor at least one unit towards
    the end of the input, and returns when it reaches it. *)
Fixpoint readString_loop (n : nat) (pos0 : Position.t) (t : Tokenizer)
    (c : option Z) (start : Z) (value : JS.str) : Token.t * Tokenizer :=
  if charIs c 0x27 then
    let value := value ++ JS.slice (input t) start (pos t) in
    let t := advance t 1 in
    (Token4 String_ pos0 (getPosition t) (StringV value), t)
  else
    match n with
    | O => (Token.mk String_ pos0 (getPosition t) None true, t)
    | S n' =>
        match readString_body pos0 t c start value with
        | Returned r => r
        | Going t c start value => readString_loop n' pos0 t c start value
        end
    end.

Definition readString (t : Tokenizer) : Token.t * Tokenizer :=
  let pos0 := getPosition t in
  let t := advance t 1 in
  readString_loop (S (Z.to_nat (JS.length (input t) - pos t))) pos0 t
    (getChar t) (pos t) [].

(** *** readIdent *)

Definition isIdentPart (c : option Z) : bool :=
  isLetter c || charIs c 0x5f || isDigit c.

Fixpoint readIdent_loop (n : nat) (t : Tokenizer) : Tokenizer :=
  if negb (atEnd t) && isIdentPart (getChar t) then
    match n with
    | O => t
    | S n' => readIdent_loop n' (advance t 1)
    end
  else t.

Definition readIdent (t : Tokenizer) : Token.t * Tokenizer :=
  let pos0 := getPosition t in
  let t := advance t 1 in
  let t := readIdent_loop (Z.to_nat (JS.length (input t) - pos t)) t in
  let value := JS.slice (input t) (Position.pos pos0) (pos t) in
  let t := skipWhitespace t in
  let tokenType :=
    if charIs (getChar t) 0x28 then Function_
    else if CONSTANTS value then Constant
    else Variable_ in
  (Token4 tokenType pos0 (getPosition t) (StringV value), t).

(** *** readComment *)

(** The do-while of [readComment]: nothing bounds its iterations, so it
    runs on fuel. *)
Fixpoint readComment_loop (fuel : nat) (t : Tokenizer) (value : JS.str)
  : Outcome (Tokenizer * JS.str) :=
  match fuel with
  | O => OutOfFuel
  | S fuel' =>
      let index := JS.indexOf (input t) 0x0a (pos t) + 1 in
      let value := value ++ JS.slice (input t) (pos t) index in
      let t := set_pos t index in
      let t := set_row t (row t + 1) in
      if negb (atEnd t) && charIs (getChar t) 0x2f && charIs (peekChar t) 0x2f
      then readComment_loop fuel' t value
      else Ret (t, value)
  end.

Definition readComment (fuel : nat) (t : Tokenizer)
  : Outcome (Token.t * Tokenizer) :=
  let t := if allowComments t then t else error0 t UnexpectedComment in
  let pos0 := getPosition t in
  bind (readComment_loop fuel t []) (fun '(t, value) =>
    let t := set_col t 0 in
    Ret (Token4 Comment pos0 (getPosition t) (StringV value), t)).

(** *** Operators *)

Definition readEllipsis (t : Tokenizer) : Token.t * Tokenizer :=
  let pos0 := getPosition t in
  let t := advance t 1 in
  let t :=
    if negb (charIs (getChar t) 0x2e) || negb (charIs (peekChar t) 0x2e)
    then error0 t UnknownOperator
    else set_pos t (pos t + 2) in
  (Token3 Spread pos0 (getPosition t), t).

Definition getOneCharToken (t : Tokenizer) (tokenType : TokenType)
  : Token.t * Tokenizer :=
  let pos0 := getPosition t in
  let t := advance t 1 in
  (Token3 tokenType pos0 (getPosition t), t).

Definition getTwoCharToken (t : Tokenizer) (tokenType : TokenType)
  : Token.t * Tokenizer :=
  let pos0 := getPosition t in
  let t := advance t 2 in
  (Token3 tokenType pos0 (getPosition t), t).

Definition getBooleanOp (t : Tokenizer) (tokenType : TokenType) (char : Z)
  : Token.t * Tokenizer :=
  let pos0 := getPosition t in
  let t :=
    if negb (charIs (peekChar t) char) then error0 t UnknownOperator
    else advance t 1 in
  let t := advance t 1 in
  (Token3 tokenType pos0 (getPosition t), t).

(** *** nextToken *)

Definition token (r : Token.t * Tokenizer) : Outcome (option Token.t * Tokenizer) :=
  Ret (Some (fst r), snd r).

(** [nextToken] with room for [frames] further frames on the call stack.
    [None] in the result is the [null] that ends the token stream.  The
    fuel bounds the iterations of [readComment] and the recursive calls on
    unexpected characters; a recursive call that the stack has no room for
    is the [RangeError] of the engine. *)
Fixpoint nextToken_in (frames fuel : nat) (t : Tokenizer) {struct fuel}
  : Outcome (option Token.t * Tokenizer) :=
  match fuel with
  | O => OutOfFuel
  | S fuel' =>
      let t := skipWhitespace t in
      if atEnd t then Ret (None, t)
      else
        let c := getChar t in
        if charIs c 0x27 then token (readString t)
        else if charIs c 0x24 then
          token (getOneCharToken
                   (if allowNewLineMarkers t then t
                    else error0 t UnexpectedNewLineMarker) NewLineMarker)
        else if charIs c 0x3b then token (getOneCharToken t Semicolon)
        else if charIs c 0x2c then token (getOneCharToken t Comma)
        else if charIs c 0x3a then token (getOneCharToken t Colon)
        else if charIs c 0x7e then token (getOneCharToken t Tilde)
        else if charIs c 0x21 then
          if charIs (peekChar t) 0x3d then token (getTwoCharToken t NotEquals)
          else token (getOneCharToken t Not)
        else if charIs c 0x2e then token (readEllipsis t)
        else if charIs c 0x2f then
          if charIs (peekChar t) 0x2f then bind (readComment fuel' t) token
          else token (getOneCharToken t Div)
        else if charIs c 0x2b then
          if charIs (peekChar t) 0x3d then token (getTwoCharToken t AddAssign)
          else token (getOneCharToken t Add)
        else if charIs c 0x2d then
          if charIs (peekChar t) 0x3e then token (getTwoCharToken t Arrow)
          else token (getOneCharToken t Sub)
        else if charIs c 0x3c then
          if charIs (peekChar t) 0x3e then token (getTwoCharToken t SwapAssign)
          else if charIs (peekChar t) 0x3d then token (getTwoCharToken t LtEq)
          else token (getOneCharToken t Lt)
        else if charIs c 0x3e then
          if charIs (peekChar t) 0x3d then token (getTwoCharToken t GtEq)
          else token (getOneCharToken t Gt)
        else if charIs c 0x3d then
          if charIs (peekChar t) 0x3d then token (getTwoCharToken t Equals)
          else token (getOneCharToken t Assign)
        else if charIs c 0x5e then token (getOneCharToken t Pow)
        else if charIs c 0x2a then token (getOneCharToken t Mul)
        else if charIs c 0x25 then token (getOneCharToken t Mod)
        else if charIs c 0x26 then token (getBooleanOp t And 0x26)
        else if charIs c 0x7c then token (getBooleanOp t Or 0x7c)
        else if charIs c 0x28 then token (getOneCharToken t OpenParen)
        else if charIs c 0x29 then token (getOneCharToken t CloseParen)
        else if charIs c 0x5b then token (getOneCharToken t OpenBrack)
        else if charIs c 0x5d then token (getOneCharToken t CloseBrack)
        else if charIs c 0x7b then token (getOneCharToken t OpenBrace)
        else if charIs c 0x7d then token (getOneCharToken t CloseBrace)
        else if isDigit c then bind (readNumber t) token
        else if charIs c 0x5f || isLetter c then token (readIdent t)
        else
          let t := advance (error0 t UnexpectedToken) 1 in
          match frames with
          | O => Throw RangeError
          | S frames' => nextToken_in frames' fuel' t
          end
  end.

(** [nextToken()], called with the room that the stack has. *)
Definition nextToken (fuel : nat) (t : Tokenizer)
  : Outcome (option Token.t * Tokenizer) :=
  nextToken_in callStackFrames fuel t.

(** The tokens of up to [k] successive [nextToken] calls, each with fuel
    [fuel], stopping at the end of the stream. *)
Fixpoint tokens (k fuel : nat) (t : Tokenizer) : Outcome (list Token.t * Tokenizer) :=
  match k with
  | O => Ret ([], t)
  | S k' =>
      bind (nextToken fuel t) (fun '(r, t) =>
        match r with
        | None => Ret ([], t)
        | Some tok =>
            bind (tokens k' fuel t) (fun '(l, t) => Ret (tok :: l, t))
        end)
  end.

End Scanner.

(** ** The Basic Latin rows of the tables

    The generated tables restricted to the code units up to [0x7f] (letters
    [A-Z] and [a-z], the digits [0-9], the Java whitespace controls and the
    space), the constants of the language, and the bounds of one engine.
    Closed examples run the scanner on them. *)

Module Latin.

Definition LETTER_CHAR_CODES (z : Z) : bool :=
  ((0x41 <=? z) && (z <=? 0x5a)) || ((0x61 <=? z) && (z <=? 0x7a)).

Definition JAVA_WHITESPACE_CHAR_CODES : list Z :=
  [0x09; 0x0a; 0x0b; 0x0c; 0x0d; 0x1c; 0x1d; 0x1e; 0x1f; 0x20].

Definition DECIMAL_DIGIT_CHAR_CODES (z : Z) : option Z :=
  if (0x30 <=? z) && (z <=? 0x39) then Some (z - 0x30) else None.

Definition CONSTANTS (s : JS.str) : bool :=
  existsb (fun k => if list_eq_dec Z.eq_dec s (JS.lit k) then true else false)
    ["euler"; "pi"; "null"; "true"; "false"]%string.

(** One admissible exponentiation: the binary64 nearest to [10^y] for an
    integer [y >= 0], and its reciprocal for [y < 0].  The power of an
    engine may differ from it in the last bit; the properties of the
    scanner are stated for every [pow10]. *)
Definition pow10 (y : float) : float :=
  match Prim2SF y with
  | S754_zero _ => 1%float
  | S754_finite s m e =>
      let p := NumberOfBigInt (10 ^ (Z.shiftl (Z.pos m) e)) in
      if s then PrimFloat.div 1%float p else p
  | S754_infinity s => if s then 0%float else infinity
  | S754_nan => nan
  end.

(** The bounds of one engine: a BigInt of more than [2^30] bits is
    refused, and the stack has room for [2^13] calls of [nextToken] by
    itself. *)
Definition bigIntTooBig (z : Z) : bool := 2 ^ 30 <? Z.log2 (Z.abs z) + 1.

Definition callStackFrames : nat := Nat.pow 2 13.

Definition nextToken : nat -> Tokenizer -> Outcome (option Token.t * Tokenizer) :=
  nextToken LETTER_CHAR_CODES JAVA_WHITESPACE_CHAR_CODES
    DECIMAL_DIGIT_CHAR_CODES CONSTANTS pow10 bigIntTooBig callStackFrames.

(** [new Tokenizer(src)] in an empty store. *)
Definition tokenizer (src : string) : Tokenizer :=
  newTokenizer (JS.lit src) noOptions emptyStore.

Definition tokens : nat -> nat -> Tokenizer -> Outcome (list Token.t * Tokenizer) :=
  tokens LETTER_CHAR_CODES JAVA_WHITESPACE_CHAR_CODES
    DECIMAL_DIGIT_CHAR_CODES CONSTANTS pow10 bigIntTooBig callStackFrames.

End Latin.

(** Two rows of the decimal-digit map: the Basic Latin digits and the
    Arabic-Indic digits [0x660]-[0x669]. *)
Definition latinAndArabicIndicDigits (z : Z) : option Z :=
  if (0x30 <=? z) && (z <=? 0x39) then Some (z - 0x30)
  else if (0x660 <=? z) && (z <=? 0x669) then Some (z - 0x660)
  else None.


(** ** Literals, as the specification reads them *)

(** The value of a hexadecimal digit. *)
Definition hexVal (c : Z) : Z :=
  if (0x30 <=? c) && (c <=? 0x39) then c - 0x30
  else if (0x61 <=? c) && (c <=? 0x66) then c - 0x61 + 10
  else if (0x41 <=? c) && (c <=? 0x46) then c - 0x41 + 10
  else 0.

(** The value of a decimal digit [0]-[9]. *)
Definition decVal (c : Z) : Z := c - 0x30.

Definition isAsciiDigit (c : Z) : Prop := 0x30 <= c <= 0x39.

(** Positional value of a digit sequence, most significant digit first: the
    sum of [d_i * base^(n-i)]. *)
Fixpoint positional (base : Z) (ds : list Z) : Z :=
  match ds with
  | [] => 0
  | d :: ds' => d * base ^ Z.of_nat (List.length ds') + positional base ds'
  end.

(** The code units that the [switch] of [nextToken] has a case for. *)
Definition switchCases : list Z :=
  [0x27; 0x24; 0x3b; 0x2c; 0x3a; 0x7e; 0x21; 0x2e; 0x2f; 0x2b; 0x2d; 0x3c;
   0x3e; 0x3d; 0x5e; 0x2a; 0x25; 0x26; 0x7c; 0x28; 0x29; 0x5b; 0x5d; 0x7b;
   0x7d].

Definition inSwitch (c : Z) : bool := existsb (Z.eqb c) switchCases.

(** ** The cursor inside the input

    [At t pre rest]: the input of [t] is [pre ++ rest] and its cursor stands
    between the two. *)

Definition At (t : Tokenizer) (pre rest : JS.str) : Prop :=
  input t = pre ++ rest /\ pos t = JS.length pre.

(** The exponent counter after the digits [ds], from [e]:
    [exp *= 10; exp += c - 0x30] per digit. *)
Definition expStep (e : IntNumber) (d : Z) : IntNumber :=
  IntNumber.add (IntNumber.mul e 10) (d - 0x30).

(** The integer accumulator after the digits [ds], from [iv]. *)
Definition intStep (iv d : Z) : Z := iv * 10 + (d - 0x30).

(** The outcome of the decimal loop on a literal without fraction: where
    the cursor stands, which arrays it left alone, and the accumulators. *)
Definition NumResult (t : Tokenizer) (pre rest : JS.str) (iv : Z)
    (e : IntNumber) (r : Tokenizer * Num.t) : Prop :=
  At (fst r) pre rest
  /\ store (fst r) = store t
  /\ errors (fst r) = errors t
  /\ Num.intValue (snd r) = iv
  /\ Num.exp (snd r) = e
  /\ Num.isExp (snd r) = true
  /\ truthy (Num.decimalDigits (snd r)) = false
  /\ Num.isUnicode (snd r) = false.

(** * Assignment discovery *)

(** The AST nodes, by [kind].  [Null] is the [null] that a child may be;
    [VariableNode] is the kind ['Variable'];
    [OtherNode] stands for the kinds the walk has no case for. *)
Inductive Node :=
| Null
| BinaryExpression (operator : string) (lvalue rvalue : Node)
| ParenthesisedExpression (value : Node)
| UnaryExpression (value : Node)
| FunctionExpression (params : list Node)
| MapLiteral (params : list Node)
| ListLiteral (params : list Node)
| VariableNode (name : string)
| OtherNode (kind : string).

(** Modelled from the spec: [resolveParenthesised] of [findScope.js], which
    is not part of the sources: it strips any chain of enclosing
    parenthesised-expression wrappers. *)
Fixpoint resolveParenthesised (n : Node) : Node :=
  match n with
  | ParenthesisedExpression v => resolveParenthesised v
  | _ => n
  end.

(** [variable?.kind !== 'Variable'] is the negation of this. *)
Definition isVariable (n : Node) : bool :=
  match n with
  | VariableNode _ => true
  | _ => false
  end.

(** [operator === '=' || operator === '+=' || operator === '<>']. *)
Definition isAssignOperator (op : string) : bool :=
  (String.eqb op "=" || String.eqb op "+=" || String.eqb op "<>")%string.

(** [findAssign(scope, names)]; the array [names] that the source mutates is
    threaded through the walk. *)
Fixpoint findAssign (scope : Node) (names : list Node) : list Node :=
  match scope with
  | BinaryExpression operator lvalue rvalue =>
      if isAssignOperator operator then
        if isVariable (resolveParenthesised lvalue) then names
        else findAssign rvalue (names ++ [scope])
      else findAssign rvalue (findAssign lvalue names)
  | ParenthesisedExpression value => findAssign value names
  | UnaryExpression value => findAssign value names
  | FunctionExpression params
  | MapLiteral params
  | ListLiteral params =>
      fold_left (fun names param => findAssign param names) params names
  | _ => names
  end.

(** [findVariableNames(root, node)], parametric in the scope resolver
    [findScope] of [findScope.js], which returns the stack it filled. *)
Definition findVariableNames (findScope : Node -> Node -> list Node)
    (root node : Node) : list Node :=
  match findScope root node with
  | [] => []
  | scope :: _ => findAssign scope []
  end.

(** The statements [x = 1; [a, b] = f(); y = (a, b)] as the operands of
    [;]. *)
Definition example_scope : Node :=
  BinaryExpression ";"
    (BinaryExpression ";"
       (BinaryExpression "=" (VariableNode "x") (OtherNode "Constant"))
       (BinaryExpression "="
          (ListLiteral [VariableNode "a"; VariableNode "b"])
          (OtherNode "FunctionCall")))
    (BinaryExpression "=" (VariableNode "y")
       (ParenthesisedExpression
          (BinaryExpression "," (VariableNode "a") (VariableNode "b")))).

(** * The generator of the Unicode tables

    The part of [genUnicodeData.cjs] that computes the whitespace list from
    the code points with the [White_Space] property, which it reads from a
    package. *)

(** [(code) => code <= 0xffff]. *)
Definition nonSupplementary (code : Z) : bool := code <=? 0xffff.

Definition javaExtraSpace : list Z :=
  [0x09; 0x0a; 0x0b; 0x0c; 0x0d; 0x1c; 0x1d; 0x1e; 0x1f].

Definition javaNonSpace : list Z := [0x00a0; 0x2007; 0x202f].

(** [a.includes(code)]. *)
Definition includes (a : list Z) (code : Z) : bool := existsb (Z.eqb code) a.

(** [Array.from(new Set(l))] after the elements [seen]: a [Set] keeps the
    first of equal elements, in insertion order. *)
Fixpoint setFrom (seen l : list Z) : list Z :=
  match l with
  | [] => []
  | x :: l' =>
      if includes seen x then setFrom seen l'
      else x :: setFrom (seen ++ [x]) l'
  end.

(** [javaWhitespace], from the [White_Space] code points of the package. *)
Definition javaWhitespace (whiteSpaceCodePoints : list Z) : list Z :=
  let unicodeWhitespace := filter nonSupplementary whiteSpaceCodePoints in
  setFrom []
    (javaExtraSpace
     ++ filter (fun code => negb (includes javaNonSpace code)) unicodeWhitespace).


(** ** Predicates of the properties *)

(** ** What a scanning step may change

    [Extends t t']: [t'] has the input, the options and the two array
    references of [t]; the errors array of [t'] is that of [t] with
    diagnostics appended; every other array of the store is as it was. *)

Record Extends (t t' : Tokenizer) : Prop := mkExtends {
  ext_input : input t' = input t;
  ext_allowComments : allowComments t' = allowComments t;
  ext_allowNewLineMarkers : allowNewLineMarkers t' = allowNewLineMarkers t;
  ext_errors : errors t' = errors t;
  ext_warnings : warnings t' = warnings t;
  ext_appended : exists ds, errorsOf t' = errorsOf t ++ ds;
  ext_frame : forall r, r <> errors t -> deref (store t') r = deref (store t) r
}.

(** ** Tokens by kind *)

(** The kinds whose tokens are built without a value: punctuation and
    operators. *)
Definition valueless (k : TokenType) : bool :=
  match k with
  | String_ | Number | HexNumber | Function_ | Constant | Variable_ | Comment => false
  | _ => true
  end.

(** What the token of a string literal that started at [pos0] looks like:
    with the error flag clear it has a value and ends right after a closing
    quote that is not the opening one; with the flag set the scan has reached
    the end of the input, and the token has no value unless the input ends
    with a backslash. *)
Definition StringToken (inp : JS.str) (pos0 : Position.t) (tok : Token.t) : Prop :=
  Token.kind tok = String_
  /\ Token.start tok = pos0
  /\ (Token.hasError tok = false ->
      (exists s, Token.value tok = Some (StringV s))
      /\ JS.charCodeAt inp (Position.pos (Token.end_ tok) - 1) = Some 0x27
      /\ Position.pos pos0 < Position.pos (Token.end_ tok) - 1)
  /\ (Token.hasError tok = true ->
      JS.length inp <= Position.pos (Token.end_ tok)
      /\ (Token.value tok = None
          \/ JS.charCodeAt inp (JS.length inp - 1) = Some 0x5c)).

(** The per-token facts that every reader establishes. *)
Definition TokenShape (inp : JS.str) (tok : Token.t) : Prop :=
  (valueless (Token.kind tok) = true ->
     Token.value tok = None /\ Token.hasError tok = false)
  /\ (valueless (Token.kind tok) = false -> Token.hasError tok = false ->
     Token.value tok <> None)
  /\ (Token.hasError tok = true ->
     Token.kind tok = Number \/ Token.kind tok = HexNumber \/ Token.kind tok = String_)
  /\ (Token.kind tok = Number \/ Token.kind tok = HexNumber ->
     Token.hasError tok = true -> Token.value tok = None)
  /\ (Token.kind tok = String_ -> StringToken inp (Token.start tok) tok).

(** The relation between value and error flag that every returned token
    obeys; [inp] is the input of the tokenizer. *)
Definition ValueErrorLaw (inp : JS.str) (tok : Token.t) : Prop :=
  (Token.value tok = None ->
     Token.hasError tok = true \/ valueless (Token.kind tok) = true)
  /\ (valueless (Token.kind tok) = true ->
     Token.value tok = None /\ Token.hasError tok = false)
  /\ (Token.hasError tok = true ->
     Token.kind tok = Number \/ Token.kind tok = HexNumber \/ Token.kind tok = String_)
  /\ (Token.kind tok = Number \/ Token.kind tok = HexNumber ->
     (Token.value tok = None <-> Token.hasError tok = true))
  /\ (valueless (Token.kind tok) = false -> Token.hasError tok = false ->
     Token.value tok <> None)
  /\ (Token.kind tok = String_ ->
     (Token.hasError tok = false ->
        (exists s, Token.value tok = Some (StringV s))
        /\ JS.charCodeAt inp (Position.pos (Token.end_ tok) - 1) = Some 0x27
        /\ Position.pos (Token.start tok) < Position.pos (Token.end_ tok) - 1)
     /\ (Token.hasError tok = true ->
        JS.length inp <= Position.pos (Token.end_ tok)
        /\ (Token.value tok = None
            \/ JS.charCodeAt inp (JS.length inp - 1) = Some 0x5c))).

(** A reader's result extends the tokenizer it started from and has a
    well-shaped token. *)
Definition Shaped (t : Tokenizer) (p : Token.t * Tokenizer) : Prop :=
  Extends t (snd p) /\ TokenShape (input t) (fst p).

(** What one [nextToken] call establishes when it returns. *)
Definition Scanned (t : Tokenizer) (r : option Token.t) (t' : Tokenizer) : Prop :=
  Extends t t' /\ forall tok, r = Some tok -> TokenShape (input t) tok.

(** The accumulation of the do-while, one digit at a time. *)
Definition hexStep (a d : Z) : Z := Z.lor (Z.shiftl a 4) (hexDigitValue d).

(** The table check behind [hexDigitValue_spec]: on a unit that [isHexDigit]
    accepts, the bit trick of the source gives the digit value, which is
    below 16, and the unit is one of [0-9], [A-F], [a-f]. *)
Definition hexCheck (c : Z) : bool :=
  implb (isHexDigit (Some c))
    ((hexDigitValue c =? hexVal c) && (0 <=? hexVal c) && (hexVal c <? 16)
     && (((0x30 <=? c) && (c <=? 0x39)) || ((0x41 <=? c) && (c <=? 0x46))
         || ((0x61 <=? c) && (c <=? 0x66)))).

(** The units between the cursor and the end of the input. *)
Definition remaining (t : Tokenizer) : nat :=
  Z.to_nat (JS.length (input t) - pos t).

(** The source [1e] followed by 310 nines. *)
Definition huge_exponent : JS.str := JS.lit "1e" ++ repeat 0x39 310.

(** A tokenizer over [#] whose [errors] and [warnings] options are one and
    the same array. *)
Definition shared_sink : Tokenizer :=
  let '(r, s) := alloc emptyStore in
  newTokenizer (JS.lit "#") (mkOptions None None (Some r) (Some r)) s.

(** [IntNumber.round] against the binary64 rounding of the standard library
    ([binary_normalize]): same finite value, or infinite together. *)
Definition roundAgrees (z : Z) : bool :=
  match IntNumber.round z, Prim2SF (NumberOfBigInt z) with
  | Finite r, S754_finite false m e => r =? Z.shiftl (Z.pos m) e
  | Finite r, S754_zero _ => r =? 0
  | PosInfinity, S754_infinity false => true
  | _, _ => false
  end.

Definition roundSamples : list Z :=
  [0; 1; 2 ^ 53 - 1; 2 ^ 53; 2 ^ 53 + 1; 2 ^ 53 + 2; 2 ^ 53 + 3; 2 ^ 54 + 2;
   2 ^ 54 + 6; 10 ^ 22; 10 ^ 23; 10 ^ 30 + 7; 9007199254740993;
   123456789012345678901234567890; 10 ^ 308; 10 ^ 309; 2 ^ 1023;
   (2 ^ 53 - 1) * 2 ^ 971; (2 ^ 53 - 1) * 2 ^ 971 + 2 ^ 970 - 1;
   (2 ^ 53 - 1) * 2 ^ 971 + 2 ^ 970; 2 ^ 1024 - 1; 2 ^ 1024]
  ++ map (fun k => 3 ^ Z.of_nat k) (seq 0 700).

(** ** The dispatch of [nextToken], as tables and as a relation *)

(** The code units whose [case] returns a one-unit token outright. *)
Definition plainOps : list (Z * TokenType) :=
  [(0x3b, Semicolon); (0x2c, Comma); (0x3a, Colon); (0x7e, Tilde);
   (0x5e, Pow); (0x2a, Mul); (0x25, Mod); (0x28, OpenParen);
   (0x29, CloseParen); (0x5b, OpenBrack); (0x5d, CloseBrack);
   (0x7b, OpenBrace); (0x7d, CloseBrace)].

(** First unit, second unit, kind of the two-unit operators. *)
Definition pairOps : list (Z * Z * TokenType) :=
  [(0x21, 0x3d, NotEquals); (0x2b, 0x3d, AddAssign); (0x2d, 0x3e, Arrow);
   (0x3c, 0x3e, SwapAssign); (0x3c, 0x3d, LtEq); (0x3e, 0x3d, GtEq);
   (0x3d, 0x3d, Equals)].

(** The one-unit kind a first unit falls back to. *)
Definition fallbackOps : list (Z * TokenType) :=
  [(0x21, Not); (0x2f, Div); (0x2b, Add); (0x2d, Sub); (0x3c, Lt);
   (0x3e, Gt); (0x3d, Assign)].

Definition booleanOps : list (Z * TokenType) := [(0x26, And); (0x7c, Or)].

(** The texts a token of a punctuation or operator kind can cover. *)
Definition lexemes (k : TokenType) : list JS.str :=
  match k with
  | Semicolon => [[0x3b]] | Comma => [[0x2c]] | Colon => [[0x3a]]
  | Tilde => [[0x7e]] | Pow => [[0x5e]] | Mul => [[0x2a]] | Mod => [[0x25]]
  | OpenParen => [[0x28]] | CloseParen => [[0x29]]
  | OpenBrack => [[0x5b]] | CloseBrack => [[0x5d]]
  | OpenBrace => [[0x7b]] | CloseBrace => [[0x7d]]
  | Not => [[0x21]] | NotEquals => [[0x21; 0x3d]]
  | Div => [[0x2f]]
  | Add => [[0x2b]] | AddAssign => [[0x2b; 0x3d]]
  | Sub => [[0x2d]] | Arrow => [[0x2d; 0x3e]]
  | Lt => [[0x3c]] | SwapAssign => [[0x3c; 0x3e]] | LtEq => [[0x3c; 0x3d]]
  | Gt => [[0x3e]] | GtEq => [[0x3e; 0x3d]]
  | Assign => [[0x3d]] | Equals => [[0x3d; 0x3d]]
  | NewLineMarker => [[0x24]]
  | And => [[0x26; 0x26]; [0x26]]
  | Or => [[0x7c; 0x7c]; [0x7c]]
  | Spread => [[0x2e; 0x2e; 0x2e]; [0x2e]]
  | _ => []
  end.

(** The input holds [text] from offset [p] on. *)
Definition TextAt (inp : JS.str) (p : Z) (text : JS.str) : Prop :=
  forall i, (i < List.length text)%nat ->
    JS.charCodeAt inp (p + Z.of_nat i) = nth_error text i.

Section ScannerViews.

Variable LETTER_CHAR_CODES : Z -> bool.
Variable JAVA_WHITESPACE_CHAR_CODES : list Z.
Variable DECIMAL_DIGIT_CHAR_CODES : Z -> option Z.
Variable CONSTANTS : JS.str -> bool.
Variable pow10 : float -> float.
Variable bigIntTooBig : Z -> bool.

(** A unit that [nextToken] has no token for: no [case], no digit, no
    underscore, no letter. *)
Definition unexpected (c : option Z) : Prop :=
  (forall k, In k switchCases -> charIs c k = false)
  /\ isDigit DECIMAL_DIGIT_CHAR_CODES c = false
  /\ charIs c 0x5f || isLetter LETTER_CHAR_CODES c = false.

(** The diagnostics for the units of [inp] from offset [lo] up to [hi] that
    are not whitespace: one [UnexpectedToken] for each, in the order of the
    units, both ends at the unit. *)
Definition UnexpectedReport (inp : JS.str) (lo hi : Z)
    (ds : list Diagnostic.t) : Prop :=
  Forall (fun d =>
            Diagnostic.kind d = UnexpectedToken
            /\ Diagnostic.end_ d = Diagnostic.start d
            /\ lo <= Position.pos (Diagnostic.start d) < hi
            /\ isWhitespace JAVA_WHITESPACE_CHAR_CODES
                 (JS.charCodeAt inp (Position.pos (Diagnostic.start d))) = false)
         ds
  /\ StronglySorted Z.lt
       (map (fun d => Position.pos (Diagnostic.start d)) ds)
  /\ (forall i, lo <= i < hi ->
        isWhitespace JAVA_WHITESPACE_CHAR_CODES (JS.charCodeAt inp i) = false ->
        exists d, In d ds /\ Position.pos (Diagnostic.start d) = i).

(** [Resync t t0]: from [t], [nextToken] skips whitespace and unexpected
    units, recording each of the latter, and comes to rest at [t0]. *)
Inductive Resync : Tokenizer -> Tokenizer -> Prop :=
| Resync_here t :
    Resync t (skipWhitespace JAVA_WHITESPACE_CHAR_CODES t)
| Resync_skip t t0 :
    atEnd (skipWhitespace JAVA_WHITESPACE_CHAR_CODES t) = false ->
    unexpected (getChar (skipWhitespace JAVA_WHITESPACE_CHAR_CODES t)) ->
    Resync
      (advance
         (error0 (skipWhitespace JAVA_WHITESPACE_CHAR_CODES t) UnexpectedToken) 1)
      t0 ->
    Resync t t0.

(** [Reads fuel t0 p]: at [t0] the dispatch of [nextToken] picks a reader,
    which returns the token and tokenizer [p]. *)
Inductive Reads (fuel : nat) (t0 : Tokenizer) : Token.t * Tokenizer -> Prop :=
| Reads_string :
    getChar t0 = Some 0x27 -> Reads fuel t0 (readString t0)
| Reads_marker :
    getChar t0 = Some 0x24 ->
    Reads fuel t0
      (getOneCharToken
         (if allowNewLineMarkers t0 then t0
          else error0 t0 UnexpectedNewLineMarker) NewLineMarker)
| Reads_plain c ty :
    In (c, ty) plainOps -> getChar t0 = Some c ->
    Reads fuel t0 (getOneCharToken t0 ty)
| Reads_pair c1 c2 ty :
    In (c1, c2, ty) pairOps -> getChar t0 = Some c1 -> peekChar t0 = Some c2 ->
    Reads fuel t0 (getTwoCharToken t0 ty)
| Reads_fallback c ty :
    In (c, ty) fallbackOps -> getChar t0 = Some c ->
    (forall c2 ty2, In (c, c2, ty2) pairOps -> peekChar t0 <> Some c2) ->
    (c = 0x2f -> peekChar t0 <> Some 0x2f) ->
    Reads fuel t0 (getOneCharToken t0 ty)
| Reads_ellipsis :
    getChar t0 = Some 0x2e -> Reads fuel t0 (readEllipsis t0)
| Reads_boolean c ty :
    In (c, ty) booleanOps -> getChar t0 = Some c ->
    Reads fuel t0 (getBooleanOp t0 ty c)
| Reads_comment p :
    getChar t0 = Some 0x2f -> peekChar t0 = Some 0x2f ->
    readComment fuel t0 = Ret p -> Reads fuel t0 p
| Reads_number c p :
    getChar t0 = Some c -> inSwitch c = false ->
    isDigit DECIMAL_DIGIT_CHAR_CODES (Some c) = true ->
    readNumber DECIMAL_DIGIT_CHAR_CODES pow10 bigIntTooBig t0 = Ret p ->
    Reads fuel t0 p
| Reads_ident c :
    getChar t0 = Some c -> inSwitch c = false ->
    isDigit DECIMAL_DIGIT_CHAR_CODES (Some c) = false ->
    c = 0x5f \/ LETTER_CHAR_CODES c = true ->
    Reads fuel t0
      (readIdent LETTER_CHAR_CODES JAVA_WHITESPACE_CHAR_CODES
         DECIMAL_DIGIT_CHAR_CODES CONSTANTS t0).

End ScannerViews.


(** The text of consecutive comment lines with the given bodies: each line
    is [//], the body and a line feed. *)
Definition commentBlock (bodies : list JS.str) : JS.str :=
  flat_map (fun b => 0x2f :: 0x2f :: b ++ [0x0a]) bodies.


(** Every [//] of the input has a line feed somewhere after it. *)
Definition CommentsEnded (inp : JS.str) : Prop :=
  forall i, JS.charCodeAt inp i = Some 0x2f ->
            JS.charCodeAt inp (i + 1) = Some 0x2f ->
            exists j, i < j /\ JS.charCodeAt inp j = Some 0x0a.


(** ** String literals by items *)

(** The body of a string literal as a sequence of items: a unit standing
    for itself, or a backslash followed by a unit. *)
Inductive StrItem :=
| Plain (c : Z)
| Escape (e : Z).

(** What the escape [\e] stands for: the four branches of [readString]. *)
Definition escapeValue (e : Z) : option Z :=
  if e =? 0x6e then Some 0x0a
  else if e =? 0x74 then Some 0x09
  else if e =? 0x27 then Some 0x27
  else if e =? 0x5c then Some 0x5c
  else None.

(** A plain unit is neither the quote nor the backslash. *)
Definition plainOk (i : StrItem) : Prop :=
  match i with
  | Plain c => c <> 0x27 /\ c <> 0x5c
  | Escape _ => True
  end.

(** The source text of the items. *)
Definition encode (items : list StrItem) : JS.str :=
  flat_map (fun i => match i with
                     | Plain c => [c]
                     | Escape e => [0x5c; e]
                     end) items.

(** The value [readString] builds from the items: an escape it does not
    know contributes nothing. *)
Definition decode (items : list StrItem) : JS.str :=
  flat_map (fun i => match i with
                     | Plain c => [c]
                     | Escape e => match escapeValue e with
                                   | Some d => [d]
                                   | None => []
                                   end
                     end) items.

(** The diagnostics of the items: one per escape that is not known. *)
Definition escapeErrors (items : list StrItem) : list Diagnostics :=
  flat_map (fun i => match i with
                     | Plain _ => []
                     | Escape e => match escapeValue e with
                                   | Some _ => []
                                   | None => [UnknownEscapeSequence]
                                   end
                     end) items.

(** By how much the items advance the row: a line feed counts once, a line
    feed after a backslash twice. *)
Definition itemRows (i : StrItem) : Z :=
  match i with
  | Plain c => if c =? 0x0a then 1 else 0
  | Escape e => if e =? 0x0a then 2 else 0
  end.

Definition lineFeeds (items : list StrItem) : Z :=
  fold_right (fun i n => itemRows i + n) 0 items.


(** The diagnostics that reading a punctuation or operator token records:
    a [$] that is not allowed, a [&] or [|] that is not doubled, a [.] that
    does not begin [...]; the last is recorded after the [.], where the
    token ends. *)
Definition operatorDiagnostics (allowMarkers : bool) (tok : Token.t)
  : list Diagnostic.t :=
  let width := Position.pos (Token.end_ tok) - Position.pos (Token.start tok) in
  match Token.kind tok with
  | NewLineMarker =>
      if allowMarkers then []
      else [Diagnostic.mk UnexpectedNewLineMarker (Token.start tok) (Token.start tok)]
  | And | Or =>
      if width =? 2 then []
      else [Diagnostic.mk UnknownOperator (Token.start tok) (Token.start tok)]
  | Spread =>
      if width =? 3 then []
      else [Diagnostic.mk UnknownOperator (Token.end_ tok) (Token.end_ tok)]
  | _ => []
  end.


(** ** Nodes of a tree *)

(** What the walk collects: an assignment, a compound assignment or a swap
    whose left side, out of its parentheses, is not a variable. *)
Definition isDiscovery (n : Node) : Prop :=
  match n with
  | BinaryExpression operator lvalue _ =>
      isAssignOperator operator = true
      /\ isVariable (resolveParenthesised lvalue) = false
  | _ => False
  end.

(** The nodes of a tree, the root first. *)
Fixpoint subnodes (n : Node) : list Node :=
  n :: match n with
       | BinaryExpression _ lvalue rvalue => subnodes lvalue ++ subnodes rvalue
       | ParenthesisedExpression value | UnaryExpression value => subnodes value
       | FunctionExpression params | MapLiteral params | ListLiteral params =>
           flat_map subnodes params
       | _ => []
       end.


(** ** Digits outside ASCII *)

(** The integer accumulator over a digit: a digit above 127 is reported
    and leaves it as it is. *)
Definition digitStep (iv d : Z) : Z := if 127 <? d then iv else intStep iv d.

(** The offsets of the digits above 127 in [ds], which starts at [p]. *)
Fixpoint unicodeOffsets (p : Z) (ds : list Z) : list Z :=
  match ds with
  | [] => []
  | d :: ds' => (if 127 <? d then [p] else []) ++ unicodeOffsets (p + 1) ds'
  end.


(** * Properties *)

(** ** Code-unit sequences *)

Lemma length_app (a b : JS.str) : JS.length (a ++ b) = JS.length a + JS.length b.
Proof. unfold JS.length. rewrite List.length_app. lia. Qed.

Lemma length_cons (c : Z) (s : JS.str) : JS.length (c :: s) = 1 + JS.length s.
Proof. unfold JS.length. simpl List.length. lia. Qed.

Lemma length_nonneg (s : JS.str) : 0 <= JS.length s.
Proof. unfold JS.length. lia. Qed.

Lemma charCodeAt_app (pre rest : JS.str) :
  JS.charCodeAt (pre ++ rest) (JS.length pre) = hd_error rest.
Proof.
  unfold JS.charCodeAt, JS.length.
  destruct (Z.ltb_spec (Z.of_nat (List.length pre)) 0) as [H|_]; [lia|].
  rewrite Nat2Z.id. induction pre as [|a pre IH]; simpl.
  - now destruct rest.
  - exact IH.
Qed.

Lemma charCodeAt_app_next (pre : JS.str) (c : Z) (rest : JS.str) :
  JS.charCodeAt (pre ++ c :: rest) (JS.length pre + 1) = hd_error rest.
Proof.
  replace (pre ++ c :: rest) with ((pre ++ [c]) ++ rest)
    by (rewrite <- app_assoc; reflexivity).
  replace (JS.length pre + 1) with (JS.length (pre ++ [c]))
    by (rewrite length_app, length_cons; reflexivity).
  apply charCodeAt_app.
Qed.

Lemma charCodeAt_Some (s : JS.str) (i c : Z) :
  JS.charCodeAt s i = Some c -> 0 <= i < JS.length s.
Proof.
  unfold JS.charCodeAt, JS.length.
  destruct (Z.ltb_spec i 0) as [H|H]; [discriminate|].
  intros E. assert (nth_error s (Z.to_nat i) <> None) as N by congruence.
  apply nth_error_Some in N. lia.
Qed.

Lemma charCodeAt_inside (s : JS.str) (i : Z) :
  0 <= i < JS.length s -> exists c, JS.charCodeAt s i = Some c.
Proof.
  unfold JS.charCodeAt, JS.length. intros H.
  destruct (Z.ltb_spec i 0) as [H'|_]; [lia|].
  destruct (nth_error s (Z.to_nat i)) as [c|] eqn:E; [now exists c|].
  apply nth_error_None in E. lia.
Qed.

Lemma slice_app (pre mid rest : JS.str) :
  JS.slice (pre ++ mid ++ rest) (JS.length pre) (JS.length pre + JS.length mid) = mid.
Proof.
  unfold JS.slice, JS.clamp.
  rewrite !length_app.
  pose proof (length_nonneg pre). pose proof (length_nonneg mid).
  pose proof (length_nonneg rest).
  destruct (Z.ltb_spec (JS.length pre) 0); [lia|].
  destruct (Z.ltb_spec (JS.length pre + JS.length mid) 0); [lia|].
  rewrite !Z.min_l by lia.
  replace (JS.length pre + JS.length mid - JS.length pre) with (JS.length mid) by lia.
  unfold JS.length. rewrite !Nat2Z.id.
  rewrite skipn_app, Nat.sub_diag, skipn_all. simpl.
  rewrite firstn_app, Nat.sub_diag, firstn_all. simpl. now rewrite app_nil_r.
Qed.

(** ** The cursor inside the input *)

Lemma At_getChar t pre rest : At t pre rest -> getChar t = hd_error rest.
Proof. intros [Hi Hp]. unfold getChar. rewrite Hi, Hp. apply charCodeAt_app. Qed.

Lemma At_peekChar t pre c rest :
  At t pre (c :: rest) -> peekChar t = hd_error rest.
Proof. intros [Hi Hp]. unfold peekChar. rewrite Hi, Hp. apply charCodeAt_app_next. Qed.

Lemma At_atEnd_cons t pre c rest : At t pre (c :: rest) -> atEnd t = false.
Proof.
  intros [Hi Hp]. unfold atEnd. rewrite Hi, Hp, length_app, length_cons.
  pose proof (length_nonneg rest). apply Z.leb_gt. lia.
Qed.

Lemma At_atEnd_nil t pre : At t pre [] -> atEnd t = true.
Proof.
  intros [Hi Hp]. unfold atEnd. rewrite Hi, Hp, app_nil_r. apply Z.leb_refl.
Qed.

Lemma At_advance t pre c rest :
  At t pre (c :: rest) -> At (advance t 1) (pre ++ [c]) rest.
Proof.
  intros [Hi Hp]. split; simpl.
  - rewrite Hi, <- app_assoc. reflexivity.
  - rewrite Hp, length_app, length_cons. reflexivity.
Qed.

Lemma At_remaining t pre rest :
  At t pre rest -> Z.to_nat (JS.length (input t) - pos t) = List.length rest.
Proof.
  intros [Hi Hp]. rewrite Hi, Hp, length_app. unfold JS.length. lia.
Qed.

Lemma getChar_Some_atEnd t c : getChar t = Some c -> atEnd t = false.
Proof.
  unfold getChar, atEnd. intros H. apply charCodeAt_Some in H.
  apply Z.leb_gt. lia.
Qed.

(** ** readComment on a comment that no line feed ends *)

Lemma find_absent (ch : Z) (s : JS.str) (i : Z) :
  ~ In ch s -> JS.find ch s i = -1.
Proof.
  revert i. induction s as [|c s IH]; intros i H; simpl; [reflexivity|].
  destruct (Z.eqb_spec c ch) as [->|_].
  - exfalso. apply H. now left.
  - apply IH. intros HIn. apply H. now right.
Qed.

Lemma In_skipn {A} (x : A) (n : nat) (l : list A) : In x (skipn n l) -> In x l.
Proof.
  revert l. induction n as [|n IH]; intros [|a l]; simpl; auto.
Qed.

Lemma indexOf_absent (s : JS.str) (ch from : Z) :
  ~ In ch s -> JS.indexOf s ch from = -1.
Proof.
  intros H. unfold JS.indexOf. apply find_absent.
  intros HIn. apply H. eapply In_skipn. exact HIn.
Qed.

(** Without a line feed in the input [indexOf] answers [-1], the cursor is
    set to [0], and on an input that begins with [//] the loop condition
    holds again: no amount of fuel is enough. *)
Lemma readComment_loop_diverges (fuel : nat) (t : Tokenizer) (value rest : JS.str) :
  input t = 0x2f :: 0x2f :: rest ->
  ~ In 0x0a (input t) ->
  readComment_loop fuel t value = OutOfFuel.
Proof.
  revert t value. induction fuel as [|fuel IH]; intros t value Hi Hn; [reflexivity|].
  cbn [readComment_loop]. rewrite indexOf_absent by exact Hn.
  change (-1 + 1) with 0.
  set (t' := set_row (set_pos t 0) (row (set_pos t 0) + 1)).
  assert (At t' [] (0x2f :: 0x2f :: rest)) as HAt by (split; [exact Hi|reflexivity]).
  rewrite (At_atEnd_cons _ _ _ _ HAt), (At_getChar _ _ _ HAt),
    (At_peekChar _ _ _ _ HAt).
  cbn [negb andb hd_error charIs]. rewrite !Z.eqb_refl. cbn [andb].
  apply IH; assumption.
Qed.

(** C1 (evaluation at the failing input).  On the one-line source [//], with
    the default options, [nextToken] never returns: for every amount of fuel
    the first call is still inside the do-while of [readComment]. *)
Theorem nextToken_unterminated_comment_diverges :
  forall fuel, Latin.nextToken fuel (Latin.tokenizer "//") = OutOfFuel.
Proof.
  intros [|fuel]; [reflexivity|].
  unfold Latin.nextToken, nextToken, Latin.tokenizer.
  cbn -[readComment Latin.callStackFrames].
  unfold readComment. cbn [allowComments].
  erewrite readComment_loop_diverges; [reflexivity|reflexivity|].
  cbn. intros [H|[H|[]]]; discriminate.
Qed.

(** ** The exponent counter *)

Example round_is_binary64_rounding : forallb roundAgrees roundSamples = true.
Proof. vm_compute. reflexivity. Qed.

(** Past [2^53] the counter is no longer the number its digits denote:
    9007199254740993 is counted as 9007199254740992. *)
Example exponent_counter_rounds :
  fold_left expStep (JS.lit "9007199254740993") (Finite 0)
  = Finite 9007199254740992.
Proof. vm_compute. reflexivity. Qed.

(** ** Evaluations on closed inputs *)

(** C3 (evaluation at the failing input).  On the source [ //b] (a space, a
    comment, no line feed) the first token is a Comment token that starts at
    offset 1 and ends at offset 0: its end lies before its start. *)
Theorem comment_token_end_before_start :
  forall fuel, exists tok t',
    Latin.nextToken (S (S fuel)) (Latin.tokenizer " //b") = Ret (Some tok, t')
    /\ Token.kind tok = Comment
    /\ Position.pos (Token.start tok) = 1
    /\ Position.pos (Token.end_ tok) = 0
    /\ ~ Position.pos (Token.start tok) <= Position.pos (Token.end_ tok).
Proof.
  intros fuel. eexists. eexists. split; [vm_compute; reflexivity|].
  cbn. repeat split. lia.
Qed.

(** C4 (evaluation at the failing input).  The literal ['a\qb'] yields a
    String token whose value is [ab]: the backslash and the [q] after it are
    both missing from the decoded value; one UnknownEscapeSequence diagnostic
    is recorded. *)
Theorem unknown_escape_drops_next_char :
  forall fuel, exists tok t',
    Latin.nextToken (S fuel) (Latin.tokenizer "'a\qb'") = Ret (Some tok, t')
    /\ Token.kind tok = String_
    /\ Token.value tok = Some (StringV (JS.lit "ab"))
    /\ Token.value tok <> Some (StringV (JS.lit "aqb"))
    /\ map Diagnostic.kind (errorsOf t') = [UnknownEscapeSequence].
Proof.
  intros fuel. eexists. eexists. split; [vm_compute; reflexivity|].
  cbn. repeat split. discriminate.
Qed.

(** C2 (evaluation at the failing input).  On the source ['a\] (a quote, an
    [a] and a backslash, the end of the input coming right after the
    backslash) the token is a String token that has the error flag and a
    value as well, the text [a] decoded so far; one UnexpectedEof diagnostic
    is recorded.  On the source ['a], where the end of the input is found by
    the other check of the loop, the String token has the flag and no
    value. *)
Theorem string_eof_after_backslash :
  forall fuel,
    (exists tok t',
       Latin.nextToken (S fuel) (Latin.tokenizer "'a\") = Ret (Some tok, t')
       /\ Token.kind tok = String_
       /\ Token.hasError tok = true
       /\ Token.value tok = Some (StringV (JS.lit "a"))
       /\ Token.value tok <> None
       /\ map Diagnostic.kind (errorsOf t') = [UnexpectedEof])
    /\ (exists tok t',
          Latin.nextToken (S fuel) (Latin.tokenizer "'a") = Ret (Some tok, t')
          /\ Token.kind tok = String_
          /\ Token.hasError tok = true
          /\ Token.value tok = None
          /\ map Diagnostic.kind (errorsOf t') = [UnexpectedEof]).
Proof.
  intros fuel. split.
  - eexists. eexists. split; [vm_compute; reflexivity|].
    cbn. repeat split. discriminate.
  - eexists. eexists. split; [vm_compute; reflexivity|].
    cbn. repeat split.
Qed.

(** The token of [;] has neither a value nor the error flag: the relation
    between the two is one of the tokens of the kinds that carry a value. *)
Lemma semicolon_no_value_no_error :
  exists tok t',
    Latin.nextToken 1 (Latin.tokenizer ";") = Ret (Some tok, t')
    /\ Token.value tok = None /\ Token.hasError tok = false.
Proof.
  eexists. eexists. split; [vm_compute; reflexivity|].
  cbn. split; reflexivity.
Qed.

(** Counterexample to C5 as stated: after [&] followed by [x] the cursor has
    moved one code unit, not two. *)
Lemma lone_ampersand_advances_one :
  exists tok t',
    Latin.nextToken 1 (Latin.tokenizer "&x") = Ret (Some tok, t')
    /\ Token.kind tok = And
    /\ map Diagnostic.kind (errorsOf t') = [UnknownOperator]
    /\ pos t' = 1
    /\ pos t' <> pos (Latin.tokenizer "&x") + 2.
Proof.
  eexists. eexists. split; [vm_compute; reflexivity|].
  cbn. repeat split. discriminate.
Qed.

(** C7 (evaluation at the failing input).  On the literal [1e] followed by
    310 nines the exponent counter has become [+Infinity], [BigInt(exp)]
    throws, and [nextToken] ends with the [RangeError]: no token is
    returned and no diagnostic is recorded.  On the literal [0x], which
    [readNumber] cannot read either, a HexNumber token is returned, with the
    error flag, no value, and one ExpectedHexDigit diagnostic. *)
Theorem huge_exponent_throws :
  forall fuel,
    Latin.nextToken (S fuel) (newTokenizer huge_exponent noOptions emptyStore)
    = Throw RangeError
    /\ exists tok t',
         Latin.nextToken (S fuel) (Latin.tokenizer "0x") = Ret (Some tok, t')
         /\ Token.kind tok = HexNumber
         /\ Token.hasError tok = true
         /\ Token.value tok = None
         /\ map Diagnostic.kind (errorsOf t') = [ExpectedHexDigit].
Proof.
  intros fuel. split; [vm_compute; reflexivity|].
  eexists. eexists. split; [vm_compute; reflexivity|].
  cbn. repeat split.
Qed.

(** C9 (evaluation at the failing input).  The Function token of [foo  (]
    has the text [foo] as its value, starts at offset 0 and ends at offset
    5, where the parenthesis is: the two spaces that [readIdent] skips are
    inside the span of the token, whose end lies two units after the end of
    the identifier.  So does the Variable token of [foo  bar].  The Number
    token of [12  x] ends at offset 2, where its text ends. *)
Theorem ident_token_spans_whitespace :
  forall fuel,
    (exists tok t',
       Latin.nextToken (S fuel) (Latin.tokenizer "foo  (") = Ret (Some tok, t')
       /\ Token.kind tok = Function_
       /\ Token.value tok = Some (StringV (JS.lit "foo"))
       /\ Position.pos (Token.start tok) = 0
       /\ Position.pos (Token.end_ tok) = 5
       /\ Position.pos (Token.end_ tok)
          <> Position.pos (Token.start tok) + JS.length (JS.lit "foo"))
    /\ (exists tok t',
          Latin.nextToken (S fuel) (Latin.tokenizer "foo  bar")
          = Ret (Some tok, t')
          /\ Token.kind tok = Variable_
          /\ Token.value tok = Some (StringV (JS.lit "foo"))
          /\ Position.pos (Token.start tok) = 0
          /\ Position.pos (Token.end_ tok) = 5)
    /\ (exists tok t',
          Latin.nextToken (S fuel) (Latin.tokenizer "12  x")
          = Ret (Some tok, t')
          /\ Token.kind tok = Number
          /\ Position.pos (Token.start tok) = 0
          /\ Position.pos (Token.end_ tok) = 2).
Proof.
  intros fuel. split; [|split].
  - eexists. eexists. split; [vm_compute; reflexivity|].
    cbn. repeat split. discriminate.
  - eexists. eexists. split; [vm_compute; reflexivity|].
    cbn. repeat split.
  - eexists. eexists. split; [vm_compute; reflexivity|].
    cbn. repeat split.
Qed.

(** Counterexample to C10 as stated: the diagnostic of the unexpected [#]
    shows up in the warnings array. *)
Lemma shared_sink_warnings_change :
  exists t',
    Latin.nextToken 2 shared_sink = Ret (None, t')
    /\ warningsOf shared_sink = []
    /\ map Diagnostic.kind (warningsOf t') = [UnexpectedToken]
    /\ warningsOf t' <> warningsOf shared_sink.
Proof.
  eexists. split; [vm_compute; reflexivity|].
  cbn. repeat split. discriminate.
Qed.

(** ** What a scanning step may change *)

Create HintDb ext.

Lemma Extends_same (t t' : Tokenizer) :
  input t' = input t -> allowComments t' = allowComments t ->
  allowNewLineMarkers t' = allowNewLineMarkers t ->
  errors t' = errors t -> warnings t' = warnings t -> store t' = store t ->
  Extends t t'.
Proof.
  intros Hi Hc Hn He Hw Hs. constructor; auto.
  - exists []. unfold errorsOf. now rewrite He, Hs, app_nil_r.
  - intros r _. now rewrite Hs.
Qed.

Lemma Extends_refl (t : Tokenizer) : Extends t t.
Proof. now apply Extends_same. Qed.

Lemma Extends_trans (t1 t2 t3 : Tokenizer) :
  Extends t1 t2 -> Extends t2 t3 -> Extends t1 t3.
Proof.
  intros [Hi Hc Hn He Hw [ds Ha] Hf] [Hi' Hc' Hn' He' Hw' [ds' Ha'] Hf'].
  constructor; try congruence.
  - exists (ds ++ ds'). rewrite Ha', Ha. now rewrite app_assoc.
  - intros r Hr. rewrite Hf' by congruence. now apply Hf.
Qed.

Lemma Extends_set_pos t p : Extends t (set_pos t p).
Proof. now apply Extends_same. Qed.

Lemma Extends_set_row t r : Extends t (set_row t r).
Proof. now apply Extends_same. Qed.

Lemma Extends_set_col t c : Extends t (set_col t c).
Proof. now apply Extends_same. Qed.

Lemma Extends_advance t n : Extends t (advance t n).
Proof. now apply Extends_same. Qed.

Lemma errorsOf_error t d s e :
  errorsOf (error t d s e) = errorsOf t ++ [Diagnostic.mk d s e].
Proof. unfold errorsOf, error, deref. simpl. now rewrite Nat.eqb_refl. Qed.

Lemma Extends_error t d s e : Extends t (error t d s e).
Proof.
  constructor; try reflexivity.
  - eexists. apply errorsOf_error.
  - intros r Hr. unfold deref, error. simpl.
    destruct (Nat.eqb_spec r (errors t)); [contradiction|reflexivity].
Qed.

Lemma Extends_error0 t d : Extends t (error0 t d).
Proof. apply Extends_error. Qed.

#[local] Hint Resolve Extends_refl Extends_set_pos Extends_set_row
  Extends_set_col Extends_advance Extends_error Extends_error0 : ext.

Ltac ext_chain :=
  repeat match goal with
  | |- Extends ?t ?t => apply Extends_refl
  | |- Extends ?t (set_pos ?u _) => apply (Extends_trans t u); [|apply Extends_set_pos]
  | |- Extends ?t (set_row ?u _) => apply (Extends_trans t u); [|apply Extends_set_row]
  | |- Extends ?t (set_col ?u _) => apply (Extends_trans t u); [|apply Extends_set_col]
  | |- Extends ?t (advance ?u _) => apply (Extends_trans t u); [|apply Extends_advance]
  | |- Extends ?t (error0 ?u _) => apply (Extends_trans t u); [|apply Extends_error0]
  | |- Extends ?t (error ?u _ _ _) => apply (Extends_trans t u); [|apply Extends_error]
  | |- Extends ?t (if ?b then _ else _) => destruct b
  | H : Extends ?t ?u |- Extends ?t ?u => exact H
  end.

Lemma Extends_warnings (t t' : Tokenizer) :
  Extends t t' -> errors t <> warnings t -> warningsOf t' = warningsOf t.
Proof.
  intros E Hne. unfold warningsOf. rewrite (ext_warnings _ _ E).
  apply (ext_frame _ _ E). congruence.
Qed.

(** ** Tokens by kind *)

Lemma TokenShape_Token3 inp ty s e :
  valueless ty = true -> TokenShape inp (Token3 ty s e).
Proof.
  intros V. unfold TokenShape, Token3. cbn. rewrite V.
  repeat split; try discriminate; try congruence;
    match goal with H : ty = _ |- _ => subst ty; discriminate end.
Qed.

Lemma TokenShape_Token4 inp ty s e v :
  valueless ty = false -> ty <> String_ -> TokenShape inp (Token4 ty s e v).
Proof.
  intros V N. unfold TokenShape, Token4. cbn. rewrite V.
  repeat split; try discriminate; try congruence.
Qed.

Section ScannerProperties.

Variable LETTER_CHAR_CODES : Z -> bool.
Variable JAVA_WHITESPACE_CHAR_CODES : list Z.
Variable DECIMAL_DIGIT_CHAR_CODES : Z -> option Z.
Variable CONSTANTS : JS.str -> bool.
Variable pow10 : float -> float.
Variable bigIntTooBig : Z -> bool.
Variable callStackFrames : nat.

Local Abbreviation isWhitespace' := (isWhitespace JAVA_WHITESPACE_CHAR_CODES).
Local Abbreviation isDigit' := (isDigit DECIMAL_DIGIT_CHAR_CODES).
Local Abbreviation isLetter' := (isLetter LETTER_CHAR_CODES).
Local Abbreviation skipWhitespace' := (skipWhitespace JAVA_WHITESPACE_CHAR_CODES).
Local Abbreviation skipWhitespace_loop' := (skipWhitespace_loop JAVA_WHITESPACE_CHAR_CODES).
Local Abbreviation readNumber' :=
  (readNumber DECIMAL_DIGIT_CHAR_CODES pow10 bigIntTooBig).
Local Abbreviation readNumber_loop' := (readNumber_loop DECIMAL_DIGIT_CHAR_CODES).
Local Abbreviation readNumber_step' := (readNumber_step DECIMAL_DIGIT_CHAR_CODES).
Local Abbreviation readIdent' :=
  (readIdent LETTER_CHAR_CODES JAVA_WHITESPACE_CHAR_CODES
     DECIMAL_DIGIT_CHAR_CODES CONSTANTS).
Local Abbreviation readIdent_loop' :=
  (readIdent_loop LETTER_CHAR_CODES DECIMAL_DIGIT_CHAR_CODES).
Local Abbreviation isIdentPart' :=
  (isIdentPart LETTER_CHAR_CODES DECIMAL_DIGIT_CHAR_CODES).
Local Abbreviation nextToken_in' :=
  (nextToken_in LETTER_CHAR_CODES JAVA_WHITESPACE_CHAR_CODES
     DECIMAL_DIGIT_CHAR_CODES CONSTANTS pow10 bigIntTooBig).
Local Abbreviation nextToken' :=
  (nextToken LETTER_CHAR_CODES JAVA_WHITESPACE_CHAR_CODES
     DECIMAL_DIGIT_CHAR_CODES CONSTANTS pow10 bigIntTooBig callStackFrames).
Local Abbreviation tokens' :=
  (tokens LETTER_CHAR_CODES JAVA_WHITESPACE_CHAR_CODES
     DECIMAL_DIGIT_CHAR_CODES CONSTANTS pow10 bigIntTooBig callStackFrames).

(** *** skipWhitespace *)

Lemma skipWhitespace_body_fields t :
  input (skipWhitespace_body t) = input t
  /\ pos (skipWhitespace_body t) = pos t + 1
  /\ store (skipWhitespace_body t) = store t
  /\ errors (skipWhitespace_body t) = errors t
  /\ warnings (skipWhitespace_body t) = warnings t
  /\ allowComments (skipWhitespace_body t) = allowComments t
  /\ allowNewLineMarkers (skipWhitespace_body t) = allowNewLineMarkers t.
Proof.
  unfold skipWhitespace_body. destruct (charIs (getChar t) 10); cbn;
    repeat split.
Qed.

Lemma skipWhitespace_loop_fields n t :
  let t' := skipWhitespace_loop' n t in
  input t' = input t /\ store t' = store t /\ errors t' = errors t
  /\ warnings t' = warnings t /\ allowComments t' = allowComments t
  /\ allowNewLineMarkers t' = allowNewLineMarkers t /\ pos t <= pos t'.
Proof.
  revert t. induction n as [|n IH]; intros t; cbn.
  - destruct (negb (atEnd t) && isWhitespace' (getChar t)); repeat split; lia.
  - destruct (negb (atEnd t) && isWhitespace' (getChar t)); [|repeat split; lia].
    destruct (IH (skipWhitespace_body t)) as (H1 & H2 & H3 & H4 & H5 & H6 & H7).
    destruct (skipWhitespace_body_fields t) as (B1 & B2 & B3 & B4 & B5 & B6 & B7).
    repeat split; try congruence. lia.
Qed.

Lemma skipWhitespace_fields t :
  input (skipWhitespace' t) = input t /\ store (skipWhitespace' t) = store t
  /\ errors (skipWhitespace' t) = errors t
  /\ warnings (skipWhitespace' t) = warnings t
  /\ allowComments (skipWhitespace' t) = allowComments t
  /\ allowNewLineMarkers (skipWhitespace' t) = allowNewLineMarkers t
  /\ pos t <= pos (skipWhitespace' t).
Proof. apply skipWhitespace_loop_fields. Qed.

Lemma skipWhitespace_Extends t : Extends t (skipWhitespace' t).
Proof.
  destruct (skipWhitespace_fields t) as (H1 & H2 & H3 & H4 & H5 & H6 & _).
  now apply Extends_same.
Qed.

Lemma errorsOf_skipWhitespace t : errorsOf (skipWhitespace' t) = errorsOf t.
Proof.
  destruct (skipWhitespace_fields t) as (_ & H2 & H3 & _).
  unfold errorsOf. now rewrite H2, H3.
Qed.

(** The while loop of the source: the function is its own unfolding. *)
Lemma skipWhitespace_unfold t :
  skipWhitespace' t =
  if negb (atEnd t) && isWhitespace' (getChar t)
  then skipWhitespace' (skipWhitespace_body t) else t.
Proof.
  unfold skipWhitespace at 1.
  destruct (negb (atEnd t) && isWhitespace' (getChar t)) eqn:C.
  - apply andb_prop in C. destruct C as [C W].
    unfold atEnd in C. apply negb_true_iff, Z.leb_gt in C.
    destruct (skipWhitespace_body_fields t) as (B1 & B2 & _).
    unfold skipWhitespace. rewrite B1, B2.
    replace (Z.to_nat (JS.length (input t) - pos t))
      with (S (Z.to_nat (JS.length (input t) - (pos t + 1)))) by lia.
    cbn [skipWhitespace_loop].
    unfold atEnd. rewrite (proj2 (Z.leb_gt _ _)) by lia.
    cbn [negb andb]. now rewrite W.
  - destruct (Z.to_nat (JS.length (input t) - pos t)); cbn; now rewrite C.
Qed.

(** On any tables: a comment at the cursor, in an input that begins with
    [//] and has no line feed, is never read to its end. *)
Lemma nextToken_comment_without_newline fuel t rest :
  input t = 0x2f :: 0x2f :: rest ->
  ~ In 0x0a (input t) ->
  getChar (skipWhitespace' t) = Some 0x2f ->
  peekChar (skipWhitespace' t) = Some 0x2f ->
  nextToken' fuel t = OutOfFuel.
Proof.
  intros Hi Hn Hc Hp. destruct fuel as [|fuel]; [reflexivity|].
  unfold nextToken. cbn [nextToken_in].
  destruct (skipWhitespace_fields t) as (Hi0 & _).
  set (t0 := skipWhitespace' t) in *. clearbody t0.
  rewrite (getChar_Some_atEnd _ _ Hc), Hc, Hp.
  cbn [charIs Z.eqb Pos.eqb]. unfold readComment.
  rewrite (readComment_loop_diverges fuel _ [] rest); [reflexivity| |];
    destruct (allowComments t0); cbn [input error0 error set_store];
    rewrite Hi0; assumption.
Qed.


(** *** Operators *)

Lemma getOneCharToken_shape t ty tok t' :
  valueless ty = true -> getOneCharToken t ty = (tok, t') ->
  Extends t t' /\ TokenShape (input t) tok.
Proof.
  intros V E. injection E as <- <-. split; [auto with ext|].
  now apply TokenShape_Token3.
Qed.

Lemma getTwoCharToken_shape t ty tok t' :
  valueless ty = true -> getTwoCharToken t ty = (tok, t') ->
  Extends t t' /\ TokenShape (input t) tok.
Proof.
  intros V E. injection E as <- <-. split; [auto with ext|].
  now apply TokenShape_Token3.
Qed.

Lemma getBooleanOp_shape t ty ch tok t' :
  valueless ty = true -> getBooleanOp t ty ch = (tok, t') ->
  Extends t t' /\ TokenShape (input t) tok.
Proof.
  intros V E. injection E as <- <-. split; [|now apply TokenShape_Token3].
  ext_chain.
Qed.

Lemma readEllipsis_shape t tok t' :
  readEllipsis t = (tok, t') -> Extends t t' /\ TokenShape (input t) tok.
Proof.
  intros E. injection E as <- <-. split; [|now apply TokenShape_Token3].
  ext_chain.
Qed.

(** *** readString *)

Lemma charIs_true c k : charIs c k = true -> c = Some k.
Proof.
  destruct c as [z|]; cbn; [|discriminate].
  intros H. apply Z.eqb_eq in H. now subst.
Qed.

Lemma atEnd_true t : atEnd t = true -> JS.length (input t) <= pos t.
Proof. unfold atEnd. apply Z.leb_le. Qed.

Lemma atEnd_false t : atEnd t = false -> pos t < JS.length (input t).
Proof. unfold atEnd. apply Z.leb_gt. Qed.

(** The escape statement either returns the token of an input that ends
    with a backslash, or leaves the cursor on the backslash or one unit
    after it. *)
Lemma readString_escape_spec pos0 t c start value :
  c = getChar t ->
  match readString_escape pos0 t c start value with
  | Returned (tok, t') =>
      Extends t t' /\ StringToken (input t) pos0 tok
  | Going t1 c1 start1 value1 =>
      Extends t t1 /\ pos t <= pos t1 <= pos t + 1
  end.
Proof.
  intros Hc. unfold readString_escape.
  destruct (charIs c 0x5c) eqn:Ebs; [|split; [auto with ext|lia]].
  apply charIs_true in Ebs. subst c.
  destruct (atEnd (advance t 1)) eqn:Eend.
  - split; [ext_chain|].
    apply atEnd_true in Eend. cbn in Eend.
    pose proof (charCodeAt_Some _ _ _ Ebs) as Hin.
    unfold StringToken. cbn. repeat split; try discriminate; try lia.
    right. replace (JS.length (input t) - 1) with (pos t) by lia. exact Ebs.
  - repeat match goal with
      | |- context [if charIs ?x ?k then _ else _] => destruct (charIs x k)
      end; (split; [ext_chain|cbn; lia]).
Qed.

(** The rest of the body either returns at the end of the input, or
    continues one unit further, inside the input. *)
Lemma readString_tail_spec pos0 t c start value :
  match readString_tail pos0 t c start value with
  | Returned (tok, t') =>
      Extends t t' /\
      (Position.pos pos0 <= pos t -> StringToken (input t) pos0 tok)
  | Going t1 c1 start1 value1 =>
      Extends t t1 /\ pos t1 = pos t + 1 /\ c1 = getChar t1 /\ atEnd t1 = false
  end.
Proof.
  unfold readString_tail.
  set (t1 := if charIs c 10 then _ else _).
  assert (Extends t t1 /\ pos t1 = pos t + 1) as [E1 P1]
    by (subst t1; destruct (charIs c 10); split; try reflexivity; ext_chain).
  destruct (atEnd t1) eqn:Eend.
  - split; [ext_chain|]. intros Hp.
    apply atEnd_true in Eend. rewrite (ext_input _ _ E1) in Eend.
    unfold StringToken. cbn. repeat split; try discriminate; try lia.
    now left.
  - exact (conj E1 (conj P1 (conj eq_refl Eend))).
Qed.

Lemma StringToken_input inp inp' pos0 tok :
  inp' = inp -> StringToken inp pos0 tok -> StringToken inp' pos0 tok.
Proof. now intros ->. Qed.

Lemma readString_loop_spec n pos0 t c start value :
  c = getChar t ->
  Position.pos pos0 < pos t ->
  JS.length (input t) - pos t < Z.of_nat n ->
  Extends t (snd (readString_loop n pos0 t c start value))
  /\ StringToken (input t) pos0 (fst (readString_loop n pos0 t c start value)).
Proof.
  revert t c start value.
  induction n as [|n IH]; intros t c start value Hc Hp Hn.
  - cbn. destruct (charIs c 39) eqn:Eq.
    + apply charIs_true in Eq. subst c.
      apply charCodeAt_Some in Eq. lia.
    + cbn. split; [auto with ext|].
      unfold StringToken. cbn. repeat split; try discriminate; try lia.
      now left.
  - cbn [readString_loop]. destruct (charIs c 39) eqn:Eq.
    + cbn. split; [auto with ext|].
      apply charIs_true in Eq. subst c.
      unfold StringToken. cbn. repeat split; try discriminate; try lia.
      * eexists. reflexivity.
      * replace (pos t + 1 - 1) with (pos t) by lia. exact Eq.
    + unfold readString_body.
      pose proof (readString_escape_spec pos0 t c start value Hc) as He.
      destruct (readString_escape pos0 t c start value)
        as [[tok t']|t1 c1 start1 value1]; [exact He|].
      destruct He as [E1 P1].
      pose proof (readString_tail_spec pos0 t1 c1 start1 value1) as Ht.
      destruct (readString_tail pos0 t1 c1 start1 value1)
        as [[tok t']|t2 c2 start2 value2].
      * destruct Ht as [E2 S2]. cbn. split; [eapply Extends_trans; eauto|].
        eapply StringToken_input; [symmetry; apply (ext_input _ _ E1)|].
        apply S2. lia.
      * destruct Ht as (E2 & P2 & C2 & A2).
        assert (input t2 = input t) as Hi
          by (rewrite (ext_input _ _ E2); apply (ext_input _ _ E1)).
        destruct (IH t2 c2 start2 value2 C2) as [E3 S3]; [lia| |].
        { rewrite Hi. lia. }
        split; [eapply Extends_trans; [|exact E3]; eapply Extends_trans; eauto|].
        eapply StringToken_input; [symmetry; exact Hi|exact S3].
Qed.

Lemma readString_shape t tok t' :
  readString t = (tok, t') ->
  Extends t t' /\ StringToken (input t) (getPosition t) tok.
Proof.
  intros E. unfold readString in E.
  pose proof (readString_loop_spec
    (S (Z.to_nat (JS.length (input (advance t 1)) - pos (advance t 1))))
    (getPosition t) (advance t 1) (getChar (advance t 1))
    (pos (advance t 1)) [] eq_refl) as H.
  rewrite E in H. cbn [fst snd] in H.
  destruct H as [E1 S1].
  - cbn. lia.
  - cbn. lia.
  - split; [eapply Extends_trans; [apply Extends_advance|exact E1]|exact S1].
Qed.

Lemma readString_TokenShape t tok t' :
  readString t = (tok, t') -> Extends t t' /\ TokenShape (input t) tok.
Proof.
  intros E. destruct (readString_shape t tok t' E) as [Ex S].
  split; [exact Ex|].
  pose proof S as (K & St & Hok & Herr).
  unfold TokenShape. rewrite K. cbn.
  split; [discriminate|].
  split; [intros _ Hf; destruct (Hok Hf) as [[s Hs] _]; congruence|].
  split; [auto|].
  split; [intros [H|H]; discriminate|].
  intros _. rewrite St. exact S.
Qed.

(** *** readNumber *)

Lemma readHex_loop_Extends n t c iv : Extends t (fst (readHex_loop n t c iv)).
Proof.
  revert t c iv. induction n as [|n IH]; intros t c iv; cbn [readHex_loop].
  - destruct (getChar (advance t 1)); cbn [fst]; auto with ext.
  - destruct (getChar (advance t 1)) as [c'|]; cbn [fst]; auto with ext.
    destruct (negb (atEnd (advance t 1)) && isHexDigit (Some c'));
      cbn [fst]; auto with ext.
    eapply Extends_trans; [apply Extends_advance|apply IH].
Qed.

Lemma enterFraction_Extends start t iv :
  Extends t (fst (fst (enterFraction start t iv))).
Proof. unfold enterFraction. cbn. ext_chain. Qed.

Lemma readNumber_step_Extends start t l t' l' :
  readNumber_step' start t l = Some (t', l') -> Extends t t'.
Proof.
  unfold readNumber_step. destruct l as [c iv v e es dd iu ie].
  unfold enterFraction.
  repeat match goal with
    | |- (if ?b then _ else _) = _ -> _ => destruct b
    | |- match ?c with Some _ => _ | None => _ end = _ -> _ => destruct c
    end;
    intros H; try discriminate; injection H as <- <-; ext_chain.
Qed.

Lemma readNumber_loop_Extends n start t l :
  Extends t (fst (readNumber_loop' n start t l)).
Proof.
  revert t l. induction n as [|n IH]; intros t l; cbn.
  - destruct (atEnd t); cbn; auto with ext.
  - destruct (atEnd t); cbn; auto with ext.
    destruct (readNumber_step' start t l) as [[t1 l1]|] eqn:Es; cbn; auto with ext.
    apply readNumber_step_Extends in Es.
    eapply Extends_trans; [exact Es|].
    eapply Extends_trans; [apply Extends_advance|apply IH].
Qed.

Lemma TokenShape_number inp ty s e v (b : bool) :
  ty = Number \/ ty = HexNumber ->
  TokenShape inp (Token.mk ty s e (if b then None else Some v) b).
Proof.
  intros [-> | ->]; destruct b; unfold TokenShape; cbn;
    repeat split; try discriminate; auto.
Qed.

Lemma readNumber_shape t tok t' :
  readNumber' t = Ret (tok, t') -> Extends t t' /\ TokenShape (input t) tok.
Proof.
  unfold readNumber.
  destruct (charIs (getChar t) 48 && (lor20 (peekChar t) =? 120)).
  - set (t2 := set_pos t (pos t + 2)).
    assert (Extends t t2) as E2 by (subst t2; auto with ext).
    destruct (getChar t2) as [c'|].
    + destruct (isHexDigit (Some c')).
      * pose proof (readHex_loop_Extends
          (Z.to_nat (JS.length (input t2) - pos t2)) t2 c' 0) as Eh.
        destruct (readHex_loop _ t2 c' 0) as [t3 iv]. cbn in Eh.
        intros H. injection H as <- <-.
        split; [eapply Extends_trans; eauto|].
        apply (TokenShape_number _ HexNumber _ _ (BigIntV iv) false). now right.
      * intros H. injection H as <- <-.
        split; [eapply Extends_trans; [exact E2|apply Extends_error0]|].
        apply (TokenShape_number _ HexNumber _ _ (BigIntV 0) true). now right.
    + intros H. injection H as <- <-.
      split; [eapply Extends_trans; [exact E2|apply Extends_error0]|].
      apply (TokenShape_number _ HexNumber _ _ (BigIntV 0) true). now right.
  - match goal with
    | |- context [readNumber_loop' ?n ?s ?u ?l] =>
        pose proof (readNumber_loop_Extends n s u l) as El;
        destruct (readNumber_loop' n s u l) as [t3 l3]
    end.
    cbn in El. destruct (finalValue pow10 bigIntTooBig l3) as [fv| |]; cbn; try discriminate.
    intros H. injection H as <- <-. split; [exact El|].
    apply TokenShape_number. now left.
Qed.

(** *** readIdent *)

Lemma readIdent_loop_fields n t :
  let t' := readIdent_loop' n t in
  input t' = input t /\ store t' = store t /\ errors t' = errors t
  /\ warnings t' = warnings t /\ allowComments t' = allowComments t
  /\ allowNewLineMarkers t' = allowNewLineMarkers t /\ pos t <= pos t'.
Proof.
  revert t. induction n as [|n IH]; intros t; cbn.
  - destruct (negb (atEnd t) && isIdentPart' (getChar t)); repeat split; lia.
  - destruct (negb (atEnd t) && isIdentPart' (getChar t)); [|repeat split; lia].
    destruct (IH (advance t 1)) as (H1 & H2 & H3 & H4 & H5 & H6 & H7).
    cbn in *. repeat split; try congruence. lia.
Qed.

Lemma readIdent_loop_Extends n t : Extends t (readIdent_loop' n t).
Proof.
  destruct (readIdent_loop_fields n t) as (H1 & H2 & H3 & H4 & H5 & H6 & _).
  now apply Extends_same.
Qed.

Lemma readIdent_shape t tok t' :
  readIdent' t = (tok, t') -> Extends t t' /\ TokenShape (input t) tok.
Proof.
  unfold readIdent. intros H. injection H as <- <-. split.
  - eapply Extends_trans; [|apply skipWhitespace_Extends].
    eapply Extends_trans; [apply Extends_advance|apply readIdent_loop_Extends].
  - repeat match goal with
      | |- context [if ?b then _ else _] => destruct b
      end; apply TokenShape_Token4; (reflexivity || discriminate).
Qed.

(** *** readComment *)

Lemma readComment_loop_Extends fuel t value t' value' :
  readComment_loop fuel t value = Ret (t', value') -> Extends t t'.
Proof.
  revert t value. induction fuel as [|fuel IH]; intros t value; cbn;
    [discriminate|].
  match goal with
  | |- (if ?b then _ else _) = _ -> _ => destruct b
  end.
  - intros H. apply IH in H. eapply Extends_trans; [|exact H]. ext_chain.
  - intros H. injection H as <- <-. ext_chain.
Qed.

Lemma readComment_shape fuel t tok t' :
  readComment fuel t = Ret (tok, t') -> Extends t t' /\ TokenShape (input t) tok.
Proof.
  unfold readComment.
  set (t1 := if allowComments t then t else error0 t UnexpectedComment).
  assert (Extends t t1) as E1 by (subst t1; ext_chain).
  destruct (readComment_loop fuel t1 []) as [[t2 value]| |] eqn:El; cbn;
    try discriminate.
  intros H. injection H as <- <-.
  apply readComment_loop_Extends in El. split.
  - eapply Extends_trans; [exact E1|].
    eapply Extends_trans; [exact El|apply Extends_set_col].
  - apply TokenShape_Token4; (reflexivity || discriminate).
Qed.

(** *** nextToken *)

Lemma Shaped_intro t p :
  (forall tok t', p = (tok, t') -> Extends t t' /\ TokenShape (input t) tok) ->
  Shaped t p.
Proof. intros H. destruct p as [tok t']. apply (H tok t' eq_refl). Qed.

Lemma Shaped_getOneCharToken t ty :
  valueless ty = true -> Shaped t (getOneCharToken t ty).
Proof. intros V. apply Shaped_intro. intros. eapply getOneCharToken_shape; eauto. Qed.

Lemma Shaped_getTwoCharToken t ty :
  valueless ty = true -> Shaped t (getTwoCharToken t ty).
Proof. intros V. apply Shaped_intro. intros. eapply getTwoCharToken_shape; eauto. Qed.

Lemma Shaped_getBooleanOp t ty ch :
  valueless ty = true -> Shaped t (getBooleanOp t ty ch).
Proof. intros V. apply Shaped_intro. intros. eapply getBooleanOp_shape; eauto. Qed.

Lemma Shaped_readEllipsis t : Shaped t (readEllipsis t).
Proof. apply Shaped_intro. apply readEllipsis_shape. Qed.

Lemma Shaped_readString t : Shaped t (readString t).
Proof. apply Shaped_intro. apply readString_TokenShape. Qed.

Lemma Shaped_readIdent t : Shaped t (readIdent' t).
Proof. apply Shaped_intro. apply readIdent_shape. Qed.

Lemma Shaped_error0 t d p : Shaped (error0 t d) p -> Shaped t p.
Proof.
  intros [E S]. split; [|exact S].
  eapply Extends_trans; [apply Extends_error0|exact E].
Qed.

Lemma Scanned_token t0 p r t' :
  Shaped t0 p -> token p = Ret (r, t') -> Scanned t0 r t'.
Proof.
  intros [E S] H. unfold token in H. injection H as <- <-.
  split; [exact E|]. intros tok Ht. injection Ht as <-. exact S.
Qed.

Lemma Scanned_bind t0 (m : Outcome (Token.t * Tokenizer)) r t' :
  (forall tok t1, m = Ret (tok, t1) -> Extends t0 t1 /\ TokenShape (input t0) tok) ->
  bind m token = Ret (r, t') -> Scanned t0 r t'.
Proof.
  intros Hm H. destruct m as [[tok t1]| |]; cbn in H; try discriminate.
  eapply Scanned_token; [|exact H]. apply (Hm tok t1 eq_refl).
Qed.

Lemma Scanned_skip t t0 r t' :
  Extends t t0 -> input t0 = input t -> Scanned t0 r t' -> Scanned t r t'.
Proof.
  intros E Hi [E' S]. split; [eapply Extends_trans; eauto|].
  intros tok Ht. rewrite <- Hi. now apply S.
Qed.

Lemma nextToken_in_Scanned frames fuel t r t' :
  nextToken_in' frames fuel t = Ret (r, t') -> Scanned t r t'.
Proof.
  revert frames t r t'. induction fuel as [|fuel IH]; intros frames t r t' H;
    [discriminate|].
  cbn [nextToken_in] in H.
  apply (Scanned_skip t (skipWhitespace' t));
    [apply skipWhitespace_Extends|apply skipWhitespace_fields|].
  set (t0 := skipWhitespace' t) in *. clearbody t0.
  repeat match type of H with
    | (if ?b then _ else _) = _ => destruct b
    | context [if allowNewLineMarkers ?u then _ else _] =>
        destruct (allowNewLineMarkers u)
    end;
  try (refine (Scanned_token _ _ _ _ _ H);
       first [ apply Shaped_getOneCharToken; reflexivity
             | apply Shaped_getTwoCharToken; reflexivity
             | apply Shaped_getBooleanOp; reflexivity
             | apply Shaped_readEllipsis
             | apply Shaped_readString
             | apply Shaped_readIdent
             | eapply Shaped_error0; apply Shaped_getOneCharToken; reflexivity ]).
  - injection H as <- <-. split; [apply Extends_refl|discriminate].
  - eapply Scanned_bind; [|exact H]. apply readComment_shape.
  - eapply Scanned_bind; [|exact H]. apply readNumber_shape.
  - destruct frames as [|frames]; [discriminate|].
    apply IH in H. eapply Scanned_skip; [| |exact H]; [ext_chain|reflexivity].
Qed.

Lemma nextToken_Scanned fuel t r t' :
  nextToken' fuel t = Ret (r, t') -> Scanned t r t'.
Proof. apply nextToken_in_Scanned. Qed.

Lemma tokens_Extends k fuel t l t' :
  tokens' k fuel t = Ret (l, t') -> Extends t t'.
Proof.
  revert t l t'. induction k as [|k IH]; intros t l t'; cbn [tokens].
  - intros H. injection H as <- <-. apply Extends_refl.
  - destruct (nextToken' fuel t) as [[r t1]| |] eqn:E1; cbn; try discriminate.
    apply nextToken_Scanned in E1. destruct E1 as [E1 _].
    destruct r as [tok|].
    + destruct (tokens' k fuel t1) as [[l2 t2]| |] eqn:E2; cbn; try discriminate.
      intros H. injection H as <- <-. apply IH in E2.
      eapply Extends_trans; eauto.
    + intros H. injection H as <- <-. exact E1.
Qed.

(** C10 (as amended).  When the errors array and the warnings array are
    two different arrays, a [nextToken] call that returns, and any sequence
    of such calls, leaves the warnings array as it was and changes the
    errors array only by appending to it; the tokenizer keeps both
    references. *)
Theorem warnings_unchanged_when_not_aliased :
  forall t, errors t <> warnings t ->
    (forall fuel r t', nextToken' fuel t = Ret (r, t') ->
       warningsOf t' = warningsOf t
       /\ (exists ds, errorsOf t' = errorsOf t ++ ds)
       /\ errors t' = errors t /\ warnings t' = warnings t)
    /\ (forall k fuel l t', tokens' k fuel t = Ret (l, t') ->
       warningsOf t' = warningsOf t
       /\ (exists ds, errorsOf t' = errorsOf t ++ ds)
       /\ errors t' = errors t /\ warnings t' = warnings t).
Proof.
  intros t Hne.
  assert (forall t', Extends t t' ->
    warningsOf t' = warningsOf t
    /\ (exists ds, errorsOf t' = errorsOf t ++ ds)
    /\ errors t' = errors t /\ warnings t' = warnings t) as Hext.
  { intros t' E. split; [now apply Extends_warnings|].
    split; [apply (ext_appended _ _ E)|].
    split; [apply (ext_errors _ _ E)|apply (ext_warnings _ _ E)]. }
  split.
  - intros fuel r t' H. apply Hext. apply nextToken_Scanned in H. apply H.
  - intros k fuel l t' H. apply Hext. now apply tokens_Extends in H.
Qed.

(** X29.  Every token that [nextToken] returns obeys [ValueErrorLaw].  A
    punctuation or operator token has neither a value nor the error flag;
    only a Number, HexNumber or String token can have the flag; a Number or
    HexNumber token has no value exactly when it has the flag; a token of
    any kind that carries a value has one when the flag is clear.  A String
    token with the flag clear ends right after a closing quote that is not
    the opening one; a String token with the flag ends at the end of the
    input or beyond it, and has no value unless the last unit of the input
    is a backslash. *)
Theorem token_value_error_law :
  forall fuel t tok t',
    nextToken' fuel t = Ret (Some tok, t') -> ValueErrorLaw (input t) tok.
Proof.
  intros fuel t tok t' H. apply nextToken_Scanned in H.
  destruct H as [_ S]. specialize (S tok eq_refl).
  destruct S as (S1 & S2 & S3 & S4 & S5).
  unfold ValueErrorLaw.
  split.
  { intros Hv. destruct (valueless (Token.kind tok)) eqn:V; [now right|left].
    destruct (Token.hasError tok) eqn:Eh; [reflexivity|].
    exfalso. now apply (S2 eq_refl eq_refl). }
  split; [exact S1|].
  split; [exact S3|].
  split.
  { intros K. split; [|now apply S4].
    intros Hv. destruct (Token.hasError tok) eqn:Eh; [reflexivity|].
    exfalso. apply (S2 ltac:(destruct K as [-> | ->]; reflexivity) eq_refl Hv). }
  split.
  { intros V Hf. now apply S2. }
  intros K. specialize (S5 K). destruct S5 as (_ & _ & Hok & Herr).
  split; [exact Hok|exact Herr].
Qed.

(** *** The boolean operators *)

Lemma charIs_false c k : c <> Some k -> charIs c k = false.
Proof.
  destruct c as [z|]; cbn; [|reflexivity].
  intros H. apply Z.eqb_neq. congruence.
Qed.

Lemma errorsOf_error0 t d :
  errorsOf (error0 t d)
  = errorsOf t ++ [Diagnostic.mk d (getPosition t) (getPosition t)].
Proof. apply errorsOf_error. Qed.

(** C5 (as amended).  When [nextToken] reads a [&] (or [|]) whose next
    character is not another [&] (or [|]), it records exactly one
    UnknownOperator diagnostic, at the operator, and returns an And (or
    Or) token that covers the operator alone: the cursor has advanced by
    one code unit. *)
Theorem boolean_op_mismatch :
  forall fuel t op,
    op = 0x26 \/ op = 0x7c ->
    getChar (skipWhitespace' t) = Some op ->
    peekChar (skipWhitespace' t) <> Some op ->
    exists tok t',
      nextToken' (S fuel) t = Ret (Some tok, t')
      /\ Token.kind tok = (if op =? 0x26 then And else Or)
      /\ Token.start tok = getPosition (skipWhitespace' t)
      /\ Position.pos (Token.end_ tok) = pos (skipWhitespace' t) + 1
      /\ Token.value tok = None
      /\ Token.hasError tok = false
      /\ errorsOf t' =
         errorsOf t ++ [Diagnostic.mk UnknownOperator
                          (getPosition (skipWhitespace' t))
                          (getPosition (skipWhitespace' t))]
      /\ pos t' = pos (skipWhitespace' t) + 1.
Proof.
  intros fuel t op Hop Hc Hp.
  unfold nextToken. cbn [nextToken_in].
  rewrite <- (errorsOf_skipWhitespace t).
  set (t0 := skipWhitespace' t) in *. clearbody t0.
  rewrite (getChar_Some_atEnd _ _ Hc), Hc.
  apply charIs_false in Hp.
  destruct Hop as [-> | ->]; cbn [charIs Z.eqb Pos.eqb];
    unfold getBooleanOp, token; rewrite Hp; cbn [negb fst snd];
    eexists; eexists; (split; [reflexivity|]); cbn;
    repeat split; try reflexivity; apply errorsOf_error0.
Qed.

(** *** Hexadecimal literals *)

Lemma advance_advance t a b : advance (advance t a) b = advance t (a + b).
Proof.
  unfold advance, set_col, set_pos. cbn. f_equal; lia.
Qed.

Lemma advance_eq t a b : a = b -> advance t a = advance t b.
Proof. now intros ->. Qed.

Lemma ldiff_lor_self c k : Z.ldiff c (Z.lor c k) = 0.
Proof.
  apply Z.bits_inj'. intros n Hn.
  rewrite Z.ldiff_spec, Z.lor_spec, Z.bits_0.
  destruct (Z.testbit c n), (Z.testbit k n); reflexivity.
Qed.

Lemma isHexDigit_range c : isHexDigit (Some c) = true -> 0 <= c <= 102.
Proof.
  unfold isHexDigit. intros H. apply orb_prop in H. destruct H as [H|H];
    apply andb_prop in H; destruct H as [H1 H2];
    apply Z.leb_le in H1; apply Z.leb_le in H2; [lia|].
  assert (0 <= c <= Z.lor c 32) as Hb
    by (apply Z.ldiff_le; [lia|apply ldiff_lor_self]).
  lia.
Qed.

Lemma hexCheck_table : forallb hexCheck (map Z.of_nat (seq 0 103)) = true.
Proof. vm_compute. reflexivity. Qed.

(** The bit trick of the source computes the digit value, and
    [isHexDigit] holds of the twenty-two hexadecimal digits only. *)
Lemma hexDigitValue_spec c :
  isHexDigit (Some c) = true ->
  hexDigitValue c = hexVal c /\ 0 <= hexVal c < 16
  /\ (0x30 <= c <= 0x39 \/ 0x41 <= c <= 0x46 \/ 0x61 <= c <= 0x66).
Proof.
  intros H. pose proof (isHexDigit_range c H) as R.
  pose proof hexCheck_table as T. rewrite forallb_forall in T.
  specialize (T c). unfold hexCheck in T. rewrite H in T. cbn [implb] in T.
  assert (In c (map Z.of_nat (seq 0 103))) as HIn.
  { apply in_map_iff. exists (Z.to_nat c). split; [lia|].
    apply in_seq. lia. }
  specialize (T HIn).
  repeat (apply andb_prop in T; destruct T as [T ?]).
  repeat match goal with
    | H : (_ =? _) = true |- _ => apply Z.eqb_eq in H
    | H : (_ <=? _) = true |- _ => apply Z.leb_le in H
    | H : (_ <? _) = true |- _ => apply Z.ltb_lt in H
    end.
  split; [assumption|]. split; [lia|].
  repeat match goal with
    | H : (_ || _) = true |- _ => apply orb_prop in H; destruct H as [H|H]
    | H : (_ && _) = true |- _ => apply andb_prop in H; destruct H as [? ?]
    | H : (_ <=? _) = true |- _ => apply Z.leb_le in H
    end; lia.
Qed.

Lemma lor_shiftl_4 a d : 0 <= d < 16 -> Z.lor (Z.shiftl a 4) d = a * 16 + d.
Proof.
  intros Hd.
  assert (Z.land (Z.shiftl a 4) d = 0) as Hl.
  { apply Z.bits_inj'. intros n Hn. rewrite Z.land_spec, Z.bits_0.
    destruct (Z.ltb_spec n 4) as [Hlt|Hge].
    - rewrite Z.shiftl_spec_low by lia. reflexivity.
    - rewrite (Z.bits_above_log2 d n); [apply andb_false_r|lia|].
      destruct (Z.eq_dec d 0) as [->|Hnz]; [cbn; lia|].
      apply Z.log2_lt_pow2; [lia|].
      apply Z.lt_le_trans with (2 ^ 4); [cbn; lia|].
      apply Z.pow_le_mono_r; lia. }
  rewrite <- Z.lxor_lor by exact Hl.
  rewrite <- Z.add_nocarry_lxor by exact Hl.
  rewrite Z.shiftl_mul_pow2 by lia. reflexivity.
Qed.

Lemma hexStep_fold ds iv :
  Forall (fun c => isHexDigit (Some c) = true) ds ->
  fold_left hexStep ds iv
  = iv * 16 ^ Z.of_nat (List.length ds) + positional 16 (map hexVal ds).
Proof.
  revert iv. induction ds as [|d ds IH]; intros iv H; cbn [fold_left].
  - cbn. lia.
  - inversion H as [|? ? Hd Hds]; subst.
    rewrite IH by exact Hds.
    destruct (hexDigitValue_spec d Hd) as (Hv & Hr & _).
    unfold hexStep. rewrite Hv, lor_shiftl_4 by exact Hr.
    cbn [map positional List.length]. rewrite length_map.
    rewrite Nat2Z.inj_succ, Z.pow_succ_r by lia. ring.
Qed.

Lemma readHex_loop_run ds :
  forall n t pre c rest iv,
    At t pre (c :: ds ++ rest) ->
    Forall (fun c => isHexDigit (Some c) = true) ds ->
    isHexDigit (hd_error rest) = false ->
    (List.length (ds ++ rest) <= n)%nat ->
    readHex_loop n t c iv
    = (advance t (1 + JS.length ds), fold_left hexStep (c :: ds) iv).
Proof.
  induction ds as [|d ds IH]; intros n t pre c rest iv HAt Hds Hrest Hn.
  - apply At_advance in HAt. cbn [app] in HAt.
    destruct n as [|n]; cbn [readHex_loop]; [reflexivity|].
    rewrite (At_getChar _ _ _ HAt).
    destruct rest as [|c' rest']; [reflexivity|].
    cbn [hd_error] in *. rewrite Hrest, andb_false_r. reflexivity.
  - apply At_advance in HAt. cbn [app] in HAt.
    inversion Hds as [|? ? Hd Hds']; subst.
    destruct n as [|n]; [cbn in Hn; lia|].
    cbn [readHex_loop]. rewrite (At_getChar _ _ _ HAt). cbn [hd_error].
    rewrite (At_atEnd_cons _ _ _ _ HAt), Hd. cbn [negb andb].
    rewrite (IH n _ _ d rest _ HAt Hds' Hrest) by (cbn in Hn; lia).
    rewrite advance_advance. f_equal.
    apply advance_eq. rewrite length_cons. lia.
Qed.

(** *** Dispatch past the switch *)

Lemma nextToken_in_default frames fuel t c :
  getChar (skipWhitespace' t) = Some c ->
  inSwitch c = false ->
  nextToken_in' frames (S fuel) t =
  if isDigit' (Some c) then bind (readNumber' (skipWhitespace' t)) token
  else if charIs (Some c) 0x5f || isLetter' (Some c)
       then token (readIdent' (skipWhitespace' t))
       else match frames with
            | O => Throw RangeError
            | S frames' =>
                nextToken_in' frames' fuel
                  (advance (error0 (skipWhitespace' t) UnexpectedToken) 1)
            end.
Proof.
  intros Hc Hs. cbn [nextToken_in].
  set (t0 := skipWhitespace' t) in *. clearbody t0.
  rewrite (getChar_Some_atEnd _ _ Hc), Hc.
  unfold inSwitch, switchCases in Hs. cbn [existsb] in Hs.
  repeat (apply orb_false_elim in Hs; destruct Hs as [? Hs]).
  cbn [charIs].
  repeat match goal with
    | H : (c =? ?k) = false |- _ => rewrite H; clear H
    end.
  reflexivity.
Qed.

Lemma nextToken_default fuel t c :
  getChar (skipWhitespace' t) = Some c ->
  inSwitch c = false ->
  nextToken' (S fuel) t =
  if isDigit' (Some c) then bind (readNumber' (skipWhitespace' t)) token
  else if charIs (Some c) 0x5f || isLetter' (Some c)
       then token (readIdent' (skipWhitespace' t))
       else match callStackFrames with
            | O => Throw RangeError
            | S frames =>
                nextToken_in' frames fuel
                  (advance (error0 (skipWhitespace' t) UnexpectedToken) 1)
            end.
Proof. apply nextToken_in_default. Qed.

(** C6.  A literal [0x] or [0X] followed by one or more hexadecimal digits
    [ds], and then by the end of the input or a unit that is no hex digit,
    yields a HexNumber token with the positional base-16 value of [ds] and
    the error flag clear, and records nothing; with no hex digit after the
    prefix it yields a HexNumber token with no value and the flag set, and
    records exactly one ExpectedHexDigit diagnostic. *)
Theorem hex_literal :
  forall fuel t pre x ds rest,
    DECIMAL_DIGIT_CHAR_CODES 0x30 <> None ->
    At (skipWhitespace' t) pre (0x30 :: x :: ds ++ rest) ->
    x = 0x78 \/ x = 0x58 ->
    Forall (fun c => isHexDigit (Some c) = true) ds ->
    isHexDigit (hd_error rest) = false ->
    exists tok t',
      nextToken' (S fuel) t = Ret (Some tok, t')
      /\ Token.kind tok = HexNumber
      /\ Token.start tok = getPosition (skipWhitespace' t)
      /\ Position.pos (Token.end_ tok) = JS.length pre + 2 + JS.length ds
      /\ pos t' = JS.length pre + 2 + JS.length ds
      /\ (ds <> [] ->
          Token.value tok = Some (BigIntV (positional 16 (map hexVal ds)))
          /\ Token.hasError tok = false
          /\ errorsOf t' = errorsOf t)
      /\ (ds = [] ->
          Token.value tok = None
          /\ Token.hasError tok = true
          /\ exists p, errorsOf t' = errorsOf t ++ [Diagnostic.mk ExpectedHexDigit p p]).
Proof.
  intros fuel t pre x ds rest H0 HAt Hx Hds Hrest.
  rewrite (nextToken_default fuel t 0x30);
    [|rewrite (At_getChar _ _ _ HAt); reflexivity|reflexivity].
  rewrite <- (errorsOf_skipWhitespace t).
  set (t0 := skipWhitespace' t) in *. clearbody t0.
  assert (isDigit' (Some 48) = true) as Hd
    by (cbn; destruct (DECIMAL_DIGIT_CHAR_CODES 48); congruence).
  rewrite Hd. unfold readNumber.
  rewrite (At_getChar _ _ _ HAt), (At_peekChar _ _ _ _ HAt).
  assert ((lor20 (Some x) =? 120) = true) as Hl
    by (destruct Hx as [-> | ->]; reflexivity).
  cbn [hd_error charIs]. rewrite Hl. cbn [Z.eqb Pos.eqb andb].
  set (t2 := set_pos t0 (pos t0 + 2)).
  assert (At t2 (pre ++ [0x30; x]) (ds ++ rest)) as HAt2.
  { destruct HAt as [Hi Hp]. split; cbn.
    - rewrite Hi, <- app_assoc. reflexivity.
    - rewrite Hp, length_app, !length_cons. cbn. lia. }
  assert (pos t0 = JS.length pre) as Hp0 by apply HAt.
  rewrite (At_getChar _ _ _ HAt2).
  destruct ds as [|d ds].
  - cbn [app].
    destruct rest as [|c' rest']; cbn [hd_error] in *; [|rewrite Hrest];
      cbn [bind token fst snd];
      (eexists; eexists; split; [reflexivity|]);
      cbn -[errorsOf JS.length Z.add]; rewrite Hp0;
      change (JS.length []) with 0;
      (split; [reflexivity|]); (split; [reflexivity|]);
      (split; [lia|]); (split; [lia|]); (split; [congruence|]);
      intros _; (split; [reflexivity|]); (split; [reflexivity|]);
      eexists; exact (errorsOf_error0 t2 ExpectedHexDigit).
  - inversion Hds as [|? ? Hd1 Hds1]; subst.
    cbn [app hd_error]. rewrite Hd1.
    rewrite (At_remaining _ _ _ HAt2).
    rewrite (readHex_loop_run ds _ t2 _ d rest 0 HAt2 Hds1 Hrest)
      by (cbn; lia).
    cbn [bind token fst snd].
    eexists. eexists. split; [reflexivity|].
    cbn -[errorsOf positional hexVal fold_left Z.add JS.length].
    rewrite Hp0, !length_cons.
    split; [reflexivity|]. split; [reflexivity|].
    split; [lia|]. split; [lia|]. split; [|congruence].
    intros _. split; [|split; reflexivity].
    change (fold_left hexStep ds (hexStep 0 d))
      with (fold_left hexStep (d :: ds) 0).
    rewrite hexStep_fold by exact Hds. reflexivity.
Qed.

(** *** Identifiers *)

Lemma At_fields t t' pre rest :
  input t' = input t -> pos t' = pos t -> At t pre rest -> At t' pre rest.
Proof. intros Hi Hp [H1 H2]. split; congruence. Qed.

Lemma At_skipWhitespace_body t pre c rest :
  At t pre (c :: rest) -> At (skipWhitespace_body t) (pre ++ [c]) rest.
Proof.
  intros H. apply At_advance in H.
  destruct (skipWhitespace_body_fields t) as (B1 & B2 & _).
  eapply At_fields; [| |exact H]; cbn; congruence.
Qed.

Lemma skipWhitespace_loop_run ws :
  forall n t pre rest,
    At t pre (ws ++ rest) ->
    Forall (fun c => isWhitespace' (Some c) = true) ws ->
    isWhitespace' (hd_error rest) = false ->
    (List.length ws <= n)%nat ->
    At (skipWhitespace_loop' n t) (pre ++ ws) rest.
Proof.
  induction ws as [|w ws IH]; intros n t pre rest HAt Hws Hrest Hn.
  - cbn [app] in HAt. rewrite app_nil_r.
    destruct n; cbn [skipWhitespace_loop];
      rewrite (At_getChar _ _ _ HAt), Hrest, andb_false_r; exact HAt.
  - inversion Hws as [|? ? Hw Hws']; subst.
    destruct n as [|n]; [cbn in Hn; lia|].
    cbn [skipWhitespace_loop]. cbn [app] in HAt.
    rewrite (At_atEnd_cons _ _ _ _ HAt), (At_getChar _ _ _ HAt).
    cbn [hd_error negb andb]. rewrite Hw.
    replace (pre ++ w :: ws) with ((pre ++ [w]) ++ ws)
      by (rewrite <- app_assoc; reflexivity).
    apply IH; auto; [|cbn in Hn; lia].
    now apply At_skipWhitespace_body.
Qed.

Lemma skipWhitespace_run t pre ws rest :
  At t pre (ws ++ rest) ->
  Forall (fun c => isWhitespace' (Some c) = true) ws ->
  isWhitespace' (hd_error rest) = false ->
  At (skipWhitespace' t) (pre ++ ws) rest.
Proof.
  intros HAt Hws Hrest. unfold skipWhitespace.
  apply skipWhitespace_loop_run; auto.
  rewrite (At_remaining _ _ _ HAt), List.length_app. lia.
Qed.

Lemma readIdent_loop_run run :
  forall n t pre rest,
    At t pre (run ++ rest) ->
    Forall (fun c => isIdentPart' (Some c) = true) run ->
    isIdentPart' (hd_error rest) = false ->
    (List.length run <= n)%nat ->
    At (readIdent_loop' n t) (pre ++ run) rest.
Proof.
  induction run as [|c run IH]; intros n t pre rest HAt Hrun Hrest Hn.
  - cbn [app] in HAt. rewrite app_nil_r.
    destruct n; cbn [readIdent_loop];
      rewrite (At_getChar _ _ _ HAt), Hrest, andb_false_r; exact HAt.
  - inversion Hrun as [|? ? Hc Hrun']; subst.
    destruct n as [|n]; [cbn in Hn; lia|].
    cbn [readIdent_loop]. cbn [app] in HAt.
    rewrite (At_atEnd_cons _ _ _ _ HAt), (At_getChar _ _ _ HAt).
    cbn [hd_error negb andb]. rewrite Hc.
    replace (pre ++ c :: run) with ((pre ++ [c]) ++ run)
      by (rewrite <- app_assoc; reflexivity).
    apply IH; auto; [|cbn in Hn; lia].
    now apply At_advance.
Qed.

(** X28.  After an identifier start [c0] the tokenizer reads
    the maximal run of letters, underscores and digits, and skips the
    whitespace [ws] that follows.  The value of the token is the identifier
    text alone; its end position is the cursor after the skipped
    whitespace.  The token is a Function token exactly when the unit after
    the whitespace is an opening parenthesis, otherwise a Constant token
    exactly when the text is in the reserved-constant set, otherwise a
    Variable token. *)
Theorem identifier_token :
  forall fuel t pre c0 run ws rest,
    At (skipWhitespace' t) pre (c0 :: run ++ ws ++ rest) ->
    c0 = 0x5f \/ LETTER_CHAR_CODES c0 = true ->
    inSwitch c0 = false ->
    isDigit' (Some c0) = false ->
    Forall (fun c => isIdentPart' (Some c) = true) run ->
    isIdentPart' (hd_error (ws ++ rest)) = false ->
    Forall (fun c => isWhitespace' (Some c) = true) ws ->
    isWhitespace' (hd_error rest) = false ->
    exists tok t',
      nextToken' (S fuel) t = Ret (Some tok, t')
      /\ Token.kind tok =
         (if charIs (hd_error rest) 0x28 then Function_
          else if CONSTANTS (c0 :: run) then Constant else Variable_)
      /\ Token.value tok = Some (StringV (c0 :: run))
      /\ Token.hasError tok = false
      /\ Token.start tok = getPosition (skipWhitespace' t)
      /\ Position.pos (Token.end_ tok)
         = JS.length pre + 1 + JS.length run + JS.length ws
      /\ pos t' = JS.length pre + 1 + JS.length run + JS.length ws
      /\ errorsOf t' = errorsOf t.
Proof.
  intros fuel t pre c0 run ws rest HAt Hc0 Hsw Hnd Hrun Hmax Hws Hrest.
  rewrite (nextToken_default fuel t c0);
    [|rewrite (At_getChar _ _ _ HAt); reflexivity|exact Hsw].
  rewrite <- (errorsOf_skipWhitespace t).
  set (t0 := skipWhitespace' t) in *. clearbody t0.
  rewrite Hnd.
  assert (charIs (Some c0) 95 || isLetter' (Some c0) = true) as Hid.
  { destruct Hc0 as [-> | Hl]; [reflexivity|].
    cbn [isLetter]. rewrite Hl. apply orb_true_r. }
  rewrite Hid. unfold readIdent, token. cbn [fst snd].
  pose proof (At_advance _ _ _ _ HAt) as HAt1.
  set (n := Z.to_nat (JS.length (input (advance t0 1)) - pos (advance t0 1))).
  assert (List.length run <= n)%nat as Hn
    by (subst n; rewrite (At_remaining _ _ _ HAt1), List.length_app; lia).
  pose proof (readIdent_loop_run run n _ _ _ HAt1 Hrun Hmax Hn) as HAt2.
  set (t2 := readIdent_loop' n (advance t0 1)) in *.
  pose proof (skipWhitespace_run _ _ _ _ HAt2 Hws Hrest) as HAt3.
  assert (JS.slice (input t2) (Position.pos (getPosition t0)) (pos t2)
          = c0 :: run) as Hslice.
  { destruct HAt as [Hi0 Hp0]. destruct HAt2 as [Hi2 Hp2].
    rewrite Hi2, Hp2. cbn [getPosition Position.pos]. rewrite Hp0.
    rewrite <- !app_assoc. cbn [app].
    replace (pre ++ c0 :: run ++ ws ++ rest)
      with (pre ++ (c0 :: run) ++ (ws ++ rest)) by reflexivity.
    rewrite length_app, length_cons.
    replace (JS.length pre + (1 + JS.length run))
      with (JS.length pre + JS.length (c0 :: run))
      by (rewrite length_cons; reflexivity).
    apply slice_app. }
  rewrite Hslice, (At_getChar _ _ _ HAt3).
  eexists. eexists. split; [reflexivity|].
  cbn [Token.kind Token.value Token.hasError Token.start Token.end_ Token4
       getPosition Position.pos].
  destruct HAt3 as [_ Hp3]. rewrite Hp3, !length_app, length_cons.
  change (JS.length []) with 0.
  split; [reflexivity|]. split; [reflexivity|]. split; [reflexivity|].
  split; [reflexivity|]. split; [lia|]. split; [lia|].
  rewrite errorsOf_skipWhitespace.
  destruct (readIdent_loop_fields n (advance t0 1)) as (_ & Hst & Her & _).
  unfold errorsOf. subst t2. rewrite Hst, Her. reflexivity.
Qed.

(** *** Decimal literals with an exponent *)

Section Decimal.

(** The ASCII digits are in the decimal-digit map; [e] and [E] are not. *)
Hypothesis ascii_digits :
  forall c, isAsciiDigit c -> DECIMAL_DIGIT_CHAR_CODES c <> None.
Hypothesis e_not_digit :
  DECIMAL_DIGIT_CHAR_CODES 0x65 = None /\ DECIMAL_DIGIT_CHAR_CODES 0x45 = None.

Lemma isDigit_ascii c : isAsciiDigit c -> isDigit' (Some c) = true.
Proof.
  intros H. cbn. pose proof (ascii_digits c H).
  destruct (DECIMAL_DIGIT_CHAR_CODES c); congruence.
Qed.

Lemma truthy_zero : truthy 0%float = false.
Proof. reflexivity. Qed.

Lemma ascii_digit_cases c :
  isAsciiDigit c ->
  c = 48 \/ c = 49 \/ c = 50 \/ c = 51 \/ c = 52 \/ c = 53 \/ c = 54
  \/ c = 55 \/ c = 56 \/ c = 57.
Proof. unfold isAsciiDigit. lia. Qed.

Lemma ascii_digit_not_switch c : isAsciiDigit c -> inSwitch c = false.
Proof.
  intros H. apply ascii_digit_cases in H.
  repeat (destruct H as [-> | H]; [reflexivity|]). now subst.
Qed.

Lemma ascii_digit_lor20 c : isAsciiDigit c -> (lor20 (Some c) =? 120) = false.
Proof.
  intros H. apply ascii_digit_cases in H.
  repeat (destruct H as [-> | H]; [reflexivity|]). now subst.
Qed.

(** One iteration on an ASCII digit, before or after the [e]. *)
Lemma readNumber_loop_digit n start t pre d rest iv v e es ie :
  At t pre (d :: rest) -> isAsciiDigit d ->
  readNumber_loop' (S n) start t (Num.mk (Some d) iv v e es 0%float false ie)
  = readNumber_loop' n start (advance t 1)
      (Num.mk (getChar (advance t 1))
         (if ie then iv else intStep iv d) v
         (if ie then expStep e d else e) es 0%float false ie).
Proof.
  intros HAt Hd. cbn [readNumber_loop].
  rewrite (At_atEnd_cons _ _ _ _ HAt).
  unfold readNumber_step. rewrite (isDigit_ascii d Hd).
  assert ((127 <? d) = false) as H127
    by (apply Z.ltb_ge; unfold isAsciiDigit in Hd; lia).
  rewrite H127, truthy_zero. destruct ie; reflexivity.
Qed.

Lemma NumResult_from t t1 pre rest iv e r :
  store t1 = store t -> errors t1 = errors t ->
  NumResult t1 pre rest iv e r -> NumResult t pre rest iv e r.
Proof.
  intros Hs He (H1 & H2 & H3 & H).
  split; [exact H1|]. split; [congruence|]. split; [congruence|exact H].
Qed.

(** The digits of the exponent, up to the unit that ends the literal. *)
Lemma readNumber_loop_exp ds :
  forall n start t pre rest iv v e es,
    At t pre (ds ++ rest) ->
    Forall isAsciiDigit ds ->
    isDigit' (hd_error rest) = false ->
    hd_error rest <> Some 0x2e ->
    (List.length ds <= n)%nat ->
    NumResult t (pre ++ ds) rest iv (fold_left expStep ds e)
      (readNumber_loop' n start t
         (Num.mk (getChar t) iv v e es 0%float false true)).
Proof.
  induction ds as [|d ds IH];
    intros n start t pre rest iv v e es HAt Hds Hrest Hdot Hn.
  - cbn [app] in HAt. rewrite app_nil_r. cbn [fold_left].
    assert (readNumber_loop' n start t
              (Num.mk (getChar t) iv v e es 0%float false true)
            = (t, Num.mk (getChar t) iv v e es 0%float false true)) as ->.
    { destruct n; cbn [readNumber_loop]; destruct (atEnd t); try reflexivity.
      unfold readNumber_step.
      rewrite (At_getChar _ _ _ HAt), Hrest, truthy_zero,
        (charIs_false _ _ Hdot).
      reflexivity. }
    repeat split; try reflexivity; apply HAt.
  - inversion Hds as [|? ? Hd Hds']; subst.
    destruct n as [|n]; [cbn in Hn; lia|].
    cbn [app] in HAt. rewrite (At_getChar _ _ _ HAt). cbn [hd_error].
    rewrite (readNumber_loop_digit n start t pre d _ iv v e es true HAt Hd).
    apply At_advance in HAt.
    replace (pre ++ d :: ds) with ((pre ++ [d]) ++ ds)
      by (rewrite <- app_assoc; reflexivity).
    eapply NumResult_from; [| |apply IH]; auto; try reflexivity.
    cbn in Hn; lia.
Qed.

(** The [e], an optional [+], and the exponent. *)
Lemma readNumber_loop_e n start t pre x plus ds rest iv v es :
  At t pre (x :: plus ++ ds ++ rest) ->
  x = 0x65 \/ x = 0x45 ->
  plus = [] \/ plus = [0x2b] ->
  ds <> [] -> Forall isAsciiDigit ds ->
  isDigit' (hd_error rest) = false ->
  hd_error rest <> Some 0x2e ->
  (List.length (x :: plus ++ ds) <= n)%nat ->
  NumResult t (pre ++ x :: plus ++ ds) rest iv (fold_left expStep ds (Finite 0))
    (readNumber_loop' n start t
       (Num.mk (Some x) iv v (Finite 0) es 0%float false false)).
Proof.
  intros HAt Hx Hplus Hne Hds Hrest Hdot Hn.
  destruct n as [|n]; [cbn in Hn; lia|].
  cbn [readNumber_loop]. rewrite (At_atEnd_cons _ _ _ _ HAt).
  assert (isDigit' (Some x) = false) as Hxd
    by (destruct e_not_digit as [H1 H2]; destruct Hx as [-> | ->]; cbn;
        [rewrite H1|rewrite H2]; reflexivity).
  assert (charIs (Some x) 46 = false) as Hx46
    by (destruct Hx as [-> | ->]; reflexivity).
  assert ((lor20 (Some x) =? 101) = true) as Hxe
    by (destruct Hx as [-> | ->]; reflexivity).
  unfold readNumber_step.
  rewrite Hxd, truthy_zero, Hx46, Hxe. cbn [negb andb].
  pose proof (At_advance _ _ _ _ HAt) as HAt1.
  rewrite (At_getChar _ _ _ HAt1).
  destruct ds as [|d ds]; [congruence|].
  inversion Hds as [|? ? Hd Hds']; subst.
  destruct Hplus as [-> | ->]; cbn [app hd_error] in *.
  - assert (charIs (Some d) 45 = false /\ charIs (Some d) 43 = false) as [H45 H43].
    { apply ascii_digit_cases in Hd.
      repeat (destruct Hd as [-> | Hd]; [split; reflexivity|]).
      subst. split; reflexivity. }
    rewrite H45, H43. cbn [negb Num_set_c].
    set (t2 := advance (set_pos (advance t 1) (pos (advance t 1) - 1)) 1).
    assert (At t2 (pre ++ [x]) (d :: ds ++ rest)) as HAt2.
    { destruct HAt1 as [Hi Hp]. split; [exact Hi|]. cbn in *. lia. }
    replace (pre ++ x :: d :: ds) with ((pre ++ [x]) ++ d :: ds)
      by (rewrite <- app_assoc; reflexivity).
    eapply NumResult_from;
      [| |apply (readNumber_loop_exp (d :: ds) n start t2 _ rest iv v
                   (Finite 0) es HAt2)];
      auto; try reflexivity.
    cbn in Hn |- *. lia.
  - cbn [charIs Z.eqb Pos.eqb negb Num_set_c].
    pose proof (At_advance _ _ _ _ HAt1) as HAt2.
    replace (pre ++ x :: 43 :: d :: ds) with (((pre ++ [x]) ++ [43]) ++ d :: ds)
      by (rewrite <- !app_assoc; reflexivity).
    eapply NumResult_from;
      [| |apply (readNumber_loop_exp (d :: ds) n start _ _ rest iv v
                   (Finite 0) es HAt2)];
      auto; try reflexivity.
    cbn in Hn |- *. lia.
Qed.

(** The integer digits, then the rest of the literal. *)
Lemma readNumber_loop_int ds1 :
  forall n start t pre x plus ds2 rest iv v es,
    At t pre (ds1 ++ x :: plus ++ ds2 ++ rest) ->
    Forall isAsciiDigit ds1 ->
    x = 0x65 \/ x = 0x45 ->
    plus = [] \/ plus = [0x2b] ->
    ds2 <> [] -> Forall isAsciiDigit ds2 ->
    isDigit' (hd_error rest) = false ->
    hd_error rest <> Some 0x2e ->
    (List.length (ds1 ++ x :: plus ++ ds2) <= n)%nat ->
    NumResult t (pre ++ ds1 ++ x :: plus ++ ds2) rest
      (fold_left intStep ds1 iv) (fold_left expStep ds2 (Finite 0))
      (readNumber_loop' n start t
         (Num.mk (getChar t) iv v (Finite 0) es 0%float false false)).
Proof.
  induction ds1 as [|d ds1 IH];
    intros n start t pre x plus ds2 rest iv v es
      HAt Hds1 Hx Hplus Hne Hds2 Hrest Hdot Hn.
  - cbn [app] in *. rewrite (At_getChar _ _ _ HAt). cbn [hd_error fold_left].
    now apply readNumber_loop_e.
  - inversion Hds1 as [|? ? Hd Hds1']; subst.
    destruct n as [|n]; [cbn in Hn; lia|].
    cbn [app] in HAt. rewrite (At_getChar _ _ _ HAt). cbn [hd_error].
    rewrite (readNumber_loop_digit n start t pre d _ iv v _ es false HAt Hd).
    apply At_advance in HAt.
    replace (pre ++ (d :: ds1) ++ x :: plus ++ ds2)
      with ((pre ++ [d]) ++ ds1 ++ x :: plus ++ ds2)
      by (rewrite <- app_assoc; reflexivity).
    cbn [fold_left].
    eapply NumResult_from; [| |apply IH]; auto; try reflexivity.
    cbn in Hn; lia.
Qed.

Lemma intStep_fold ds iv :
  fold_left intStep ds iv
  = iv * 10 ^ Z.of_nat (List.length ds) + positional 10 (map decVal ds).
Proof.
  revert iv. induction ds as [|d ds IH]; intros iv; cbn [fold_left].
  - cbn. lia.
  - rewrite IH. unfold intStep, decVal.
    cbn [map positional List.length]. rewrite length_map.
    rewrite Nat2Z.inj_succ, Z.pow_succ_r by lia. ring.
Qed.

Lemma intStep_fold_ge ds iv :
  Forall isAsciiDigit ds -> 0 <= iv -> iv <= fold_left intStep ds iv.
Proof.
  revert iv. induction ds as [|d ds IH]; intros iv Hds Hiv; cbn [fold_left];
    [lia|].
  inversion Hds as [|? ? Hd Hds']; subst.
  unfold isAsciiDigit in Hd.
  assert (0 <= intStep iv d) by (unfold intStep; lia).
  specialize (IH (intStep iv d) Hds' H). unfold intStep in *. lia.
Qed.

Lemma round_exact z : z < 2 ^ 53 -> IntNumber.round z = Finite z.
Proof.
  intros H. unfold IntNumber.round.
  destruct (Z.ltb_spec z (2 ^ 53)); [reflexivity|lia].
Qed.

(** Below [2^53] the exponent counter is the exact value of its digits. *)
Lemma expStep_fold ds acc :
  Forall isAsciiDigit ds -> 0 <= acc ->
  fold_left intStep ds acc < 2 ^ 53 ->
  fold_left expStep ds (Finite acc) = Finite (fold_left intStep ds acc).
Proof.
  revert acc. induction ds as [|d ds IH]; intros acc Hds Hacc Hlt;
    cbn [fold_left] in *; [reflexivity|].
  inversion Hds as [|? ? Hd Hds']; subst.
  assert (0 <= intStep acc d) as Hs
    by (unfold intStep, isAsciiDigit in *; lia).
  pose proof (intStep_fold_ge ds (intStep acc d) Hds' Hs) as Hge.
  assert (expStep (Finite acc) d = Finite (intStep acc d)) as ->.
  { unfold expStep, IntNumber.mul, IntNumber.add, intStep in *.
    unfold isAsciiDigit in Hd.
    rewrite round_exact by lia. rewrite round_exact by lia. reflexivity. }
  now apply IH.
Qed.

(** X27.  A decimal literal made of digits, [e] or [E], an optional [+] and
    digits, with no decimal point and no exponent minus sign, whose exponent
    is below [2^53].  When the engine can hold the power of ten and its
    product with the integer digits, [nextToken] returns a Number token
    whose value is the exact integer (value of the integer digits) times ten
    to the (value of the exponent digits), with the error flag clear.  When
    the engine cannot, [nextToken] returns no token and records nothing: it
    ends with the [RangeError] of the engine. *)
Theorem exponent_literal :
  forall fuel t pre ds1 x plus ds2 rest,
    At (skipWhitespace' t) pre (ds1 ++ x :: plus ++ ds2 ++ rest) ->
    ds1 <> [] -> Forall isAsciiDigit ds1 ->
    x = 0x65 \/ x = 0x45 ->
    plus = [] \/ plus = [0x2b] ->
    ds2 <> [] -> Forall isAsciiDigit ds2 ->
    isDigit' (hd_error rest) = false ->
    hd_error rest <> Some 0x2e ->
    positional 10 (map decVal ds2) < 2 ^ 53 ->
    (exponentTooBig bigIntTooBig (positional 10 (map decVal ds1))
       (positional 10 (map decVal ds2)) = false ->
     exists tok t',
       nextToken' (S fuel) t = Ret (Some tok, t')
       /\ Token.kind tok = Number
       /\ Token.value tok =
          Some (BigIntV (positional 10 (map decVal ds1)
                         * 10 ^ positional 10 (map decVal ds2)))
       /\ Token.hasError tok = false
       /\ Token.start tok = getPosition (skipWhitespace' t)
       /\ Position.pos (Token.end_ tok)
          = JS.length pre + JS.length (ds1 ++ x :: plus ++ ds2)
       /\ pos t' = JS.length pre + JS.length (ds1 ++ x :: plus ++ ds2)
       /\ errorsOf t' = errorsOf t)
    /\ (exponentTooBig bigIntTooBig (positional 10 (map decVal ds1))
          (positional 10 (map decVal ds2)) = true ->
        nextToken' (S fuel) t = Throw RangeError).
Proof.
  intros fuel t pre ds1 x plus ds2 rest
    HAt Hne1 Hds1 Hx Hplus Hne2 Hds2 Hrest Hdot Hexp.
  destruct ds1 as [|d1 ds1']; [congruence|].
  inversion Hds1 as [|? ? Hd1 Hds1']; subst.
  rewrite (nextToken_default fuel t d1);
    [|rewrite (At_getChar _ _ _ HAt); reflexivity
     |now apply ascii_digit_not_switch].
  rewrite <- (errorsOf_skipWhitespace t).
  set (t0 := skipWhitespace' t) in *. clearbody t0.
  rewrite (isDigit_ascii d1 Hd1). unfold readNumber.
  assert ((lor20 (peekChar t0) =? 120) = false) as Hnx.
  { cbn [app] in HAt. rewrite (At_peekChar _ _ _ _ HAt).
    destruct ds1' as [|d2 ds1'']; cbn [app hd_error].
    - destruct Hx as [-> | ->]; reflexivity.
    - inversion Hds1' as [|? ? Hd2 _]; subst. now apply ascii_digit_lor20. }
  rewrite Hnx, andb_false_r.
  pose proof (readNumber_loop_int (d1 :: ds1')
    (Z.to_nat (JS.length (input t0) - pos t0)) (getPosition t0) t0 pre
    x plus ds2 rest 0 0%float 1%float HAt Hds1 Hx Hplus Hne2 Hds2 Hrest Hdot)
    as Hres.
  rewrite (At_remaining _ _ _ HAt) in Hres.
  specialize (Hres ltac:(rewrite !List.length_app; cbn;
                           rewrite !List.length_app; lia)).
  rewrite (At_remaining _ _ _ HAt).
  destruct (readNumber_loop' _ (getPosition t0) t0 _) as [t3 l3].
  destruct Hres as ([Hi3 Hp3] & Hs3 & He3 & Hiv & Hex & Hie & Hdd & Hun).
  cbn [fst snd] in *.
  rewrite expStep_fold in Hex; auto; try lia;
    [|rewrite intStep_fold; lia].
  rewrite !intStep_fold in *. rewrite Z.mul_0_l, Z.add_0_l in *.
  unfold finalValue. rewrite Hie, Hdd, Hex, Hun, Hiv.
  fold (exponentTooBig bigIntTooBig
          (positional 10 (map decVal (d1 :: ds1')))
          (positional 10 (map decVal ds2))).
  split; intros Hbig; rewrite Hbig; cbn [bind token fst snd]; [|reflexivity].
  eexists. eexists. split; [reflexivity|].
  cbn [Token.kind Token.value Token.hasError Token.start Token.end_
       getPosition Position.pos fst snd].
  rewrite Hp3, length_app.
  repeat split.
  unfold errorsOf. now rewrite Hs3, He3.
Qed.

(** *** Decimal literals of digits alone *)

(** The digits, up to a unit that is no digit, no point and no [e]. *)
Lemma readNumber_loop_plain ds :
  forall n start t pre rest iv v e es,
    At t pre (ds ++ rest) ->
    Forall isAsciiDigit ds ->
    isDigit' (hd_error rest) = false ->
    hd_error rest <> Some 0x2e ->
    (lor20 (hd_error rest) =? 0x65) = false ->
    (List.length ds <= n)%nat ->
    let r := readNumber_loop' n start t
               (Num.mk (getChar t) iv v e es 0%float false false) in
    At (fst r) (pre ++ ds) rest
    /\ store (fst r) = store t /\ errors (fst r) = errors t
    /\ Num.intValue (snd r) = fold_left intStep ds iv
    /\ Num.isExp (snd r) = false
    /\ truthy (Num.decimalDigits (snd r)) = false
    /\ Num.isUnicode (snd r) = false.
Proof.
  induction ds as [|d ds IH];
    intros n start t pre rest iv v e es HAt Hds Hrest Hdot He Hn r; subst r.
  - cbn [app] in HAt. rewrite app_nil_r. cbn [fold_left].
    assert (readNumber_loop' n start t
              (Num.mk (getChar t) iv v e es 0%float false false)
            = (t, Num.mk (getChar t) iv v e es 0%float false false)) as ->.
    { destruct n; cbn [readNumber_loop]; destruct (atEnd t); try reflexivity.
      unfold readNumber_step.
      rewrite (At_getChar _ _ _ HAt), Hrest, truthy_zero,
        (charIs_false _ _ Hdot), He.
      reflexivity. }
    repeat split; try reflexivity; apply HAt.
  - inversion Hds as [|? ? Hd Hds']; subst.
    destruct n as [|n]; [cbn in Hn; lia|].
    cbn [app] in HAt. rewrite (At_getChar _ _ _ HAt). cbn [hd_error].
    rewrite (readNumber_loop_digit n start t pre d _ iv v e es false HAt Hd).
    apply At_advance in HAt.
    replace (pre ++ d :: ds) with ((pre ++ [d]) ++ ds)
      by (rewrite <- app_assoc; reflexivity).
    cbn [fold_left].
    apply (IH n start (advance t 1) (pre ++ [d]) rest (intStep iv d) v e es);
      auto.
    cbn in Hn; lia.
Qed.

(** X13.  A decimal literal made of ASCII digits alone, not followed by a
    digit, a point or an [e], yields a Number token whose value is the
    arbitrary-precision integer that the digits denote, whatever its size,
    with the error flag clear and no diagnostic. *)
Theorem integer_literal :
  forall fuel t pre ds rest,
    At (skipWhitespace' t) pre (ds ++ rest) ->
    ds <> [] -> Forall isAsciiDigit ds ->
    isDigit' (hd_error rest) = false ->
    hd_error rest <> Some 0x2e ->
    (lor20 (hd_error rest) =? 0x65) = false ->
    (ds = [0x30] -> (lor20 (hd_error rest) =? 0x78) = false) ->
    exists tok t',
      nextToken' (S fuel) t = Ret (Some tok, t')
      /\ Token.kind tok = Number
      /\ Token.value tok = Some (BigIntV (positional 10 (map decVal ds)))
      /\ Token.hasError tok = false
      /\ Token.start tok = getPosition (skipWhitespace' t)
      /\ Position.pos (Token.end_ tok) = JS.length pre + JS.length ds
      /\ pos t' = JS.length pre + JS.length ds
      /\ errorsOf t' = errorsOf t.
Proof.
  intros fuel t pre ds rest HAt Hne Hds Hrest Hdot He Hx.
  destruct ds as [|d1 ds']; [congruence|].
  inversion Hds as [|? ? Hd1 Hds']; subst.
  rewrite (nextToken_default fuel t d1);
    [|rewrite (At_getChar _ _ _ HAt); reflexivity
     |now apply ascii_digit_not_switch].
  rewrite <- (errorsOf_skipWhitespace t).
  set (t0 := skipWhitespace' t) in *. clearbody t0.
  rewrite (isDigit_ascii d1 Hd1). unfold readNumber.
  assert (charIs (getChar t0) 48 && (lor20 (peekChar t0) =? 120) = false)
    as Hnx.
  { cbn [app] in HAt.
    rewrite (At_getChar _ _ _ HAt), (At_peekChar _ _ _ _ HAt).
    cbn [hd_error charIs].
    destruct ds' as [|d2 ds'']; cbn [app hd_error].
    - destruct (Z.eqb_spec d1 48) as [->|_]; [|reflexivity].
      now rewrite (Hx eq_refl).
    - inversion Hds' as [|? ? Hd2 _]; subst.
      rewrite (ascii_digit_lor20 d2 Hd2). apply andb_false_r. }
  rewrite Hnx.
  pose proof (readNumber_loop_plain (d1 :: ds')
    (Z.to_nat (JS.length (input t0) - pos t0)) (getPosition t0) t0 pre
    rest 0 0%float (Finite 0) 1%float HAt Hds Hrest Hdot He) as Hres.
  rewrite (At_remaining _ _ _ HAt) in Hres.
  specialize (Hres ltac:(rewrite !List.length_app; cbn; lia)).
  rewrite (At_remaining _ _ _ HAt).
  cbv zeta in Hres.
  destruct (readNumber_loop' _ (getPosition t0) t0 _) as [t3 l3].
  destruct Hres as ([Hi3 Hp3] & Hs3 & He3 & Hiv & Hie & Hdd & Hun).
  cbn [fst snd] in *.
  rewrite intStep_fold in Hiv. rewrite Z.mul_0_l, Z.add_0_l in Hiv.
  unfold finalValue. rewrite Hie, Hdd, Hun, Hiv.
  cbn [bind token fst snd].
  eexists. eexists. split; [reflexivity|].
  cbn [Token.kind Token.value Token.hasError Token.start Token.end_
       getPosition Position.pos fst snd].
  rewrite Hp3, length_app.
  repeat split.
  unfold errorsOf. now rewrite Hs3, He3.
Qed.


(** *** An exponent marker without digits *)

(** The [e] when neither a sign nor a digit follows it: the cursor is put
    back on the [e] and the common tail of the loop steps over it. *)
Lemma readNumber_loop_e_alone n start t pre x rest iv v es :
  At t pre (x :: rest) ->
  x = 0x65 \/ x = 0x45 ->
  isDigit' (hd_error rest) = false ->
  hd_error rest <> Some 0x2e ->
  hd_error rest <> Some 0x2d ->
  hd_error rest <> Some 0x2b ->
  (1 <= n)%nat ->
  NumResult t (pre ++ [x]) rest iv (Finite 0)
    (readNumber_loop' n start t
       (Num.mk (Some x) iv v (Finite 0) es 0%float false false)).
Proof.
  intros HAt Hx Hrest Hdot Hminus Hplus Hn.
  destruct n as [|n]; [lia|].
  cbn [readNumber_loop]. rewrite (At_atEnd_cons _ _ _ _ HAt).
  assert (isDigit' (Some x) = false) as Hxd
    by (destruct e_not_digit as [H1 H2]; destruct Hx as [-> | ->]; cbn;
        [rewrite H1|rewrite H2]; reflexivity).
  assert (charIs (Some x) 46 = false) as Hx46
    by (destruct Hx as [-> | ->]; reflexivity).
  assert ((lor20 (Some x) =? 101) = true) as Hxe
    by (destruct Hx as [-> | ->]; reflexivity).
  unfold readNumber_step.
  rewrite Hxd, truthy_zero, Hx46, Hxe. cbn [negb andb].
  pose proof (At_advance _ _ _ _ HAt) as HAt1.
  rewrite (At_getChar _ _ _ HAt1).
  rewrite (charIs_false _ _ Hminus), (charIs_false _ _ Hplus).
  cbn [negb Num_set_c].
  set (t2 := advance (set_pos (advance t 1) (pos (advance t 1) - 1)) 1).
  assert (At t2 (pre ++ [x]) ([] ++ rest)) as HAt2.
  { destruct HAt1 as [Hi Hp]. split; [exact Hi|]. cbn in *. lia. }
  pose proof (readNumber_loop_exp [] n start t2 (pre ++ [x]) rest iv v
                (Finite 0) es HAt2 (Forall_nil _) Hrest Hdot (Nat.le_0_l _))
    as Hres.
  rewrite app_nil_r in Hres. cbn [fold_left] in Hres.
  eapply NumResult_from; [| |exact Hres]; reflexivity.
Qed.

Lemma readNumber_loop_int_e_alone ds :
  forall n start t pre x rest iv v es,
    At t pre (ds ++ x :: rest) ->
    Forall isAsciiDigit ds ->
    x = 0x65 \/ x = 0x45 ->
    isDigit' (hd_error rest) = false ->
    hd_error rest <> Some 0x2e ->
    hd_error rest <> Some 0x2d ->
    hd_error rest <> Some 0x2b ->
    (List.length ds < n)%nat ->
    NumResult t (pre ++ ds ++ [x]) rest (fold_left intStep ds iv) (Finite 0)
      (readNumber_loop' n start t
         (Num.mk (getChar t) iv v (Finite 0) es 0%float false false)).
Proof.
  induction ds as [|d ds IH];
    intros n start t pre x rest iv v es HAt Hds Hx Hrest Hdot Hminus Hplus Hn.
  - cbn [app] in *. rewrite (At_getChar _ _ _ HAt). cbn [hd_error fold_left].
    apply readNumber_loop_e_alone; auto.
  - inversion Hds as [|? ? Hd Hds']; subst.
    destruct n as [|n]; [cbn in Hn; lia|].
    cbn [app] in HAt. rewrite (At_getChar _ _ _ HAt). cbn [hd_error].
    rewrite (readNumber_loop_digit n start t pre d _ iv v _ es false HAt Hd).
    apply At_advance in HAt.
    replace (pre ++ (d :: ds) ++ [x]) with ((pre ++ [d]) ++ ds ++ [x])
      by (rewrite <- app_assoc; reflexivity).
    cbn [fold_left].
    eapply NumResult_from; [| |apply IH]; auto; try reflexivity.
    cbn in Hn; lia.
Qed.

(** X20.  Digits followed by [e] or [E] with neither sign nor digit after
    it are read as a Number token that takes in the [e]: its value is the
    integer the digits denote, the error flag is clear and no diagnostic is
    recorded. *)
Theorem exponent_marker_without_digits :
  forall fuel t pre ds x rest,
    At (skipWhitespace' t) pre (ds ++ x :: rest) ->
    ds <> [] -> Forall isAsciiDigit ds ->
    x = 0x65 \/ x = 0x45 ->
    isDigit' (hd_error rest) = false ->
    hd_error rest <> Some 0x2e ->
    hd_error rest <> Some 0x2d ->
    hd_error rest <> Some 0x2b ->
    exists tok t',
      nextToken' (S fuel) t = Ret (Some tok, t')
      /\ Token.kind tok = Number
      /\ Token.value tok = Some (BigIntV (positional 10 (map decVal ds)))
      /\ Token.hasError tok = false
      /\ Token.start tok = getPosition (skipWhitespace' t)
      /\ Position.pos (Token.end_ tok) = JS.length pre + JS.length ds + 1
      /\ pos t' = JS.length pre + JS.length ds + 1
      /\ errorsOf t' = errorsOf t.
Proof.
  intros fuel t pre ds x rest HAt Hne Hds Hx Hrest Hdot Hminus Hplus.
  destruct ds as [|d1 ds']; [congruence|].
  inversion Hds as [|? ? Hd1 Hds']; subst.
  rewrite (nextToken_default fuel t d1);
    [|rewrite (At_getChar _ _ _ HAt); reflexivity
     |now apply ascii_digit_not_switch].
  rewrite <- (errorsOf_skipWhitespace t).
  set (t0 := skipWhitespace' t) in *. clearbody t0.
  rewrite (isDigit_ascii d1 Hd1). unfold readNumber.
  assert ((lor20 (peekChar t0) =? 120) = false) as Hnx.
  { cbn [app] in HAt. rewrite (At_peekChar _ _ _ _ HAt).
    destruct ds' as [|d2 ds'']; cbn [app hd_error].
    - destruct Hx as [-> | ->]; reflexivity.
    - inversion Hds' as [|? ? Hd2 _]; subst. now apply ascii_digit_lor20. }
  rewrite Hnx, andb_false_r.
  pose proof (readNumber_loop_int_e_alone (d1 :: ds')
    (Z.to_nat (JS.length (input t0) - pos t0)) (getPosition t0) t0 pre
    x rest 0 0%float 1%float HAt Hds Hx Hrest Hdot Hminus Hplus) as Hres.
  rewrite (At_remaining _ _ _ HAt) in Hres.
  specialize (Hres ltac:(rewrite !List.length_app; cbn; lia)).
  rewrite (At_remaining _ _ _ HAt).
  destruct (readNumber_loop' _ (getPosition t0) t0 _) as [t3 l3].
  destruct Hres as ([Hi3 Hp3] & Hs3 & He3 & Hiv & Hex & Hie & Hdd & Hun).
  cbn [fst snd] in *.
  rewrite intStep_fold in Hiv. rewrite Z.mul_0_l, Z.add_0_l in Hiv.
  unfold finalValue. rewrite Hie, Hdd, Hex, Hun, Hiv.
  cbn [bind token fst snd].
  eexists. eexists. split; [reflexivity|].
  cbn [Token.kind Token.value Token.hasError Token.start Token.end_
       getPosition Position.pos fst snd].
  rewrite Hp3, !length_app, length_cons. change (JS.length [x]) with 1.
  split; [reflexivity|].
  split; [now rewrite Z.pow_0_r, Z.mul_1_r|].
  split; [reflexivity|]. split; [reflexivity|].
  split; [lia|]. split; [lia|].
  unfold errorsOf. now rewrite Hs3, He3.
Qed.


(** *** Digits and a point *)

Lemma advance_0 t : advance t 0 = t.
Proof. destruct t. unfold advance, set_col, set_pos. cbn. f_equal; lia. Qed.

(** The integer digits, one iteration each. *)
Lemma readNumber_loop_prefix ds :
  forall n start t pre rest iv v e es,
    At t pre (ds ++ rest) ->
    Forall isAsciiDigit ds ->
    readNumber_loop' (List.length ds + n) start t
      (Num.mk (getChar t) iv v e es 0%float false false)
    = readNumber_loop' n start (advance t (JS.length ds))
        (Num.mk (hd_error rest) (fold_left intStep ds iv) v e es 0%float
           false false).
Proof.
  induction ds as [|d ds IH]; intros n start t pre rest iv v e es HAt Hds.
  - cbn [app] in HAt. rewrite (At_getChar _ _ _ HAt).
    change (JS.length []) with 0. rewrite advance_0. reflexivity.
  - inversion Hds as [|? ? Hd Hds']; subst.
    cbn [app] in HAt. rewrite (At_getChar _ _ _ HAt). cbn [hd_error].
    cbn [List.length Nat.add].
    rewrite (readNumber_loop_digit _ start t pre d _ iv v e es false HAt Hd).
    apply At_advance in HAt.
    rewrite (IH n start (advance t 1) (pre ++ [d]) rest _ v e es HAt Hds').
    rewrite advance_advance, length_cons. reflexivity.
Qed.

(** The point after the integer digits, with no digit and no [e] after
    it: the loop ends on the unit that follows. *)
Lemma readNumber_loop_point n start t pre rest iv v e es :
  At t pre (0x2e :: rest) ->
  DECIMAL_DIGIT_CHAR_CODES 0x2e = None ->
  isDigit' (hd_error rest) = false ->
  (lor20 (hd_error rest) =? 0x65) = false ->
  (1 <= n)%nat ->
  readNumber_loop' n start t (Num.mk (Some 0x2e) iv v e es 0%float false false)
  = (advance (if MAX_SAFE_INTEGER <? iv
              then error t LossOfPrecision start (getPosition t) else t) 1,
     Num.mk (hd_error rest) iv (NumberOfBigInt iv) e es 10%float false false).
Proof.
  intros HAt Hpt Hrest He Hn.
  destruct n as [|n]; [lia|].
  cbn [readNumber_loop]. rewrite (At_atEnd_cons _ _ _ _ HAt).
  unfold readNumber_step.
  assert (isDigit' (Some 46) = false) as -> by (cbn; now rewrite Hpt).
  rewrite truthy_zero. cbn [negb andb charIs Z.eqb Pos.eqb].
  unfold enterFraction. cbn [Num_set_c].
  set (t1 := if MAX_SAFE_INTEGER <? iv
             then error t LossOfPrecision start (getPosition t) else t).
  assert (HAt1 : At t1 pre (0x2e :: rest))
    by (unfold t1; destruct (MAX_SAFE_INTEGER <? iv); exact HAt).
  apply At_advance in HAt1.
  rewrite (At_getChar _ _ _ HAt1).
  destruct n as [|n]; cbn [readNumber_loop];
    destruct (atEnd (advance t1 1)); try reflexivity.
  unfold readNumber_step. rewrite Hrest.
  change (truthy 10%float) with true. cbn [negb andb]. rewrite He.
  reflexivity.
Qed.

(** X22.  ASCII digits followed by a point, with no digit and no [e] after
    the point, are read as a Number token that takes in the point; its
    value is the binary64 number nearest to the integer that the digits
    denote, and exactly when that integer is above the largest safe
    integer one [LossOfPrecision] diagnostic is recorded, from the start
    of the literal to the point. *)
Theorem integer_with_trailing_point :
  forall fuel t pre ds rest,
    At (skipWhitespace' t) pre (ds ++ 0x2e :: rest) ->
    ds <> [] -> Forall isAsciiDigit ds ->
    DECIMAL_DIGIT_CHAR_CODES 0x2e = None ->
    isDigit' (hd_error rest) = false ->
    (lor20 (hd_error rest) =? 0x65) = false ->
    exists tok t',
      nextToken' (S fuel) t = Ret (Some tok, t')
      /\ Token.kind tok = Number
      /\ Token.value tok
         = Some (NumberV (NumberOfBigInt (positional 10 (map decVal ds))))
      /\ Token.hasError tok = false
      /\ Token.start tok = getPosition (skipWhitespace' t)
      /\ Position.pos (Token.end_ tok) = JS.length pre + JS.length ds + 1
      /\ pos t' = JS.length pre + JS.length ds + 1
      /\ errorsOf t'
         = errorsOf t ++
           (if MAX_SAFE_INTEGER <? positional 10 (map decVal ds)
            then [Diagnostic.mk LossOfPrecision
                    (getPosition (skipWhitespace' t))
                    (Position.mk (JS.length pre + JS.length ds)
                       (row (skipWhitespace' t))
                       (col (skipWhitespace' t) + JS.length ds))]
            else []).
Proof.
  intros fuel t pre ds rest HAt Hne Hds Hpt Hrest He.
  destruct ds as [|d1 ds']; [congruence|].
  pose proof Hds as Hds0.
  inversion Hds as [|? ? Hd1 Hds']; subst.
  rewrite (nextToken_default fuel t d1);
    [|rewrite (At_getChar _ _ _ HAt); reflexivity
     |now apply ascii_digit_not_switch].
  rewrite <- (errorsOf_skipWhitespace t).
  set (t0 := skipWhitespace' t) in *. clearbody t0.
  rewrite (isDigit_ascii d1 Hd1). unfold readNumber.
  assert ((lor20 (peekChar t0) =? 120) = false) as Hnx.
  { cbn [app] in HAt. rewrite (At_peekChar _ _ _ _ HAt).
    destruct ds' as [|d2 ds'']; cbn [app hd_error]; [reflexivity|].
    inversion Hds' as [|? ? Hd2 _]; subst. now apply ascii_digit_lor20. }
  rewrite Hnx, andb_false_r.
  rewrite (At_remaining _ _ _ HAt).
  set (ds := d1 :: ds') in *.
  replace (List.length (ds ++ 0x2e :: rest))
    with (List.length ds + S (List.length rest))%nat
    by (rewrite List.length_app; reflexivity).
  rewrite (readNumber_loop_prefix ds _ (getPosition t0) t0 pre _ 0 0%float
             (Finite 0) 1%float HAt Hds0).
  cbn [hd_error].
  assert (HAt1 : At (advance t0 (JS.length ds)) (pre ++ ds) (0x2e :: rest)).
  { destruct HAt as [Hi Hp]. split; cbn [input pos advance set_col set_pos].
    - rewrite Hi, <- app_assoc. reflexivity.
    - rewrite Hp, length_app. reflexivity. }
  rewrite (readNumber_loop_point _ (getPosition t0) _ _ rest _ _ _ _
             HAt1 Hpt Hrest He) by lia.
  rewrite intStep_fold, Z.mul_0_l, Z.add_0_l.
  unfold finalValue.
  cbn [Num.isExp Num.decimalDigits Num.value Num.isUnicode].
  change (truthy 10%float) with true.
  cbn [bind token fst snd].
  eexists. eexists. split; [reflexivity|].
  cbn [Token.kind Token.value Token.hasError Token.start Token.end_].
  split; [reflexivity|]. split; [reflexivity|]. split; [reflexivity|].
  split; [reflexivity|].
  destruct HAt as [_ Hp].
  destruct (MAX_SAFE_INTEGER <? positional 10 (map decVal ds)).
  - cbn [fst snd Token.end_ getPosition Position.pos pos advance set_col
         set_pos error set_store row col].
    split; [lia|]. split; [lia|].
    match goal with
    | |- errorsOf (advance (error ?u ?k ?s ?e) 1) = _ =>
        change (errorsOf (advance (error u k s e) 1))
          with (errorsOf (error u k s e));
        rewrite (errorsOf_error u k s e)
    end.
    change (errorsOf (advance t0 (JS.length ds))) with (errorsOf t0).
    do 3 f_equal. unfold getPosition, advance, set_col, set_pos.
    cbn [pos row col]. rewrite Hp. reflexivity.
  - cbn [fst snd Token.end_ getPosition Position.pos pos advance set_col
         set_pos].
    split; [lia|]. split; [lia|]. now rewrite app_nil_r.
Qed.


(** *** A negative exponent *)

(** One iteration on a digit of the exponent, whatever the fraction
    divisor. *)
Lemma readNumber_loop_exp_digit n start t pre d rest iv v e es dd :
  At t pre (d :: rest) -> isAsciiDigit d ->
  readNumber_loop' (S n) start t (Num.mk (Some d) iv v e es dd false true)
  = readNumber_loop' n start (advance t 1)
      (Num.mk (getChar (advance t 1)) iv v (expStep e d) es dd false true).
Proof.
  intros HAt Hd. cbn [readNumber_loop].
  rewrite (At_atEnd_cons _ _ _ _ HAt).
  unfold readNumber_step. rewrite (isDigit_ascii d Hd).
  assert ((127 <? d) = false) as H127
    by (apply Z.ltb_ge; unfold isAsciiDigit in Hd; lia).
  rewrite H127. reflexivity.
Qed.

(** The digits of the exponent once the literal is a fraction: the loop
    ends on the first unit that is no digit. *)
Lemma readNumber_loop_exp_fraction ds :
  forall n start t pre rest iv v e es dd,
    At t pre (ds ++ rest) ->
    Forall isAsciiDigit ds ->
    isDigit' (hd_error rest) = false ->
    truthy dd = true ->
    (List.length ds <= n)%nat ->
    readNumber_loop' n start t (Num.mk (getChar t) iv v e es dd false true)
    = (advance t (JS.length ds),
       Num.mk (hd_error rest) iv v (fold_left expStep ds e) es dd false true).
Proof.
  induction ds as [|d ds IH];
    intros n start t pre rest iv v e es dd HAt Hds Hrest Hdd Hn.
  - cbn [app] in HAt. rewrite (At_getChar _ _ _ HAt).
    change (JS.length []) with 0. rewrite advance_0. cbn [fold_left].
    destruct n; cbn [readNumber_loop]; destruct (atEnd t); try reflexivity.
    unfold readNumber_step. rewrite Hrest, Hdd. reflexivity.
  - inversion Hds as [|? ? Hd Hds']; subst.
    destruct n as [|n]; [cbn in Hn; lia|].
    cbn [app] in HAt. rewrite (At_getChar _ _ _ HAt). cbn [hd_error].
    rewrite (readNumber_loop_exp_digit n start t pre d _ iv v e es dd HAt Hd).
    apply At_advance in HAt.
    rewrite (IH n start (advance t 1) (pre ++ [d]) rest iv v (expStep e d) es
               dd HAt Hds' Hrest Hdd) by (cbn in Hn; lia).
    rewrite advance_advance, length_cons. reflexivity.
Qed.

(** The [e] and the minus sign after it, before any point: the literal
    becomes a fraction there. *)
Lemma readNumber_loop_e_minus n start t pre x rest iv v es :
  At t pre (x :: 0x2d :: rest) ->
  x = 0x65 \/ x = 0x45 ->
  readNumber_loop' (S n) start t
    (Num.mk (Some x) iv v (Finite 0) es 0%float false false)
  = readNumber_loop' n start
      (advance (if MAX_SAFE_INTEGER <? iv
                then error (advance t 1) LossOfPrecision start
                       (getPosition (advance t 1))
                else advance t 1) 1)
      (Num.mk (hd_error rest) iv (NumberOfBigInt iv) (Finite 0) (-1)%float
         10%float false true).
Proof.
  intros HAt Hx.
  cbn [readNumber_loop]. rewrite (At_atEnd_cons _ _ _ _ HAt).
  assert (isDigit' (Some x) = false) as Hxd
    by (destruct e_not_digit as [H1 H2]; destruct Hx as [-> | ->]; cbn;
        [rewrite H1|rewrite H2]; reflexivity).
  assert (charIs (Some x) 46 = false) as Hx46
    by (destruct Hx as [-> | ->]; reflexivity).
  assert ((lor20 (Some x) =? 101) = true) as Hxe
    by (destruct Hx as [-> | ->]; reflexivity).
  unfold readNumber_step.
  rewrite Hxd, truthy_zero, Hx46, Hxe. cbn [negb andb].
  pose proof (At_advance _ _ _ _ HAt) as HAt1.
  rewrite (At_getChar _ _ _ HAt1).
  cbn [hd_error charIs Z.eqb Pos.eqb negb]. unfold enterFraction.
  cbn [Num_set_c].
  set (t1 := if MAX_SAFE_INTEGER <? iv
             then error (advance t 1) LossOfPrecision start
                    (getPosition (advance t 1))
             else advance t 1).
  assert (HAt1' : At t1 (pre ++ [x]) (0x2d :: rest))
    by (unfold t1; destruct (MAX_SAFE_INTEGER <? iv); exact HAt1).
  apply At_advance in HAt1'. rewrite (At_getChar _ _ _ HAt1').
  reflexivity.
Qed.

(** X26.  ASCII digits, [e] or [E], a minus sign and exponent digits (none
    of them is allowed, too) are read as a Number token whose value is a
    binary64 number: the number nearest the integer of the digits, times
    ten to the power of minus the exponent; exactly when the integer is
    above the largest safe integer one [LossOfPrecision] diagnostic is
    recorded. *)
Theorem negative_exponent_literal :
  forall fuel t pre ds1 x ds2 rest,
    At (skipWhitespace' t) pre (ds1 ++ x :: 0x2d :: ds2 ++ rest) ->
    ds1 <> [] -> Forall isAsciiDigit ds1 ->
    x = 0x65 \/ x = 0x45 ->
    Forall isAsciiDigit ds2 ->
    isDigit' (hd_error rest) = false ->
    positional 10 (map decVal ds2) < 2 ^ 53 ->
    exists tok t',
      nextToken' (S fuel) t = Ret (Some tok, t')
      /\ Token.kind tok = Number
      /\ Token.value tok
         = Some (NumberV
                   (PrimFloat.mul
                      (NumberOfBigInt (positional 10 (map decVal ds1)))
                      (pow10 (PrimFloat.mul
                                (NumberOfBigInt (positional 10 (map decVal ds2)))
                                (-1)%float))))
      /\ Token.hasError tok = false
      /\ Token.start tok = getPosition (skipWhitespace' t)
      /\ pos t' = JS.length pre + JS.length ds1 + 2 + JS.length ds2
      /\ map Diagnostic.kind (errorsOf t')
         = map Diagnostic.kind (errorsOf t)
           ++ (if MAX_SAFE_INTEGER <? positional 10 (map decVal ds1)
               then [LossOfPrecision] else []).
Proof.
  intros fuel t pre ds1 x ds2 rest HAt Hne Hds1 Hx Hds2 Hrest Hexp.
  destruct ds1 as [|d1 ds1']; [congruence|].
  pose proof Hds1 as Hds0.
  inversion Hds1 as [|? ? Hd1 Hds1']; subst.
  rewrite (nextToken_default fuel t d1);
    [|rewrite (At_getChar _ _ _ HAt); reflexivity
     |now apply ascii_digit_not_switch].
  rewrite <- (errorsOf_skipWhitespace t).
  set (t0 := skipWhitespace' t) in *. clearbody t0.
  rewrite (isDigit_ascii d1 Hd1). unfold readNumber.
  assert ((lor20 (peekChar t0) =? 120) = false) as Hnx.
  { cbn [app] in HAt. rewrite (At_peekChar _ _ _ _ HAt).
    destruct ds1' as [|d2 ds1'']; cbn [app hd_error].
    - destruct Hx as [-> | ->]; reflexivity.
    - inversion Hds1' as [|? ? Hd2 _]; subst. now apply ascii_digit_lor20. }
  rewrite Hnx, andb_false_r.
  rewrite (At_remaining _ _ _ HAt).
  set (ds := d1 :: ds1') in *.
  replace (List.length (ds ++ x :: 0x2d :: ds2 ++ rest))
    with (List.length ds + S (S (List.length (ds2 ++ rest))))%nat
    by (rewrite !List.length_app; cbn [List.length];
        rewrite ?List.length_app; lia).
  rewrite (readNumber_loop_prefix ds _ (getPosition t0) t0 pre _ 0 0%float
             (Finite 0) 1%float HAt Hds0).
  cbn [hd_error].
  assert (HAt1 : At (advance t0 (JS.length ds)) (pre ++ ds)
                   (x :: 0x2d :: ds2 ++ rest)).
  { destruct HAt as [Hi Hp]. split; cbn [input pos advance set_col set_pos].
    - rewrite Hi, <- app_assoc. reflexivity.
    - rewrite Hp, length_app. reflexivity. }
  rewrite (readNumber_loop_e_minus _ (getPosition t0) _ _ x _ _ _ _ HAt1 Hx).
  rewrite intStep_fold, Z.mul_0_l, Z.add_0_l.
  set (iv := positional 10 (map decVal ds)).
  set (t2 := advance (if MAX_SAFE_INTEGER <? iv
                      then error (advance (advance t0 (JS.length ds)) 1)
                             LossOfPrecision (getPosition t0)
                             (getPosition (advance (advance t0 (JS.length ds)) 1))
                      else advance (advance t0 (JS.length ds)) 1) 1).
  assert (HAt2 : At t2 (pre ++ ds ++ [x; 0x2d]) (ds2 ++ rest)).
  { destruct HAt1 as [Hi Hp]. unfold t2.
    destruct (MAX_SAFE_INTEGER <? iv);
      (split; cbn [input pos advance set_col set_pos error set_store] in *;
       [rewrite Hi, <- !app_assoc; reflexivity
       |rewrite Hp, !length_app, !length_cons;
        change (JS.length []) with 0; lia]). }
  assert (Hc2 : hd_error (ds2 ++ rest) = getChar t2)
    by (symmetry; apply (At_getChar _ _ _ HAt2)).
  rewrite Hc2.
  rewrite (readNumber_loop_exp_fraction ds2 _ (getPosition t0) t2 _ rest _ _ _
             _ 10%float HAt2 Hds2 Hrest eq_refl)
    by (rewrite List.length_app; lia).
  rewrite expStep_fold; auto; try lia; [|rewrite intStep_fold; lia].
  rewrite intStep_fold, Z.mul_0_l, Z.add_0_l.
  unfold finalValue.
  cbn [Num.isExp Num.decimalDigits Num.value Num.isUnicode Num.exp Num.expSign
       floatOfIntNumber].
  change (truthy 10%float) with true.
  cbn [bind token fst snd].
  eexists. eexists. split; [reflexivity|].
  cbn [Token.kind Token.value Token.hasError Token.start fst snd].
  split; [reflexivity|]. split; [reflexivity|]. split; [reflexivity|].
  split; [reflexivity|].
  split.
  - destruct HAt2 as [_ Hp2].
    cbn [pos advance set_col set_pos]. rewrite Hp2, !length_app, !length_cons.
    change (JS.length []) with 0. lia.
  - change (errorsOf (advance t2 (JS.length ds2))) with (errorsOf t2).
    unfold t2. destruct (MAX_SAFE_INTEGER <? iv).
    + match goal with
      | |- context [errorsOf (advance (error ?u ?k ?s ?e) 1)] =>
          change (errorsOf (advance (error u k s e) 1))
            with (errorsOf (error u k s e));
          rewrite (errorsOf_error u k s e)
      end.
      rewrite map_app. reflexivity.
    + now rewrite app_nil_r.
Qed.


End Decimal.

(** *** The bounds of the loops are enough

    Each reader runs its loop for as many iterations as there are units
    between the cursor and the end of the input (one more for
    [readString]); with at least that many, the number no longer matters:
    the loops end by their own condition. *)

Lemma remaining_advance t :
  atEnd t = false -> remaining t = S (remaining (advance t 1)).
Proof.
  intros H. apply atEnd_false in H. unfold remaining. cbn. lia.
Qed.

Lemma skipWhitespace_loop_fuel n :
  forall m t, (remaining t <= n)%nat -> (remaining t <= m)%nat ->
    skipWhitespace_loop' n t = skipWhitespace_loop' m t.
Proof.
  induction n as [|n IH]; intros m t Hn Hm.
  - destruct m; cbn [skipWhitespace_loop];
      destruct (atEnd t) eqn:E; try reflexivity.
    apply atEnd_false in E. unfold remaining in Hn. lia.
  - cbn [skipWhitespace_loop]. destruct (atEnd t) eqn:E.
    + destruct m; cbn [skipWhitespace_loop]; rewrite E; reflexivity.
    + destruct (isWhitespace' (getChar t)) eqn:W; cbn [negb andb].
      * pose proof E as E'. apply atEnd_false in E'.
        destruct (skipWhitespace_body_fields t) as (B1 & B2 & _).
        assert (remaining t = S (remaining (skipWhitespace_body t))) as R
          by (unfold remaining; rewrite B1, B2; lia).
        destruct m as [|m]; [lia|].
        cbn [skipWhitespace_loop]. rewrite E, W. cbn [negb andb].
        apply IH; lia.
      * destruct m; cbn [skipWhitespace_loop]; rewrite E, W; reflexivity.
Qed.

Lemma readIdent_loop_fuel n :
  forall m t, (remaining t <= n)%nat -> (remaining t <= m)%nat ->
    readIdent_loop' n t = readIdent_loop' m t.
Proof.
  induction n as [|n IH]; intros m t Hn Hm.
  - destruct m; cbn [readIdent_loop];
      destruct (atEnd t) eqn:E; try reflexivity.
    apply atEnd_false in E. unfold remaining in Hn. lia.
  - cbn [readIdent_loop]. destruct (atEnd t) eqn:E.
    + destruct m; cbn [readIdent_loop]; rewrite E; reflexivity.
    + destruct (isIdentPart' (getChar t)) eqn:W; cbn [negb andb].
      * pose proof (remaining_advance t E) as R.
        destruct m as [|m]; [lia|].
        cbn [readIdent_loop]. rewrite E, W. cbn [negb andb].
        apply IH; lia.
      * destruct m; cbn [readIdent_loop]; rewrite E, W; reflexivity.
Qed.

Lemma readHex_loop_fuel n :
  forall m t c iv,
    (remaining (advance t 1) <= n)%nat -> (remaining (advance t 1) <= m)%nat ->
    readHex_loop n t c iv = readHex_loop m t c iv.
Proof.
  induction n as [|n IH]; intros m t c iv Hn Hm.
  - destruct m; cbn [readHex_loop]; [reflexivity|].
    destruct (getChar (advance t 1)) as [c'|]; [|reflexivity].
    destruct (atEnd (advance t 1)) eqn:E; [reflexivity|].
    apply atEnd_false in E. unfold remaining in Hn. lia.
  - cbn [readHex_loop].
    destruct (getChar (advance t 1)) as [c'|] eqn:G;
      [|destruct m; cbn [readHex_loop]; rewrite ?G; reflexivity].
    destruct (atEnd (advance t 1)) eqn:E; cbn [negb andb];
      [destruct m; cbn [readHex_loop]; rewrite ?G, ?E; reflexivity|].
    pose proof (remaining_advance _ E) as R.
    destruct m as [|m]; [lia|].
    cbn [readHex_loop]. rewrite G, E. cbn [negb andb].
    destruct (isHexDigit (Some c')); [|reflexivity].
    apply IH; lia.
Qed.

Lemma readNumber_step_pos start t l t' l' :
  readNumber_step' start t l = Some (t', l') ->
  input t' = input t /\ pos t <= pos t'.
Proof.
  unfold readNumber_step. destruct l as [c iv v e es dd iu ie].
  unfold enterFraction.
  repeat match goal with
    | |- (if ?b then _ else _) = _ -> _ => destruct b
    | |- match ?c with Some _ => _ | None => _ end = _ -> _ => destruct c
    end;
    intros H; try discriminate; injection H as <- <-;
    repeat match goal with
      | |- context [if ?b then _ else _] => destruct b
      end;
    cbn; split; try reflexivity; lia.
Qed.

Lemma readNumber_loop_fuel n :
  forall m start t l, (remaining t <= n)%nat -> (remaining t <= m)%nat ->
    readNumber_loop' n start t l = readNumber_loop' m start t l.
Proof.
  induction n as [|n IH]; intros m start t l Hn Hm.
  - destruct m; cbn [readNumber_loop];
      destruct (atEnd t) eqn:E; try reflexivity.
    apply atEnd_false in E. unfold remaining in Hn. lia.
  - cbn [readNumber_loop]. destruct (atEnd t) eqn:E.
    + destruct m; cbn [readNumber_loop]; rewrite E; reflexivity.
    + pose proof E as E'. apply atEnd_false in E'.
      destruct m as [|m]; [unfold remaining in Hm; lia|].
      cbn [readNumber_loop]. rewrite E.
      destruct (readNumber_step' start t l) as [[t1 l1]|] eqn:Es;
        [|reflexivity].
      apply readNumber_step_pos in Es. destruct Es as [Hi Hp].
      apply IH; unfold remaining in *; cbn; rewrite Hi; lia.
Qed.

Lemma readString_loop_fuel n :
  forall m pos0 t c start value,
    c = getChar t ->
    (remaining t < n)%nat -> (remaining t < m)%nat ->
    readString_loop n pos0 t c start value
    = readString_loop m pos0 t c start value.
Proof.
  induction n as [|n IH]; intros m pos0 t c start value Hc Hn Hm; [lia|].
  destruct m as [|m]; [lia|].
  cbn [readString_loop]. destruct (charIs c 39); [reflexivity|].
  unfold readString_body.
  pose proof (readString_escape_spec pos0 t c start value Hc) as He.
  destruct (readString_escape pos0 t c start value)
    as [[tok t']|t1 c1 start1 value1]; [reflexivity|].
  destruct He as [E1 P1].
  pose proof (readString_tail_spec pos0 t1 c1 start1 value1) as Ht.
  destruct (readString_tail pos0 t1 c1 start1 value1)
    as [[tok t']|t2 c2 start2 value2]; [reflexivity|].
  destruct Ht as (E2 & P2 & C2 & A2).
  assert (input t2 = input t) as Hi
    by (rewrite (ext_input _ _ E2); apply (ext_input _ _ E1)).
  apply atEnd_false in A2.
  apply IH; [exact C2| |]; unfold remaining in *; rewrite Hi in *; lia.
Qed.

(** *** More fuel does not change an answer *)

Lemma readComment_loop_mono fuel :
  forall t value r,
    readComment_loop fuel t value = Ret r ->
    readComment_loop (S fuel) t value = Ret r.
Proof.
  induction fuel as [|fuel IH]; intros t value r H; [discriminate|].
  cbn [readComment_loop] in H |- *.
  match type of H with
  | (if ?b then _ else _) = _ => destruct b
  end; [|exact H].
  apply IH in H. exact H.
Qed.

Lemma readComment_mono fuel t r :
  readComment fuel t = Ret r -> readComment (S fuel) t = Ret r.
Proof.
  unfold readComment.
  destruct (readComment_loop fuel _ []) as [[t1 v1]| |] eqn:E;
    cbn [bind]; try discriminate.
  apply readComment_loop_mono in E. rewrite E. cbn [bind]. auto.
Qed.

Lemma nextToken_in_mono fuel :
  forall frames t r,
    nextToken_in' frames fuel t = Ret r ->
    nextToken_in' frames (S fuel) t = Ret r.
Proof.
  induction fuel as [|fuel IH]; intros frames t r H; [discriminate|].
  cbn [nextToken_in] in H. cbn [nextToken_in].
  set (t0 := skipWhitespace' t) in *. clearbody t0.
  repeat match type of H with
    | (if ?b then _ else _) = _ => destruct b
    end; try exact H.
  - destruct (readComment fuel t0) as [p| |] eqn:E; cbn [bind] in H;
      try discriminate.
    apply readComment_mono in E. rewrite E. exact H.
  - destruct frames as [|frames]; [discriminate|]. apply IH. exact H.
Qed.

Lemma nextToken_mono fuel :
  forall t r, nextToken' fuel t = Ret r -> nextToken' (S fuel) t = Ret r.
Proof. intros t r. apply nextToken_in_mono. Qed.

(** * Further properties of the scanner *)

(** ** skipWhitespace *)

Lemma skipWhitespace_loop_post n :
  forall t, (remaining t <= n)%nat ->
    (atEnd (skipWhitespace_loop' n t) = true
     \/ isWhitespace' (getChar (skipWhitespace_loop' n t)) = false)
    /\ (forall i, pos t <= i < pos (skipWhitespace_loop' n t) ->
          isWhitespace' (JS.charCodeAt (input t) i) = true).
Proof.
  induction n as [|n IH]; intros t Hn; cbn [skipWhitespace_loop].
  - destruct (atEnd t) eqn:E; cbn [negb andb].
    + split; [now left|]. intros i Hi. lia.
    + apply atEnd_false in E. unfold remaining in Hn. lia.
  - destruct (atEnd t) eqn:E; cbn [negb andb].
    + split; [now left|]. intros i Hi. lia.
    + destruct (isWhitespace' (getChar t)) eqn:W.
      * destruct (skipWhitespace_body_fields t)
          as (B1 & B2 & _).
        pose proof E as E'. apply atEnd_false in E'.
        destruct (IH (skipWhitespace_body t)) as [Hpost Hskip].
        { unfold remaining in *. rewrite B1, B2. lia. }
        split; [exact Hpost|]. intros i Hi.
        destruct (Z.eq_dec i (pos t)) as [->|Hne]; [exact W|].
        rewrite <- B1. apply Hskip. rewrite B2. lia.
      * split; [now right|]. intros i Hi. lia.
Qed.

(** One more [skipWhitespace] changes nothing. *)
Lemma skipWhitespace_stopped t :
  atEnd t = true \/ isWhitespace' (getChar t) = false -> skipWhitespace' t = t.
Proof.
  intros H. rewrite skipWhitespace_unfold.
  destruct H as [-> | ->]; [reflexivity|now rewrite andb_false_r].
Qed.

(** X1.  [skipWhitespace] stops at the end of the input or on a unit that is
    not whitespace, every unit it moved over is whitespace, and it leaves
    the input and the diagnostic arrays as they were. *)
Theorem skipWhitespace_skips_whitespace_only :
  forall t,
    (atEnd (skipWhitespace' t) = true
     \/ isWhitespace' (getChar (skipWhitespace' t)) = false)
    /\ (forall i, pos t <= i < pos (skipWhitespace' t) ->
          isWhitespace' (JS.charCodeAt (input t) i) = true)
    /\ pos t <= pos (skipWhitespace' t)
    /\ input (skipWhitespace' t) = input t
    /\ store (skipWhitespace' t) = store t.
Proof.
  intros t.
  destruct (skipWhitespace_loop_post (remaining t) t (le_n _)) as [H1 H2].
  destruct (skipWhitespace_fields t)
    as (Hi & Hs & _ & _ & _ & _ & Hp).
  split; [exact H1|]. split; [exact H2|]. split; [exact Hp|].
  split; [exact Hi|exact Hs].
Qed.

(** X2.  [skipWhitespace] is idempotent. *)
Theorem skipWhitespace_idempotent :
  forall t, skipWhitespace' (skipWhitespace' t) = skipWhitespace' t.
Proof.
  intros t. apply skipWhitespace_stopped.
  apply (skipWhitespace_loop_post (remaining t) t (le_n _)).
Qed.

Lemma skipWhitespace_loop_rowcol ws :
  forall n t pre rest,
    At t pre (ws ++ rest) ->
    Forall (fun c => isWhitespace' (Some c) = true) ws ->
    isWhitespace' (hd_error rest) = false ->
    (List.length ws <= n)%nat ->
    row (skipWhitespace_loop' n t) = row t + Z.of_nat (count_occ Z.eq_dec ws 0x0a)
    /\ (~ In 0x0a ws -> col (skipWhitespace_loop' n t) = col t + JS.length ws)
    /\ (forall a b, ws = a ++ 0x0a :: b -> ~ In 0x0a b ->
          col (skipWhitespace_loop' n t) = JS.length b).
Proof.
  induction ws as [|w ws IH]; intros n t pre rest HAt Hws Hrest Hn.
  - cbn [app] in HAt.
    assert (skipWhitespace_loop' n t = t) as ->.
    { destruct n; cbn [skipWhitespace_loop];
        rewrite (At_getChar _ _ _ HAt), Hrest, andb_false_r; reflexivity. }
    split; [cbn; lia|]. split; [intros _; cbn; lia|].
    intros a b Hab. destruct a; discriminate.
  - inversion Hws as [|? ? Hw Hws']; subst.
    destruct n as [|n]; [cbn in Hn; lia|].
    cbn [skipWhitespace_loop]. cbn [app] in HAt.
    rewrite (At_atEnd_cons _ _ _ _ HAt), (At_getChar _ _ _ HAt).
    cbn [hd_error negb andb]. rewrite Hw.
    pose proof (At_skipWhitespace_body _ _ _ _ HAt) as HAt'.
    destruct (IH n _ _ _ HAt' Hws' Hrest ltac:(cbn in Hn; lia))
      as (Hrow & Hcol & Hlf).
    unfold skipWhitespace_body in Hrow, Hcol, Hlf |- *.
    rewrite (At_getChar _ _ _ HAt) in Hrow, Hcol, Hlf |- *.
    cbn [hd_error charIs] in Hrow, Hcol, Hlf |- *.
    destruct (Z.eqb_spec w 10) as [->|Hne].
    + split.
      { rewrite Hrow. cbn [count_occ]. destruct (Z.eq_dec 10 10); [|congruence].
        cbn [row set_col set_row advance set_pos]. lia. }
      split; [intros Hin; exfalso; apply Hin; now left|].
      intros a b Hab Hb. destruct a as [|a0 a].
      * cbn [app] in Hab. injection Hab as <-.
        rewrite (Hcol Hb). reflexivity.
      * cbn [app] in Hab. injection Hab as _ Hab. now apply (Hlf a b).
    + split.
      { rewrite Hrow. cbn [count_occ]. destruct (Z.eq_dec w 10); [congruence|].
        reflexivity. }
      split.
      { intros Hin. rewrite Hcol by (intros H; apply Hin; now right).
        rewrite length_cons. cbn [col advance set_col set_pos]. lia. }
      intros a b Hab Hb. destruct a as [|a0 a].
      * cbn [app] in Hab. injection Hab as Hw10 _. congruence.
      * cbn [app] in Hab. injection Hab as _ Hab. now apply (Hlf a b).
Qed.

(** X3.  Over a run [ws] of whitespace, [skipWhitespace] adds to the row the
    number of line feeds in the run; the column is advanced by the length of
    the run when it holds no line feed, and is the number of units after the
    last line feed otherwise. *)
Theorem skipWhitespace_tracks_lines :
  forall t pre ws rest,
    At t pre (ws ++ rest) ->
    Forall (fun c => isWhitespace' (Some c) = true) ws ->
    isWhitespace' (hd_error rest) = false ->
    pos (skipWhitespace' t) = pos t + JS.length ws
    /\ row (skipWhitespace' t) = row t + Z.of_nat (count_occ Z.eq_dec ws 0x0a)
    /\ (~ In 0x0a ws -> col (skipWhitespace' t) = col t + JS.length ws)
    /\ (forall a b, ws = a ++ 0x0a :: b -> ~ In 0x0a b ->
          col (skipWhitespace' t) = JS.length b).
Proof.
  intros t pre ws rest HAt Hws Hrest. split.
  - destruct (skipWhitespace_run _ _ _ _ HAt Hws Hrest)
      as [_ Hp].
    destruct HAt as [_ Hp0]. rewrite Hp, Hp0, length_app. reflexivity.
  - unfold skipWhitespace. apply (skipWhitespace_loop_rowcol ws _ t pre rest); auto.
    rewrite (At_remaining _ _ _ HAt), List.length_app. lia.
Qed.

(** ** The end of the token stream *)

Lemma nextToken_in_sentinel_atEnd fuel :
  forall frames t t', nextToken_in' frames fuel t = Ret (None, t') ->
    atEnd t' = true /\ skipWhitespace' t' = t'.
Proof.
  induction fuel as [|fuel IH]; intros frames t t' H; [discriminate|].
  cbn [nextToken_in] in H.
  pose proof (skipWhitespace_idempotent t) as Hid.
  set (t0 := skipWhitespace' t) in *. clearbody t0.
  destruct (atEnd t0) eqn:E.
  - injection H as <-. split; [exact E|exact Hid].
  - repeat match type of H with
      | (if ?b then _ else _) = _ => destruct b
      end;
      try (unfold token in H; discriminate).
    + destruct (readComment fuel t0) as [[tok t1]| |]; cbn in H; discriminate.
    + destruct (readNumber' t0) as [[tok t1]| |]; cbn in H; discriminate.
    + destruct frames as [|frames]; [discriminate|]. apply IH in H. exact H.
Qed.

Lemma nextToken_sentinel_atEnd fuel :
  forall t t', nextToken' fuel t = Ret (None, t') ->
    atEnd t' = true /\ skipWhitespace' t' = t'.
Proof. intros t t'. apply nextToken_in_sentinel_atEnd. Qed.

(** X4.  [nextToken] returns the sentinel only with the cursor at the end of
    the input, and from then on every call returns the sentinel again and
    leaves the tokenizer as it is. *)
Theorem sentinel_is_final :
  forall fuel t t',
    nextToken' fuel t = Ret (None, t') ->
    atEnd t' = true
    /\ forall fuel', nextToken' (S fuel') t' = Ret (None, t').
Proof.
  intros fuel t t' H. apply nextToken_sentinel_atEnd in H.
  destruct H as [E Hid]. split; [exact E|].
  intros fuel'. unfold nextToken. cbn [nextToken_in]. rewrite Hid, E. reflexivity.
Qed.


(** ** The dispatch of nextToken, seen as a relation *)

Local Abbreviation unexpected' :=
  (unexpected LETTER_CHAR_CODES DECIMAL_DIGIT_CHAR_CODES).
Local Abbreviation Resync' :=
  (Resync LETTER_CHAR_CODES JAVA_WHITESPACE_CHAR_CODES DECIMAL_DIGIT_CHAR_CODES).
Local Abbreviation Reads' :=
  (Reads LETTER_CHAR_CODES JAVA_WHITESPACE_CHAR_CODES
     DECIMAL_DIGIT_CHAR_CODES CONSTANTS pow10 bigIntTooBig).

Lemma charIs_false_neq c k : charIs c k = false -> c <> Some k.
Proof.
  intros H E. subst c. cbn in H. now rewrite Z.eqb_refl in H.
Qed.

Ltac char_facts :=
  repeat match goal with
    | H : charIs _ _ = true |- _ => apply charIs_true in H
    end.

Ltac in_table := cbn; tauto.

Ltac pair_absent :=
  let HIn := fresh "HIn" in
  intros ? ? HIn; cbn in HIn;
  repeat (destruct HIn as [HIn|HIn];
          [try discriminate HIn;
           try (injection HIn as <- <-; apply charIs_false_neq; assumption)|]);
  try contradiction.

Lemma token_inv p r t' :
  token p = Ret (r, t') -> r = Some (fst p) /\ t' = snd p.
Proof. unfold token. intros H. injection H as <- <-. split; reflexivity. Qed.

Lemma nextToken_in_view fuel :
  forall frames t r t',
    nextToken_in' frames fuel t = Ret (r, t') ->
    exists t0,
      Resync' t t0
      /\ ((r = None /\ atEnd t0 = true /\ t' = t0)
          \/ (atEnd t0 = false
              /\ exists fuel' p, Reads' fuel' t0 p /\ r = Some (fst p) /\ t' = snd p)).
Proof.
  induction fuel as [|fuel IH]; intros frames t r t' H; [discriminate|].
  cbn [nextToken_in] in H.
  pose proof (Resync_here LETTER_CHAR_CODES JAVA_WHITESPACE_CHAR_CODES
                DECIMAL_DIGIT_CHAR_CODES t) as Hhere.
  pose proof (Resync_skip LETTER_CHAR_CODES JAVA_WHITESPACE_CHAR_CODES
                DECIMAL_DIGIT_CHAR_CODES t) as Hskip.
  set (t0 := skipWhitespace' t) in *. clearbody t0.
  destruct (atEnd t0) eqn:E.
  { injection H as <- <-. exists t0. split; [exact Hhere|]. left. auto. }
  repeat match type of H with
    | (if ?b then _ else _) = _ => destruct b eqn:?
    end;
    try (match type of H with
         | token ?X = _ =>
             apply token_inv in H; destruct H as [-> ->];
             exists t0; split; [exact Hhere|]; right; split; [exact E|];
             exists fuel, X; split; [|split; reflexivity]
         end;
         char_facts;
         first
           [ now apply Reads_string
           | now apply Reads_marker
           | now apply Reads_ellipsis
           | eapply Reads_plain; [|eassumption]; in_table
           | eapply Reads_pair; [|eassumption|eassumption]; in_table
           | eapply Reads_boolean; [|eassumption]; in_table
           | eapply Reads_fallback;
             [|eassumption|pair_absent
              |intros; try discriminate; apply charIs_false_neq; assumption];
             in_table ]).
  - (* comment *)
    destruct (readComment fuel t0) as [p| |] eqn:Ec; cbn [bind] in H;
      try discriminate.
    apply token_inv in H. destruct H as [-> ->].
    exists t0. split; [exact Hhere|]. right. split; [exact E|].
    exists fuel, p. split; [|split; reflexivity].
    char_facts. now apply Reads_comment.
  - (* number *)
    destruct (readNumber' t0) as [p| |] eqn:En; cbn [bind] in H;
      try discriminate.
    apply token_inv in H. destruct H as [-> ->].
    exists t0. split; [exact Hhere|]. right. split; [exact E|].
    exists fuel, p. split; [|split; reflexivity].
    destruct (getChar t0) as [c|] eqn:Ec; [|discriminate].
    eapply Reads_number; [exact Ec| |eassumption|exact En].
    unfold inSwitch, switchCases. cbn [existsb charIs] in *.
    repeat match goal with
      | H : (c =? _) = false |- _ => rewrite H; clear H
      end. reflexivity.
  - (* identifier *)
    apply token_inv in H. destruct H as [-> ->].
    exists t0. split; [exact Hhere|]. right. split; [exact E|].
    exists fuel, (readIdent' t0). split; [|split; reflexivity].
    destruct (getChar t0) as [c|] eqn:Ec; [|discriminate].
    eapply Reads_ident; [exact Ec| |eassumption|].
    + unfold inSwitch, switchCases. cbn [existsb charIs] in *.
      repeat match goal with
        | H : (c =? _) = false |- _ => rewrite H; clear H
        end. reflexivity.
    + match goal with
      | H : charIs (Some c) 95 || isLetter' (Some c) = true |- _ =>
          apply orb_prop in H; destruct H as [H|H];
          [left; apply charIs_true in H; congruence|right; exact H]
      end.
  - (* unexpected unit *)
    destruct frames as [|frames]; [discriminate|].
    apply IH in H. destruct H as (t1 & Hr & Hres).
    exists t1. split; [|exact Hres].
    apply Hskip; [reflexivity| |exact Hr].
    split; [|split; assumption].
    intros k HIn. cbn in HIn.
    repeat (destruct HIn as [<-|HIn]; [assumption|]). contradiction.
Qed.

Lemma nextToken_view fuel :
  forall t r t',
    nextToken' fuel t = Ret (r, t') ->
    exists t0,
      Resync' t t0
      /\ ((r = None /\ atEnd t0 = true /\ t' = t0)
          \/ (atEnd t0 = false
              /\ exists fuel' p, Reads' fuel' t0 p /\ r = Some (fst p) /\ t' = snd p)).
Proof. intros t r t'. apply nextToken_in_view. Qed.


Lemma Resync_facts t t0 :
  Resync' t t0 ->
  input t0 = input t /\ pos t <= pos t0 /\ Extends t t0
  /\ (atEnd t0 = true \/ isWhitespace' (getChar t0) = false).
Proof.
  induction 1 as [t|t t0 E U R IH].
  - destruct (skipWhitespace_fields t) as (Hi & _ & _ & _ & _ & _ & Hp).
    split; [exact Hi|]. split; [exact Hp|].
    split; [apply skipWhitespace_Extends|].
    apply (skipWhitespace_loop_post (remaining t) t (le_n _)).
  - destruct (skipWhitespace_fields t) as (Hi & _ & _ & _ & _ & _ & Hp).
    destruct IH as (Hi' & Hp' & Ex & Hstop).
    cbn [input pos advance set_col set_pos error0 error set_store] in Hi', Hp'.
    split; [congruence|]. split; [lia|]. split; [|exact Hstop].
    eapply Extends_trans; [apply skipWhitespace_Extends|].
    eapply Extends_trans; [|exact Ex]. ext_chain.
Qed.

Lemma readString_loop_end n :
  forall pos0 t c start value,
    Token.end_ (fst (readString_loop n pos0 t c start value))
    = getPosition (snd (readString_loop n pos0 t c start value)).
Proof.
  induction n as [|n IH]; intros pos0 t c start value; cbn [readString_loop].
  - destruct (charIs c 39); reflexivity.
  - destruct (charIs c 39); [reflexivity|].
    unfold readString_body, readString_escape, readString_tail.
    repeat match goal with
      | |- context [if ?b then _ else _] => destruct b
      end; try reflexivity; apply IH.
Qed.

(** Where the token of a reader starts and ends. *)
Lemma Reads_span fuel t0 p :
  Reads' fuel t0 p ->
  Token.start (fst p) = getPosition t0
  /\ Token.end_ (fst p) = getPosition (snd p)
  /\ input (snd p) = input t0.
Proof.
  intros HR. destruct HR.
  - destruct (readString t0) as [tok t'] eqn:Hs. cbn [fst snd].
    destruct (readString_shape t0 tok t' Hs) as [Ex (_ & St & _)].
    split; [exact St|]. split; [|apply (ext_input _ _ Ex)].
    unfold readString in Hs.
    match type of Hs with
    | readString_loop ?n ?p ?u ?c ?s ?v = _ =>
        pose proof (readString_loop_end n p u c s v) as He; rewrite Hs in He
    end. exact He.
  - destruct (allowNewLineMarkers t0); repeat split.
  - repeat split.
  - repeat split.
  - repeat split.
  - unfold readEllipsis.
    destruct (negb (charIs (getChar (advance t0 1)) 46)
              || negb (charIs (peekChar (advance t0 1)) 46)); repeat split.
  - unfold getBooleanOp.
    destruct (negb (charIs (peekChar t0) c)); repeat split.
  - destruct p as [tok t']. cbn [fst snd].
    match goal with H : readComment _ _ = _ |- _ => rename H into Hc end.
    pose proof Hc as Hc'. apply readComment_shape in Hc'. destruct Hc' as [Ex _].
    unfold readComment in Hc.
    destruct (readComment_loop fuel _ []) as [[t2 v]| |]; cbn [bind] in Hc;
      try discriminate.
    injection Hc as <- <-.
    split; [destruct (allowComments t0); reflexivity|].
    split; [reflexivity|apply (ext_input _ _ Ex)].
  - destruct p as [tok t']. cbn [fst snd].
    match goal with H : readNumber _ _ _ _ = _ |- _ => rename H into Hn end.
    pose proof Hn as Hn'. apply readNumber_shape in Hn'. destruct Hn' as [Ex _].
    split; [|split; [|apply (ext_input _ _ Ex)]];
      unfold readNumber in Hn;
      repeat match type of Hn with
        | (if ?b then _ else _) = _ => destruct b
        | match ?x with Some _ => _ | None => _ end = _ => destruct x
        | (let '(_, _) := ?x in _) = _ => destruct x
        | bind ?m _ = _ => destruct m; cbn [bind] in Hn; try discriminate
        end; injection Hn as <- <-; reflexivity.
  - destruct (readIdent' t0) as [tok t'] eqn:Hi. cbn [fst snd].
    pose proof (readIdent_shape _ _ _ Hi) as [Ex _].
    unfold readIdent in Hi. injection Hi as <- <-.
    repeat split. apply (ext_input _ _ Ex).
Qed.

(** X5.  The end position of every token that [nextToken] returns is the
    position of the cursor after the call; the token does not start before
    the cursor of the call; the input is not changed. *)
Theorem token_span_and_cursor :
  forall fuel t tok t',
    nextToken' fuel t = Ret (Some tok, t') ->
    Token.end_ tok = getPosition t'
    /\ pos t <= Position.pos (Token.start tok)
    /\ input t' = input t.
Proof.
  intros fuel t tok t' H. apply nextToken_view in H.
  destruct H as (t0 & HR & [(Hn & _)|(_ & fuel' & p & Hp & Hr & ->)]);
    [discriminate|].
  injection Hr as ->.
  destruct (Reads_span _ _ _ Hp) as (Hs & He & Hi).
  destruct (Resync_facts _ _ HR) as (Hi0 & Hp0 & _).
  split; [exact He|]. split; [rewrite Hs; exact Hp0|congruence].
Qed.


Lemma TextAt_1 t c : getChar t = Some c -> TextAt (input t) (pos t) [c].
Proof.
  intros H i Hi. cbn in Hi. assert (i = 0)%nat as -> by lia.
  rewrite Z.add_0_r. exact H.
Qed.

Lemma TextAt_2 t c1 c2 :
  getChar t = Some c1 -> peekChar t = Some c2 ->
  TextAt (input t) (pos t) [c1; c2].
Proof.
  intros H1 H2 i Hi. cbn in Hi.
  destruct i as [|[|i]]; [rewrite Z.add_0_r; exact H1|exact H2|lia].
Qed.

Lemma TextAt_3 t c1 c2 c3 :
  getChar t = Some c1 -> peekChar t = Some c2 ->
  JS.charCodeAt (input t) (pos t + 2) = Some c3 ->
  TextAt (input t) (pos t) [c1; c2; c3].
Proof.
  intros H1 H2 H3 i Hi. cbn in Hi.
  destruct i as [|[|[|i]]]; [rewrite Z.add_0_r; exact H1|exact H2|exact H3|lia].
Qed.

Ltac table H :=
  cbn [In plainOps pairOps fallbackOps booleanOps] in H;
  repeat (destruct H as [H|H]); try (exfalso; exact H).

(** What a reader that returns a punctuation or operator token has read:
    one of the texts of the token's kind, at the cursor; and a one-unit
    text only where no two-unit operator fits. *)
Lemma Reads_operator fuel t0 p :
  Reads' fuel t0 p ->
  valueless (Token.kind (fst p)) = true ->
  exists text,
    In text (lexemes (Token.kind (fst p)))
    /\ TextAt (input t0) (pos t0) text
    /\ pos (snd p) = pos t0 + JS.length text
    /\ (forall c c2 ty2, text = [c] -> In (c, c2, ty2) pairOps ->
        peekChar t0 <> Some c2)
    /\ (text = [0x2f] -> peekChar t0 <> Some 0x2f).
Proof.
  intros HR Hv. destruct HR.
  - destruct (readString t0) as [tok t'] eqn:Hs. cbn [fst snd] in *.
    destruct (readString_shape t0 tok t' Hs) as [_ (K & _)].
    rewrite K in Hv. discriminate.
  - exists [0x24]. split; [now left|]. split; [now apply TextAt_1|].
    split; [destruct (allowNewLineMarkers t0); reflexivity|].
    split; [|discriminate].
    intros c c2 ty E HI; injection E as <-.
    table HI; congruence.
  - exists [c]. cbn [fst snd getOneCharToken Token3 Token.kind].
    split; [table H; injection H as <- <-; now left|].
    split; [now apply TextAt_1|]. split; [reflexivity|].
    split.
    + intros c' c2 ty2 E HI; injection E as <-.
      table H; table HI; congruence.
    + intros E; injection E as ->. table H; congruence.
  - exists [c1; c2]. cbn [fst snd getTwoCharToken Token3 Token.kind].
    split; [table H; injection H as <- <- <-; now left|].
    split; [now apply TextAt_2|]. split; [reflexivity|].
    split; [intros ? ? ? E; discriminate E|intros E; discriminate E].
  - exists [c]. cbn [fst snd getOneCharToken Token3 Token.kind].
    split; [table H; injection H as <- <-; now left|].
    split; [now apply TextAt_1|]. split; [reflexivity|].
    split.
    + intros c' c2 ty2 E HI; injection E as <-. now apply (H1 c2 ty2).
    + intros E; injection E as ->. now apply H2.
  - unfold readEllipsis. cbn [fst snd Token3 Token.kind].
    destruct (negb (charIs (getChar (advance t0 1)) 46)
              || negb (charIs (peekChar (advance t0 1)) 46)) eqn:E.
    + exists [0x2e]. split; [right; now left|].
      split; [now apply TextAt_1|]. split; [reflexivity|].
      split; [|discriminate].
      intros c c2 ty2 E' HI; injection E' as <-. table HI; congruence.
    + apply orb_false_iff in E. destruct E as [E1 E2].
      apply negb_false_iff, charIs_true in E1, E2.
      exists [0x2e; 0x2e; 0x2e]. split; [now left|].
      split; [apply TextAt_3; [assumption|exact E1|]|].
      * unfold peekChar in E2. cbn [input pos advance set_col set_pos] in E2.
        replace (pos t0 + 2) with (pos t0 + 1 + 1) by lia. exact E2.
      * split; [cbn; lia|].
        split; [intros ? ? ? E; discriminate E|intros E; discriminate E].
  - unfold getBooleanOp. cbn [fst snd Token3 Token.kind].
    destruct (negb (charIs (peekChar t0) c)) eqn:E.
    + exists [c].
      split; [table H; injection H as <- <-; right; now left|].
      split; [now apply TextAt_1|]. split; [reflexivity|].
      split.
      * intros c' c2 ty2 E' HI; injection E' as <-.
        table H; table HI; congruence.
      * intros E'; injection E' as ->. table H; congruence.
    + apply negb_false_iff, charIs_true in E.
      exists [c; c].
      split; [table H; injection H as <- <-; now left|].
      split; [now apply TextAt_2|].
      split; [cbn; lia|].
      split; [intros ? ? ? E'; discriminate E'|intros E'; discriminate E'].
  - destruct p as [tok t']. cbn [fst snd] in *.
    unfold readComment in H1.
    destruct (readComment_loop fuel _ []) as [[t2 v]| |]; cbn [bind] in H1;
      try discriminate.
    injection H1 as <- <-. discriminate Hv.
  - destruct p as [tok t']. cbn [fst snd] in *. exfalso.
    unfold readNumber in H2.
    repeat match type of H2 with
      | (if ?b then _ else _) = _ => destruct b
      | match ?x with Some _ => _ | None => _ end = _ => destruct x
      | (let '(_, _) := ?x in _) = _ => destruct x
      | bind ?m _ = _ => destruct m; cbn [bind] in H2; try discriminate
      end; injection H2 as <- <-; discriminate Hv.
  - exfalso. unfold readIdent in Hv. cbn [fst Token4 Token.kind] in Hv.
    repeat match type of Hv with
      | context [if ?b then _ else _] => destruct b
      end; discriminate Hv.
Qed.

(** X6.  A punctuation or operator token covers one of the texts of its
    kind: the input holds that text at the token's start, and the token
    ends right after it. *)
Theorem operator_token_covers_its_text :
  forall fuel t tok t',
    nextToken' fuel t = Ret (Some tok, t') ->
    valueless (Token.kind tok) = true ->
    exists text,
      In text (lexemes (Token.kind tok))
      /\ TextAt (input t) (Position.pos (Token.start tok)) text
      /\ Position.pos (Token.end_ tok)
         = Position.pos (Token.start tok) + JS.length text.
Proof.
  intros fuel t tok t' H Hv. apply nextToken_view in H.
  destruct H as (t0 & HR & [(Hn & _)|(_ & fuel' & p & Hp & Hr & ->)]);
    [discriminate|].
  injection Hr as ->.
  destruct (Reads_span _ _ _ Hp) as (Hs & He & _).
  destruct (Resync_facts _ _ HR) as (Hi0 & _).
  destruct (Reads_operator _ _ _ Hp Hv) as (text & Hin & Htx & Hpos & _).
  exists text. rewrite Hs, He. cbn [getPosition Position.pos].
  rewrite <- Hi0. auto.
Qed.

(** X7.  The longest operator wins: a token of a one-unit kind whose unit
    also begins a two-unit operator is returned only when the unit after it
    does not complete that operator, nor, for the division sign, a comment. *)
Theorem longest_operator_wins :
  forall fuel t tok t' c,
    nextToken' fuel t = Ret (Some tok, t') ->
    In (c, Token.kind tok) fallbackOps ->
    (forall c2 ty2, In (c, c2, ty2) pairOps ->
       JS.charCodeAt (input t) (Position.pos (Token.end_ tok)) <> Some c2)
    /\ (c = 0x2f ->
        JS.charCodeAt (input t) (Position.pos (Token.end_ tok)) <> Some 0x2f).
Proof.
  intros fuel t tok t' c H Hk. apply nextToken_view in H.
  destruct H as (t0 & HR & [(Hn & _)|(_ & fuel' & p & Hp & Hr & ->)]);
    [discriminate|].
  injection Hr as ->.
  destruct (Reads_span _ _ _ Hp) as (_ & He & _).
  destruct (Resync_facts _ _ HR) as (Hi0 & _).
  assert (Hv : valueless (Token.kind (fst p)) = true).
  { table Hk; injection Hk as _ <-; reflexivity. }
  destruct (Reads_operator _ _ _ Hp Hv) as (text & Hin & _ & Hpos & Hpair & Hdiv).
  assert (Ht : text = [c]).
  { table Hk; injection Hk as <- E'; rewrite <- E' in Hin;
      cbn in Hin; intuition congruence. }
  subst text. rewrite He. cbn [getPosition Position.pos].
  rewrite Hpos, <- Hi0. change (JS.length [c]) with 1.
  split.
  - intros c2 ty2 HI. exact (Hpair c c2 ty2 eq_refl HI).
  - intros ->. exact (Hdiv eq_refl).
Qed.


Lemma Resync_report t t0 :
  Resync' t t0 ->
  (forall i, pos t <= i < pos t0 ->
     isWhitespace' (JS.charCodeAt (input t) i) = true
     \/ unexpected' (JS.charCodeAt (input t) i))
  /\ exists ds, errorsOf t0 = errorsOf t ++ ds
       /\ UnexpectedReport JAVA_WHITESPACE_CHAR_CODES
            (input t) (pos t) (pos t0) ds.
Proof.
  induction 1 as [t|t t0 E U R IH].
  - pose proof (skipWhitespace_loop_post (remaining t) t (le_n _)) as HH.
    change (skipWhitespace_loop' (remaining t) t) with (skipWhitespace' t) in HH.
    destruct HH as [_ Hws].
    split; [intros i Hi; left; now apply Hws|].
    exists []. rewrite app_nil_r. split; [apply errorsOf_skipWhitespace|].
    split; [constructor|]. split; [constructor|].
    intros i Hi Hn. rewrite (Hws i Hi) in Hn. discriminate.
  - pose proof (skipWhitespace_loop_post (remaining t) t (le_n _)) as HH.
    change (skipWhitespace_loop' (remaining t) t) with (skipWhitespace' t) in HH.
    destruct HH as [Hstop Hws].
    destruct (skipWhitespace_fields t) as (Hin & _ & _ & _ & _ & _ & Hp).
    destruct Hstop as [Hstop|Hstop]; [congruence|].
    pose proof (Resync_facts _ _ R) as (_ & Hp0 & _).
    destruct IH as (Hsk & ds & Hds & HF & HS & HC).
    set (t1 := skipWhitespace' t) in *.
    cbn [input pos advance set_col set_pos error0 error set_store]
      in Hsk, HF, HS, HC, Hp0.
    assert (Hc : JS.charCodeAt (input t) (pos t1) = getChar t1)
      by (unfold getChar; now rewrite Hin).
    split.
    + intros i Hi.
      destruct (Z_lt_ge_dec i (pos t1)) as [L|G]; [left; apply Hws; lia|].
      destruct (Z.eq_dec i (pos t1)) as [->|N]; [right; now rewrite Hc|].
      rewrite <- Hin. apply Hsk. lia.
    + exists (Diagnostic.mk UnexpectedToken (getPosition t1) (getPosition t1)
                :: ds).
      split.
      { rewrite Hds.
        change (errorsOf (advance (error0 t1 UnexpectedToken) 1))
          with (errorsOf (error0 t1 UnexpectedToken)).
        rewrite errorsOf_error0. unfold t1 at 1.
        rewrite errorsOf_skipWhitespace, <- app_assoc. reflexivity. }
      split; [|split].
      * constructor.
        { cbn [Diagnostic.kind Diagnostic.start Diagnostic.end_ getPosition
                 Position.pos].
          split; [reflexivity|]. split; [reflexivity|]. split; [lia|].
          now rewrite Hc. }
        eapply Forall_impl; [|exact HF].
        intros d (K & Ee & Hr & Hw). rewrite Hin in Hw.
        split; [exact K|]. split; [exact Ee|]. split; [lia|exact Hw].
      * cbn [map]. constructor; [exact HS|].
        apply Forall_map. eapply Forall_impl; [|exact HF].
        intros d (_ & _ & Hr & _). cbn [Diagnostic.start getPosition Position.pos].
        lia.
      * intros i Hi Hn.
        destruct (Z_lt_ge_dec i (pos t1)) as [L|G].
        { rewrite Hws in Hn by lia. discriminate. }
        destruct (Z.eq_dec i (pos t1)) as [->|N].
        { eexists. split; [now left|reflexivity]. }
        destruct (HC i) as (d & Hd & Hdp); [lia|now rewrite Hin|].
        exists d. split; [now right|exact Hdp].
Qed.

Lemma Reads_Extends fuel t0 p : Reads' fuel t0 p -> Extends t0 (snd p).
Proof.
  intros HR. destruct HR.
  - destruct (readString t0) as [tok t'] eqn:Hs.
    apply (readString_shape t0 tok t' Hs).
  - cbn [snd getOneCharToken]. ext_chain.
  - cbn [snd getOneCharToken]. ext_chain.
  - cbn [snd getTwoCharToken]. ext_chain.
  - cbn [snd getOneCharToken]. ext_chain.
  - cbn [snd readEllipsis]. ext_chain.
  - cbn [snd getBooleanOp]. ext_chain.
  - destruct p as [tok t']. eapply readComment_shape; eassumption.
  - destruct p as [tok t']. eapply readNumber_shape; eassumption.
  - destruct (readIdent' t0) as [tok t'] eqn:Hi.
    apply (readIdent_shape _ _ _ Hi).
Qed.

(** X8.  What [nextToken] skips before the token it returns, or before the
    end of the input, are whitespace and units that no token begins with;
    each skipped unit that is not whitespace is recorded as one
    [UnexpectedToken] diagnostic at its position, in order, ahead of the
    diagnostics of the token itself; the sentinel adds no other diagnostic. *)
Theorem skipped_units_are_reported :
  forall fuel t r t',
    nextToken' fuel t = Ret (r, t') ->
    let stop := match r with
                | Some tok => Position.pos (Token.start tok)
                | None => pos t'
                end in
    (forall i, pos t <= i < stop ->
       isWhitespace' (JS.charCodeAt (input t) i) = true
       \/ unexpected' (JS.charCodeAt (input t) i))
    /\ exists ds ds',
         errorsOf t' = errorsOf t ++ ds ++ ds'
         /\ UnexpectedReport JAVA_WHITESPACE_CHAR_CODES (input t) (pos t) stop ds
         /\ (r = None -> ds' = []).
Proof.
  intros fuel t r t' H. apply nextToken_view in H.
  destruct H as (t0 & HR & [(-> & _ & ->)|(_ & fuel' & p & Hp & -> & ->)]);
    cbv zeta.
  - destruct (Resync_report _ _ HR) as (Hsk & ds & Hds & Hrep).
    split; [exact Hsk|]. exists ds, []. rewrite app_nil_r. auto.
  - destruct (Resync_report _ _ HR) as (Hsk & ds & Hds & Hrep).
    destruct (Reads_span _ _ _ Hp) as (Hs & _ & _).
    destruct (ext_appended _ _ (Reads_Extends _ _ _ Hp)) as [ds' Hds'].
    rewrite Hs. cbn [getPosition Position.pos].
    split; [exact Hsk|]. exists ds, ds'.
    split; [rewrite Hds', Hds, app_assoc; reflexivity|].
    split; [exact Hrep|discriminate].
Qed.


(** ** readComment on comments that a line feed ends *)

Lemma find_present (ch : Z) (l rest : JS.str) (i : Z) :
  ~ In ch l -> JS.find ch (l ++ ch :: rest) i = i + JS.length l.
Proof.
  revert i. induction l as [|c l IH]; intros i H; cbn [JS.find app].
  - rewrite Z.eqb_refl. cbn. lia.
  - destruct (Z.eqb_spec c ch) as [->|_]; [exfalso; apply H; now left|].
    rewrite IH by (intros HIn; apply H; now right).
    rewrite length_cons. lia.
Qed.

Lemma indexOf_present (pre l rest : JS.str) (ch : Z) :
  ~ In ch l ->
  JS.indexOf (pre ++ l ++ ch :: rest) ch (JS.length pre)
  = JS.length pre + JS.length l.
Proof.
  intros H. unfold JS.indexOf.
  pose proof (length_nonneg pre). pose proof (length_nonneg (l ++ ch :: rest)).
  rewrite length_app, Z.max_l, Z.min_l by lia.
  unfold JS.length at 1. rewrite Nat2Z.id, skipn_app, Nat.sub_diag, skipn_all.
  cbn [skipn app]. now apply find_present.
Qed.

Lemma not_comment_start t pre rest :
  At t pre rest -> (forall r, rest <> 0x2f :: 0x2f :: r) ->
  negb (atEnd t) && charIs (getChar t) 0x2f && charIs (peekChar t) 0x2f = false.
Proof.
  intros HAt Hr. destruct rest as [|c1 rest].
  - now rewrite (At_atEnd_nil _ _ HAt).
  - rewrite (At_atEnd_cons _ _ _ _ HAt), (At_getChar _ _ _ HAt),
      (At_peekChar _ _ _ _ HAt). cbn [negb andb hd_error charIs].
    destruct (Z.eqb_spec c1 0x2f) as [->|_]; [|reflexivity].
    destruct rest as [|c2 rest]; [reflexivity|]. cbn [hd_error charIs andb].
    destruct (Z.eqb_spec c2 0x2f) as [->|_]; [|reflexivity].
    exfalso. now apply (Hr rest).
Qed.

Lemma readComment_loop_block bodies :
  forall fuel t pre rest value,
    bodies <> [] ->
    At t pre (commentBlock bodies ++ rest) ->
    Forall (fun b => ~ In 0x0a b) bodies ->
    (forall r, rest <> 0x2f :: 0x2f :: r) ->
    (List.length bodies <= fuel)%nat ->
    readComment_loop fuel t value
    = Ret (set_row (set_pos t (pos t + JS.length (commentBlock bodies)))
             (row t + Z.of_nat (List.length bodies)),
           value ++ commentBlock bodies).
Proof.
  induction bodies as [|b bodies IH]; intros fuel t pre rest value Hne HAt HF Hr Hfuel;
    [congruence|].
  destruct fuel as [|fuel]; [cbn in Hfuel; lia|].
  inversion HF as [|? ? Hb HF']; subst.
  cbn [commentBlock flat_map] in HAt |- *.
  fold (commentBlock bodies) in HAt |- *.
  set (line := 0x2f :: 0x2f :: b ++ [0x0a]) in *.
  destruct HAt as [Hi Hp].
  assert (Hidx : JS.indexOf (input t) 0x0a (pos t) + 1 = pos t + JS.length line).
  { rewrite Hi, Hp.
    change ((line ++ commentBlock bodies) ++ rest)
      with ((0x2f :: 0x2f :: b ++ [0x0a]) ++ commentBlock bodies ++ rest)
      || rewrite <- app_assoc.
    replace (line ++ commentBlock bodies ++ rest)
      with ((0x2f :: 0x2f :: b) ++ 0x0a :: commentBlock bodies ++ rest)
      by (unfold line; cbn [app]; rewrite <- app_assoc; reflexivity).
    rewrite indexOf_present.
    - unfold line. rewrite !length_cons, length_app, !length_cons.
      change (JS.length []) with 0. lia.
    - intros [E|[E|E]]; [discriminate E|discriminate E|now apply Hb]. }
  assert (Hsl : JS.slice (input t) (pos t) (pos t + JS.length line) = line).
  { rewrite Hi, Hp, <- app_assoc. apply slice_app. }
  cbn [readComment_loop]. rewrite Hidx, Hsl.
  set (t1 := set_row (set_pos t (pos t + JS.length line))
               (row (set_pos t (pos t + JS.length line)) + 1)).
  assert (HAt1 : At t1 (pre ++ line) (commentBlock bodies ++ rest)).
  { split; cbn [t1 input pos set_row set_pos].
    - rewrite Hi, <- !app_assoc. reflexivity.
    - rewrite Hp, length_app. reflexivity. }
  destruct bodies as [|b' bodies].
  - cbn [commentBlock flat_map app] in HAt1 |- *.
    rewrite (not_comment_start _ _ _ HAt1 Hr).
    rewrite !app_nil_r. reflexivity.
  - assert (Hc : negb (atEnd t1) && charIs (getChar t1) 0x2f
                 && charIs (peekChar t1) 0x2f = true).
    { cbn [commentBlock flat_map app] in HAt1.
      rewrite (At_atEnd_cons _ _ _ _ HAt1), (At_getChar _ _ _ HAt1),
        (At_peekChar _ _ _ _ HAt1). reflexivity. }
    rewrite Hc.
    rewrite (IH fuel t1 (pre ++ line) rest (value ++ line));
      [|discriminate|exact HAt1|exact HF'|exact Hr|cbn in Hfuel |- *; lia].
    rewrite <- app_assoc. f_equal. f_equal.
    unfold set_row, set_pos. cbn [t1 input allowComments allowNewLineMarkers
      pos row col errors warnings store set_row set_pos].
    rewrite (length_app line). f_equal; cbn [List.length]; lia.
Qed.

(** X9.  On consecutive comment lines, each ended by a line feed and the
    last not followed by [//], [readComment] returns one [Comment] token for
    all of them: its value is the text of the lines with their slashes and
    line feeds, it ends after the last line feed with the row advanced by
    the number of lines and the column at 0; one [UnexpectedComment]
    diagnostic is recorded exactly when comments are not allowed. *)
Theorem readComment_joins_comment_lines :
  forall fuel t pre bodies rest,
    bodies <> [] ->
    At t pre (commentBlock bodies ++ rest) ->
    Forall (fun b => ~ In 0x0a b) bodies ->
    (forall r, rest <> 0x2f :: 0x2f :: r) ->
    (List.length bodies <= fuel)%nat ->
    exists t',
      readComment fuel t
      = Ret (Token4 Comment (getPosition t)
               (Position.mk (pos t + JS.length (commentBlock bodies))
                  (row t + Z.of_nat (List.length bodies)) 0)
               (StringV (commentBlock bodies)), t')
      /\ At t' (pre ++ commentBlock bodies) rest
      /\ row t' = row t + Z.of_nat (List.length bodies) /\ col t' = 0
      /\ errorsOf t'
         = errorsOf t
           ++ (if allowComments t then []
               else [Diagnostic.mk UnexpectedComment (getPosition t) (getPosition t)]).
Proof.
  intros fuel t pre bodies rest Hne HAt HF Hr Hfuel.
  unfold readComment.
  set (t1 := if allowComments t then t else error0 t UnexpectedComment).
  assert (HAt1 : At t1 pre (commentBlock bodies ++ rest))
    by (unfold t1; destruct (allowComments t); exact HAt).
  assert (Hpos : getPosition t1 = getPosition t)
    by (unfold t1; destruct (allowComments t); reflexivity).
  assert (Herr : errorsOf t1 = errorsOf t ++
            (if allowComments t then []
             else [Diagnostic.mk UnexpectedComment (getPosition t) (getPosition t)])).
  { unfold t1. destruct (allowComments t);
      [now rewrite app_nil_r|apply errorsOf_error0]. }
  rewrite (readComment_loop_block bodies fuel t1 pre rest [] Hne HAt1 HF Hr Hfuel).
  assert (Hp1 : pos t1 = pos t) by (injection Hpos; auto).
  assert (Hr1 : row t1 = row t) by (injection Hpos; auto).
  cbn [bind app]. eexists. split; [|split; [|split; [|split]]].
  - rewrite Hpos. f_equal. f_equal. unfold getPosition.
    cbn [pos row col set_col set_row set_pos]. rewrite Hp1, Hr1. reflexivity.
  - destruct HAt1 as [Hi Hp]. split; cbn [input pos set_col set_row set_pos].
    + rewrite Hi, app_assoc. reflexivity.
    + rewrite Hp, length_app. reflexivity.
  - cbn [row set_col set_row set_pos]. now rewrite Hr1.
  - reflexivity.
  - exact Herr.
Qed.


(** ** Progress *)

Lemma readHex_loop_pos n :
  forall t c iv, pos t < pos (fst (readHex_loop n t c iv)).
Proof.
  induction n as [|n IH]; intros t c iv; cbn [readHex_loop].
  - destruct (getChar (advance t 1)); cbn; lia.
  - destruct (getChar (advance t 1)) as [c'|]; [|cbn; lia].
    destruct (negb (atEnd (advance t 1)) && isHexDigit (Some c')); [|cbn; lia].
    specialize (IH (advance t 1) c' (Z.lor (Z.shiftl iv 4) (hexDigitValue c))).
    cbn [pos advance set_col set_pos] in IH. lia.
Qed.

Lemma readNumber_loop_pos n :
  forall start t l, pos t <= pos (fst (readNumber_loop' n start t l)).
Proof.
  induction n as [|n IH]; intros start t l; cbn [readNumber_loop].
  - destruct (atEnd t); cbn [fst]; lia.
  - destruct (atEnd t); [cbn [fst]; lia|].
    destruct (readNumber_step' start t l) as [[t1 l1]|] eqn:Es; [|cbn [fst]; lia].
    apply readNumber_step_pos in Es. destruct Es as [_ Hp].
    specialize (IH start (advance t1 1) (Num_set_c l1 (getChar (advance t1 1)))).
    cbn [pos advance set_col set_pos] in IH. lia.
Qed.

Lemma readNumber_progress t tok t' :
  readNumber' t = Ret (tok, t') -> isDigit' (getChar t) = true ->
  pos t < pos t'.
Proof.
  unfold readNumber. intros H Hd.
  destruct (charIs (getChar t) 48 && (lor20 (peekChar t) =? 120)).
  - destruct (getChar (set_pos t (pos t + 2))) as [c'|].
    + destruct (isHexDigit (Some c')).
      * destruct (readHex_loop _ _ c' 0) as [t2 iv] eqn:Eh.
        injection H as _ <-.
        pose proof (readHex_loop_pos
          (Z.to_nat (JS.length (input (set_pos t (pos t + 2)))
                     - pos (set_pos t (pos t + 2))))
          (set_pos t (pos t + 2)) c' 0) as Hp.
        rewrite Eh in Hp. cbn [fst pos set_pos] in Hp. lia.
      * injection H as _ <-. cbn. lia.
    + injection H as _ <-. cbn. lia.
  - destruct (readNumber_loop' _ (getPosition t) t _) as [t2 l2] eqn:El.
    destruct (finalValue pow10 bigIntTooBig l2); cbn [bind] in H; try discriminate.
    injection H as _ <-.
    destruct (getChar t) as [z|] eqn:Ec; [|discriminate Hd].
    pose proof (getChar_Some_atEnd _ _ Ec) as Hne.
    pose proof (atEnd_false _ Hne) as Hlt.
    destruct (Z.to_nat (JS.length (input t) - pos t)) as [|n] eqn:En; [lia|].
    cbn [readNumber_loop] in El. rewrite Hne in El.
    destruct (readNumber_step' (getPosition t) t _) as [[t1 l1]|] eqn:Es.
    + apply readNumber_step_pos in Es. destruct Es as [_ Hp].
      pose proof (readNumber_loop_pos n (getPosition t) (advance t1 1)
                    (Num_set_c l1 (getChar (advance t1 1)))) as Hq.
      rewrite El in Hq. cbn [fst pos advance set_col set_pos] in Hq. lia.
    + exfalso. unfold readNumber_step in Es. rewrite Hd in Es.
      repeat match type of Es with
        | (if ?b then _ else _) = _ => destruct b
        end; discriminate Es.
Qed.

Lemma Reads_progress fuel t0 p :
  Reads' fuel t0 p -> Token.kind (fst p) <> Comment -> pos t0 < pos (snd p).
Proof.
  intros HR Hk. destruct HR.
  - destruct (readString t0) as [tok t'] eqn:Hs.
    pose proof (Reads_span fuel t0 _ (Reads_string _ _ _ _ _ _ fuel t0 H))
      as (_ & He & _).
    rewrite Hs in He. cbn [fst snd] in *.
    destruct (readString_shape t0 tok t' Hs) as [_ (_ & _ & Hok & Herr)].
    rewrite He in Hok, Herr. cbn [getPosition Position.pos] in Hok, Herr.
    pose proof (atEnd_false _ (getChar_Some_atEnd _ _ H)).
    destruct (Token.hasError tok).
    + destruct (Herr eq_refl). lia.
    + destruct (Hok eq_refl) as (_ & _ & ?). lia.
  - destruct (allowNewLineMarkers t0); cbn; lia.
  - cbn; lia.
  - cbn; lia.
  - cbn; lia.
  - unfold readEllipsis. cbn [snd].
    destruct (negb (charIs (getChar (advance t0 1)) 46)
              || negb (charIs (peekChar (advance t0 1)) 46)); cbn; lia.
  - unfold getBooleanOp. cbn [snd].
    destruct (negb (charIs (peekChar t0) c)); cbn; lia.
  - destruct p as [tok t']. cbn [fst snd] in *. exfalso. apply Hk.
    unfold readComment in H1.
    destruct (readComment_loop fuel _ []) as [[t2 v]| |]; cbn [bind] in H1;
      try discriminate.
    injection H1 as <- _. reflexivity.
  - destruct p as [tok t']. cbn [fst snd] in *.
    eapply readNumber_progress; [eassumption|].
    rewrite H. assumption.
  - unfold readIdent. cbn [snd].
    match goal with
    | |- _ < pos (skipWhitespace' ?u) =>
        destruct (skipWhitespace_fields u) as (_ & _ & _ & _ & _ & _ & Hp)
    end.
    match type of Hp with
    | pos (readIdent_loop' ?n ?u) <= _ =>
        destruct (readIdent_loop_fields n u) as (_ & _ & _ & _ & _ & _ & Hq)
    end.
    eapply Z.lt_le_trans; [|exact Hp]. eapply Z.lt_le_trans; [|exact Hq].
    cbn. lia.
Qed.

(** X10.  Every token other than a comment covers at least one unit: its
    end offset is after its start offset, and so is the cursor after the
    call with respect to the cursor before it. *)
Theorem token_other_than_comment_is_not_empty :
  forall fuel t tok t',
    nextToken' fuel t = Ret (Some tok, t') ->
    Token.kind tok <> Comment ->
    Position.pos (Token.start tok) < Position.pos (Token.end_ tok)
    /\ pos t < pos t'.
Proof.
  intros fuel t tok t' H Hk. apply nextToken_view in H.
  destruct H as (t0 & HR & [(Hn & _)|(_ & fuel' & p & Hp & Hr & ->)]);
    [discriminate|].
  injection Hr as ->.
  destruct (Reads_span _ _ _ Hp) as (Hs & He & _).
  destruct (Resync_facts _ _ HR) as (_ & Hp0 & _).
  pose proof (Reads_progress _ _ _ Hp Hk) as Hlt.
  rewrite Hs, He. cbn [getPosition Position.pos]. lia.
Qed.


(** ** Termination *)

Lemma find_bound (ch : Z) (s : JS.str) :
  forall i k, nth_error s k = Some ch ->
    i <= JS.find ch s i <= i + Z.of_nat k.
Proof.
  induction s as [|c s IH]; intros i k H; [destruct k; discriminate|].
  cbn [JS.find]. destruct (Z.eqb_spec c ch) as [_|N]; [lia|].
  destruct k as [|k]; [cbn in H; congruence|].
  specialize (IH (i + 1) k H). lia.
Qed.

Lemma indexOf_bound (s : JS.str) (ch from j : Z) :
  0 <= from <= j -> JS.charCodeAt s j = Some ch ->
  from <= JS.indexOf s ch from <= j.
Proof.
  intros Hf Hj. pose proof (charCodeAt_Some _ _ _ Hj) as Hl.
  unfold JS.indexOf. rewrite Z.max_l, Z.min_l by lia.
  unfold JS.charCodeAt in Hj.
  destruct (Z.ltb_spec j 0) as [?|_]; [lia|].
  pose proof (find_bound ch (skipn (Z.to_nat from) s) from
                (Z.to_nat j - Z.to_nat from)) as Hb.
  rewrite nth_error_skipn in Hb.
  replace (Z.to_nat from + (Z.to_nat j - Z.to_nat from))%nat
    with (Z.to_nat j) in Hb by lia.
  specialize (Hb Hj). lia.
Qed.

Lemma readComment_loop_returns n :
  forall t value,
    CommentsEnded (input t) ->
    getChar t = Some 0x2f -> peekChar t = Some 0x2f ->
    (remaining t <= n)%nat ->
    exists r, readComment_loop n t value = Ret r.
Proof.
  induction n as [|n IH]; intros t value HC Hc Hp Hn.
  - apply getChar_Some_atEnd, atEnd_false in Hc. unfold remaining in Hn. lia.
  - cbn [readComment_loop].
    destruct (HC (pos t) Hc Hp) as (j & Hj & Hlf).
    pose proof (charCodeAt_Some _ _ _ Hc) as Hr.
    pose proof (charCodeAt_Some _ _ _ Hlf) as Hjr.
    pose proof (indexOf_bound (input t) 0x0a (pos t) j
                  (conj (proj1 Hr) (Z.lt_le_incl _ _ Hj)) Hlf) as Hb.
    set (t1 := set_row (set_pos t (JS.indexOf (input t) 10 (pos t) + 1)) _).
    destruct (negb (atEnd t1) && charIs (getChar t1) 47
              && charIs (peekChar t1) 47) eqn:E; [|eexists; reflexivity].
    apply andb_true_iff in E. destruct E as [E E3].
    apply andb_true_iff in E. destruct E as [_ E2].
    apply charIs_true in E2, E3.
    apply IH; [exact HC|exact E2|exact E3|].
    unfold remaining in *. cbn [t1 input pos set_row set_pos]. lia.
Qed.

Lemma readComment_returns n t :
  CommentsEnded (input t) ->
  getChar t = Some 0x2f -> peekChar t = Some 0x2f ->
  (remaining t <= n)%nat ->
  exists r, readComment n t = Ret r.
Proof.
  intros HC Hc Hp Hn. unfold readComment.
  set (t1 := if allowComments t then t else error0 t UnexpectedComment).
  destruct (readComment_loop_returns n t1 []) as [[t2 v] Hr];
    try (unfold t1; destruct (allowComments t); assumption).
  rewrite Hr. cbn [bind]. eexists. reflexivity.
Qed.

Lemma readNumber_returns_or_throws t : readNumber' t <> OutOfFuel.
Proof.
  unfold readNumber.
  repeat match goal with
    | |- (if ?b then _ else _) <> _ => destruct b
    | |- match ?x with Some _ => _ | None => _ end <> _ => destruct x
    | |- (let '(_, _) := ?x in _) <> _ => destruct x
    end; try discriminate.
  unfold finalValue.
  repeat match goal with
    | |- context [if ?b then _ else _] => destruct b
    | |- context [match ?x with Finite _ => _ | PosInfinity => _ end] => destruct x
    end; cbn [bind]; discriminate.
Qed.

Lemma nextToken_returns_within n :
  forall frames t, CommentsEnded (input t) -> (remaining t <= n)%nat ->
    nextToken_in' frames (S n) t <> OutOfFuel.
Proof.
  induction n as [|n IH]; intros frames t HC Hn.
  - cbn [nextToken_in].
    destruct (skipWhitespace_fields t) as (Hi & _ & _ & _ & _ & _ & Hp).
    destruct (atEnd (skipWhitespace' t)) eqn:E; [discriminate|].
    apply atEnd_false in E. rewrite Hi in E. unfold remaining in Hn. lia.
  - remember (S n) as m eqn:Hm. cbn [nextToken_in].
    destruct (skipWhitespace_fields t) as (Hi & _ & _ & _ & _ & _ & Hp).
    set (t0 := skipWhitespace' t) in *.
    assert (Hn0 : (remaining t0 <= m)%nat)
      by (unfold remaining in *; rewrite Hi; lia).
    assert (HC0 : CommentsEnded (input t0)) by (rewrite Hi; exact HC).
    clearbody t0.
    repeat match goal with
      | |- (if ?b then _ else _) <> _ => destruct b eqn:?
      end;
      try (unfold token; discriminate).
    + repeat match goal with
        | H : charIs _ _ = true |- _ => apply charIs_true in H
        end.
      destruct (readComment_returns m t0) as [r Hr]; try assumption.
      rewrite Hr. cbn [bind]. unfold token. discriminate.
    + pose proof (readNumber_returns_or_throws t0) as Hr.
      destruct (readNumber' t0) as [r| |]; cbn [bind];
        [unfold token; discriminate|discriminate|congruence].
    + destruct frames as [|frames]; [discriminate|].
      subst m. apply IH; [exact HC0|].
      match goal with H : atEnd t0 = false |- _ => apply atEnd_false in H end.
      unfold remaining in *.
      cbn [input pos advance set_col set_pos error0 error set_store]. lia.
Qed.

(** X11.  On an input in which every [//] has a line feed after it, a
    [nextToken] call comes to an end: with a result, or with a [RangeError],
    that of [readNumber] or that of a call stack with no room for a further
    recovery call.  Fuel beyond the number of units left is never used
    up. *)
Theorem nextToken_ends_when_comments_end :
  forall fuel t,
    CommentsEnded (input t) ->
    (remaining t < fuel)%nat ->
    nextToken' fuel t <> OutOfFuel.
Proof.
  intros fuel t HC Hf. destruct fuel as [|fuel]; [lia|].
  unfold nextToken. apply nextToken_returns_within; [exact HC|lia].
Qed.

(** The stack is what ends the call on a run of unexpected units, none of
    them whitespace, that is longer than the stack has room for. *)
Lemma nextToken_in_stack_exhausted frames :
  forall fuel t pre us rest,
    At (skipWhitespace' t) pre (us ++ rest) ->
    Forall (fun c => unexpected' (Some c) /\ isWhitespace' (Some c) = false)
      us ->
    (frames < List.length us)%nat -> (frames < fuel)%nat ->
    nextToken_in' frames fuel t = Throw RangeError.
Proof.
  induction frames as [|frames IH]; intros fuel t pre us rest HAt Hus Hl Hf;
    (destruct us as [|c us]; [cbn in Hl; lia|]);
    (destruct fuel as [|fuel]; [lia|]);
    inversion Hus as [|? ? [(Hsw & Hd & Hid) Hw] Hus']; subst;
    cbn [app] in HAt;
    (rewrite (nextToken_in_default _ fuel t c);
      [|rewrite (At_getChar _ _ _ HAt); reflexivity
       |unfold inSwitch; apply Bool.not_true_iff_false; intros Hex;
        apply existsb_exists in Hex; destruct Hex as (k & Hk & Hck);
        specialize (Hsw k Hk); cbn [charIs] in Hsw; congruence]);
    rewrite Hd, Hid; [reflexivity|].
  set (t0 := skipWhitespace' t) in *.
  set (t1 := advance (error0 t0 UnexpectedToken) 1).
  assert (HAt1 : At t1 (pre ++ [c]) (us ++ rest)).
  { apply (At_advance (error0 t0 UnexpectedToken)). exact HAt. }
  destruct us as [|c' us]; [cbn in Hl; lia|].
  apply (IH fuel t1 (pre ++ [c]) (c' :: us) rest);
    [|exact Hus'|cbn in Hl |- *; lia|lia].
  rewrite skipWhitespace_stopped; [exact HAt1|].
  right. rewrite (At_getChar _ _ _ HAt1). cbn [app hd_error].
  inversion Hus' as [|? ? [_ Hw'] _]; subst. exact Hw'.
Qed.


(** ** readString on a closed literal *)

Lemma At_not_atEnd t P R : At t P R -> R <> [] -> atEnd t = false.
Proof.
  intros HAt HR. destruct R as [|x R]; [congruence|].
  exact (At_atEnd_cons _ _ _ _ HAt).
Qed.

Lemma At_slice t A seg R :
  At t (A ++ seg) R -> JS.slice (input t) (JS.length A) (pos t) = seg.
Proof.
  intros [Hi Hp]. rewrite Hi, Hp, <- app_assoc, length_app. apply slice_app.
Qed.

(** The loop body on a unit that is neither quote nor backslash, with more
    input after it. *)
Lemma readString_body_plain pos0 t P c R start value :
  At t P (c :: R) -> R <> [] -> c <> 0x5c ->
  exists t1,
    readString_body pos0 t (Some c) start value
    = Going t1 (getChar t1) start value
    /\ At t1 (P ++ [c]) R
    /\ row t1 = row t + (if c =? 0x0a then 1 else 0)
    /\ errorsOf t1 = errorsOf t.
Proof.
  intros HAt HR Hc.
  unfold readString_body, readString_escape. cbn [charIs].
  destruct (Z.eqb_spec c 0x5c) as [?|_]; [congruence|].
  unfold readString_tail. cbn [charIs].
  pose proof (At_advance _ _ _ _ HAt) as HA1.
  destruct (c =? 10).
  - set (t1 := set_col (set_row (advance t 1) (row (advance t 1) + 1)) 0).
    assert (HAt1 : At t1 (P ++ [c]) R) by exact HA1.
    rewrite (At_not_atEnd _ _ _ HAt1 HR).
    exists t1. repeat split; try reflexivity; apply HAt1.
  - rewrite (At_not_atEnd _ _ _ HA1 HR).
    exists (advance t 1). repeat split; try apply HA1.
    cbn [row advance set_col set_pos]. lia.
Qed.

Lemma escapeValue_Some e d :
  escapeValue e = Some d -> e <> 0x0a /\ In e [0x6e; 0x74; 0x27; 0x5c].
Proof.
  unfold escapeValue.
  repeat match goal with
    | |- context [?a =? ?b] => destruct (Z.eqb_spec a b) as [->|?]
    end; intros H; try discriminate H; (split; [discriminate|]); cbn; auto.
Qed.

Lemma escapeValue_None e :
  escapeValue e = None -> e <> 0x6e /\ e <> 0x74 /\ e <> 0x27 /\ e <> 0x5c.
Proof.
  unfold escapeValue.
  repeat match goal with
    | |- context [?a =? ?b] => destruct (Z.eqb_spec a b) as [->|?]
    end; intros H; try discriminate H; auto.
Qed.

(** The loop body on a backslash with a known escape after it. *)
Lemma readString_body_escape pos0 t A seg e d R value :
  At t (A ++ seg) (0x5c :: e :: R) -> R <> [] -> escapeValue e = Some d ->
  exists t1,
    readString_body pos0 t (Some 0x5c) (JS.length A) value
    = Going t1 (getChar t1) (JS.length (A ++ seg ++ [0x5c; e]))
        (value ++ seg ++ [d])
    /\ At t1 (A ++ seg ++ [0x5c; e]) R
    /\ row t1 = row t
    /\ errorsOf t1 = errorsOf t.
Proof.
  intros HAt HR He.
  pose proof (At_advance _ _ _ _ HAt) as HA1.
  pose proof (At_advance _ _ _ _ HA1) as HA2.
  unfold readString_body, readString_escape. cbn [charIs Z.eqb Pos.eqb].
  rewrite (At_slice _ _ _ _ HAt).
  rewrite (At_atEnd_cons _ _ _ _ HA1), (At_getChar _ _ _ HA1).
  cbn [hd_error charIs].
  assert (Hstart : pos (advance t 1) + 1 = JS.length (A ++ seg ++ [0x5c; e])).
  { destruct HAt as [_ Hp]. cbn [pos advance set_col set_pos].
    rewrite Hp, !length_app, !length_cons. change (JS.length []) with 0. lia. }
  rewrite Hstart.
  assert (HAt2 : At (advance (advance t 1) 1) (A ++ seg ++ [0x5c; e]) R).
  { replace (A ++ seg ++ [0x5c; e]) with (((A ++ seg) ++ [0x5c]) ++ [e])
      by (rewrite <- !app_assoc; reflexivity).
    exact HA2. }
  destruct (escapeValue_Some _ _ He) as [Hlf _].
  assert (Htail : forall v,
    readString_tail pos0 (advance t 1) (Some e)
      (JS.length (A ++ seg ++ [0x5c; e])) v
    = Going (advance (advance t 1) 1) (getChar (advance (advance t 1) 1))
        (JS.length (A ++ seg ++ [0x5c; e])) v).
  { intros v. unfold readString_tail. cbn [charIs].
    destruct (Z.eqb_spec e 10) as [?|_]; [congruence|].
    now rewrite (At_not_atEnd _ _ _ HAt2 HR). }
  exists (advance (advance t 1) 1).
  split; [|split; [exact HAt2|split; reflexivity]].
  unfold escapeValue in He.
  replace (value ++ seg ++ [d]) with ((value ++ seg) ++ [d])
    by (now rewrite <- app_assoc).
  destruct (e =? 110); [injection He as <-; apply Htail|].
  destruct (e =? 116); [injection He as <-; apply Htail|].
  destruct (e =? 39); [injection He as <-; apply Htail|].
  destruct (e =? 92); [injection He as <-; apply Htail|discriminate He].
Qed.

(** The loop body on a backslash with an unknown escape after it: the
    cursor is put back on the escape unit, which the next iteration reads
    as an ordinary unit that the value never receives. *)
Lemma readString_body_unknown pos0 t A seg e R value :
  At t (A ++ seg) (0x5c :: e :: R) -> escapeValue e = None ->
  exists t1,
    readString_body pos0 t (Some 0x5c) (JS.length A) value
    = Going t1 (getChar t1) (JS.length (A ++ seg ++ [0x5c; e])) (value ++ seg)
    /\ At t1 ((A ++ seg) ++ [0x5c]) (e :: R)
    /\ row t1 = row t + (if e =? 0x0a then 1 else 0)
    /\ exists d, errorsOf t1 = errorsOf t ++ [d]
                 /\ Diagnostic.kind d = UnknownEscapeSequence.
Proof.
  intros HAt He.
  pose proof (At_advance _ _ _ _ HAt) as HA1.
  unfold readString_body, readString_escape. cbn [charIs Z.eqb Pos.eqb].
  rewrite (At_slice _ _ _ _ HAt).
  rewrite (At_atEnd_cons _ _ _ _ HA1), (At_getChar _ _ _ HA1).
  cbn [hd_error charIs].
  assert (Hstart : pos (advance t 1) + 1 = JS.length (A ++ seg ++ [0x5c; e])).
  { destruct HAt as [_ Hp]. cbn [pos advance set_col set_pos].
    rewrite Hp, !length_app, !length_cons. change (JS.length []) with 0. lia. }
  rewrite Hstart.
  destruct (escapeValue_None _ He) as (N1 & N2 & N3 & N4).
  destruct (Z.eqb_spec e 110) as [?|_]; [congruence|].
  destruct (Z.eqb_spec e 116) as [?|_]; [congruence|].
  destruct (Z.eqb_spec e 39) as [?|_]; [congruence|].
  destruct (Z.eqb_spec e 92) as [?|_]; [congruence|].
  set (t2 := error0 (set_pos (advance t 1) (pos (advance t 1) - 1))
               UnknownEscapeSequence).
  assert (HAt3 : At (advance t2 1) ((A ++ seg) ++ [0x5c]) (e :: R)).
  { destruct HA1 as [Hi Hp]. split; [exact Hi|].
    cbn [t2 pos advance set_col set_pos error0 error set_store] in Hp |- *. lia. }
  assert (Herr : errorsOf (advance t2 1)
                 = errorsOf t ++
                   [Diagnostic.mk UnknownEscapeSequence
                      (getPosition (set_pos (advance t 1) (pos (advance t 1) - 1)))
                      (getPosition (set_pos (advance t 1) (pos (advance t 1) - 1)))])
    by exact (errorsOf_error0
                (set_pos (advance t 1) (pos (advance t 1) - 1))
                UnknownEscapeSequence).
  unfold readString_tail. cbn [charIs].
  destruct (e =? 10).
  - set (t3 := set_col (set_row (advance t2 1) (row (advance t2 1) + 1)) 0).
    assert (HAt3' : At t3 ((A ++ seg) ++ [0x5c]) (e :: R)) by exact HAt3.
    rewrite (At_atEnd_cons _ _ _ _ HAt3').
    exists t3. split; [reflexivity|]. split; [exact HAt3'|].
    split; [reflexivity|]. eexists. split; [exact Herr|reflexivity].
  - rewrite (At_atEnd_cons _ _ _ _ HAt3).
    exists (advance t2 1). split; [reflexivity|]. split; [exact HAt3|].
    split; [cbn [t2 row advance set_col set_pos error0 error set_store]; lia|].
    eexists. split; [exact Herr|reflexivity].
Qed.

Lemma readString_loop_items items :
  forall n pos0 t A seg rest value,
    At t (A ++ seg) (encode items ++ 0x27 :: rest) ->
    Forall plainOk items ->
    (List.length (encode items) <= n)%nat ->
    exists t' ds,
      readString_loop n pos0 t (getChar t) (JS.length A) value
      = (Token4 String_ pos0 (getPosition t')
           (StringV (value ++ seg ++ decode items)), t')
      /\ At t' (A ++ seg ++ encode items ++ [0x27]) rest
      /\ row t' = row t + lineFeeds items
      /\ errorsOf t' = errorsOf t ++ ds
      /\ map Diagnostic.kind ds = escapeErrors items.
Proof.
  induction items as [|i items IH]; intros n pos0 t A seg rest value HAt HF Hn.
  - cbn [encode flat_map app] in HAt.
    exists (advance t 1), [].
    split; [|split; [|split; [|split]]].
    + rewrite (At_getChar _ _ _ HAt).
      destruct n; cbn [readString_loop hd_error charIs Z.eqb Pos.eqb];
        rewrite (At_slice _ _ _ _ HAt); cbn [decode flat_map];
        rewrite app_nil_r; reflexivity.
    + cbn [encode flat_map app]. rewrite app_assoc.
      exact (At_advance _ _ _ _ HAt).
    + cbn. lia.
    + now rewrite app_nil_r.
    + reflexivity.
  - inversion HF as [|? ? Hi HF']; subst.
    assert (Hne : encode items ++ 0x27 :: rest <> [])
      by (destruct (encode items); discriminate).
    destruct i as [c|e].
    + (* a plain unit *)
      destruct Hi as [Hq Hb].
      cbn [encode flat_map app] in HAt, Hn. fold (encode items) in HAt, Hn.
      destruct n as [|n]; [cbn in Hn; lia|].
      rewrite (At_getChar _ _ _ HAt).
      cbn [readString_loop hd_error charIs].
      destruct (Z.eqb_spec c 39) as [?|_]; [congruence|].
      destruct (readString_body_plain pos0 t _ c _ (JS.length A) value HAt Hne Hb)
        as (t1 & -> & HAt1 & Hrow & Herr).
      rewrite <- app_assoc in HAt1.
      destruct (IH n pos0 t1 A (seg ++ [c]) rest value HAt1 HF')
        as (t' & ds & Hrun & HAt' & Hrow' & Herr' & Hk);
        [cbn in Hn; lia|].
      exists t', ds. split; [|split; [|split; [|split]]].
      * rewrite Hrun. cbn [decode flat_map]. fold (decode items).
        rewrite <- !app_assoc. reflexivity.
      * cbn [encode flat_map]. fold (encode items).
        rewrite <- !app_assoc in HAt'. exact HAt'.
      * rewrite Hrow', Hrow. cbn [lineFeeds fold_right itemRows].
        fold (lineFeeds items). lia.
      * rewrite Herr', Herr. reflexivity.
      * exact Hk.
    + (* a backslash and the unit after it *)
      cbn [encode flat_map app] in HAt, Hn. fold (encode items) in HAt, Hn.
      destruct n as [|n]; [cbn in Hn; lia|].
      rewrite (At_getChar _ _ _ HAt).
      cbn [readString_loop hd_error charIs Z.eqb Pos.eqb].
      destruct (escapeValue e) as [d|] eqn:He.
      * destruct (readString_body_escape pos0 t A seg e d _ value HAt Hne He)
          as (t1 & -> & HAt1 & Hrow & Herr).
        assert (HAt1' : At t1 ((A ++ seg ++ [0x5c; e]) ++ [])
                          (encode items ++ 0x27 :: rest))
          by (rewrite app_nil_r; exact HAt1).
        destruct (IH n pos0 t1 (A ++ seg ++ [0x5c; e]) [] rest
                    (value ++ seg ++ [d]) HAt1' HF')
          as (t' & ds & Hrun & HAt' & Hrow' & Herr' & Hk);
          [cbn in Hn; lia|].
        exists t', ds. split; [|split; [|split; [|split]]].
        -- rewrite Hrun. cbn [decode flat_map app]. fold (decode items).
           rewrite He. rewrite <- !app_assoc. reflexivity.
        -- cbn [encode flat_map app]. fold (encode items).
           cbn [app] in HAt'. rewrite <- !app_assoc in HAt'. exact HAt'.
        -- rewrite Hrow', Hrow. cbn [lineFeeds fold_right itemRows].
           fold (lineFeeds items).
           destruct (escapeValue_Some _ _ He) as [Hlf _].
           destruct (Z.eqb_spec e 10) as [?|_]; [congruence|lia].
        -- rewrite Herr', Herr. reflexivity.
        -- cbn [escapeErrors flat_map app]. fold (escapeErrors items).
           rewrite He. exact Hk.
      * destruct (readString_body_unknown pos0 t A seg e _ value HAt He)
          as (t1 & -> & HAt1 & Hrow & d & Herr & Hd).
        destruct (escapeValue_None _ He) as (_ & _ & N3 & N4).
        destruct n as [|n]; [cbn in Hn; lia|].
        rewrite (At_getChar _ _ _ HAt1).
        cbn [readString_loop hd_error charIs].
        destruct (Z.eqb_spec e 39) as [?|_]; [congruence|].
        destruct (readString_body_plain pos0 t1 _ e _
                    (JS.length (A ++ seg ++ [0x5c; e])) (value ++ seg)
                    HAt1 Hne N4)
          as (t2 & -> & HAt2 & Hrow2 & Herr2).
        assert (HAt2' : At t2 ((A ++ seg ++ [0x5c; e]) ++ [])
                          (encode items ++ 0x27 :: rest)).
        { rewrite app_nil_r. rewrite <- !app_assoc in HAt2. exact HAt2. }
        destruct (IH n pos0 t2 (A ++ seg ++ [0x5c; e]) [] rest
                    (value ++ seg) HAt2' HF')
          as (t' & ds & Hrun & HAt' & Hrow' & Herr' & Hk);
          [cbn in Hn; lia|].
        exists t', (d :: ds). split; [|split; [|split; [|split]]].
        -- rewrite Hrun. cbn [decode flat_map app]. fold (decode items).
           rewrite He. rewrite <- !app_assoc. reflexivity.
        -- cbn [encode flat_map app]. fold (encode items).
           cbn [app] in HAt'. rewrite <- !app_assoc in HAt'. exact HAt'.
        -- rewrite Hrow', Hrow2, Hrow. cbn [lineFeeds fold_right itemRows].
           fold (lineFeeds items). destruct (e =? 10); lia.
        -- rewrite Herr', Herr2, Herr, <- app_assoc. reflexivity.
        -- cbn [escapeErrors flat_map app map]. fold (escapeErrors items).
           rewrite He, Hd, Hk. reflexivity.
Qed.

(** X12.  On a literal that is closed by a quote, [readString] returns a
    String token without error flag whose value is the decoding of the
    literal's items: a plain unit stands for itself, [\n], [\t], [\'] and
    [\\] for a line feed, a tab, a quote and a backslash, and a backslash
    with any other unit contributes nothing, that unit included, at the
    price of one [UnknownEscapeSequence] diagnostic.  The cursor ends after
    the closing quote; the row advances by one per line feed of the literal,
    and by two for a line feed that follows a backslash. *)
Theorem readString_decodes_closed_literal :
  forall t pre items rest,
    At t pre (0x27 :: encode items ++ 0x27 :: rest) ->
    Forall plainOk items ->
    exists t' ds,
      readString t
      = (Token4 String_ (getPosition t) (getPosition t')
           (StringV (decode items)), t')
      /\ At t' (pre ++ 0x27 :: encode items ++ [0x27]) rest
      /\ row t' = row t + lineFeeds items
      /\ errorsOf t' = errorsOf t ++ ds
      /\ map Diagnostic.kind ds = escapeErrors items.
Proof.
  intros t pre items rest HAt HF.
  pose proof (At_advance _ _ _ _ HAt) as HA1.
  assert (HA1' : At (advance t 1) ((pre ++ [0x27]) ++ [])
                   (encode items ++ 0x27 :: rest))
    by (rewrite app_nil_r; exact HA1).
  assert (Hstart : pos (advance t 1) = JS.length (pre ++ [0x27]))
    by apply HA1.
  destruct (readString_loop_items items
              (S (Z.to_nat (JS.length (input (advance t 1)) - pos (advance t 1))))
              (getPosition t) (advance t 1) (pre ++ [0x27]) [] rest [] HA1' HF)
    as (t' & ds & Hrun & HAt' & Hrow & Herr & Hk).
  { rewrite (At_remaining _ _ _ HA1), List.length_app. lia. }
  rewrite <- Hstart in Hrun.
  exists t', ds. split; [exact Hrun|]. split; [|auto].
  cbn [app] in HAt'. rewrite <- app_assoc in HAt'. exact HAt'.
Qed.


(** ** readString on a literal that no quote closes *)

Lemma encode_app a b : encode (a ++ b) = encode a ++ encode b.
Proof. apply flat_map_app. Qed.

Lemma decode_app a b : decode (a ++ b) = decode a ++ decode b.
Proof. apply flat_map_app. Qed.

Lemma escapeErrors_app a b :
  escapeErrors (a ++ b) = escapeErrors a ++ escapeErrors b.
Proof. apply flat_map_app. Qed.

Lemma lineFeeds_app a b : lineFeeds (a ++ b) = lineFeeds a + lineFeeds b.
Proof.
  induction a as [|i a IH]; [reflexivity|].
  cbn [app lineFeeds fold_right]. fold (lineFeeds (a ++ b)) (lineFeeds a).
  rewrite IH. lia.
Qed.

(** The iterations over the items of a literal that has more input [R]
    after them: the loop arrives in front of [R], with the decoding of the
    items in the value and in the pending slice. *)
Lemma readString_loop_through items :
  forall n pos0 t A seg R value,
    At t (A ++ seg) (encode items ++ R) -> R <> [] ->
    Forall plainOk items ->
    (List.length (encode items ++ R) <= n)%nat ->
    exists n' t' A' seg' value' ds,
      readString_loop n pos0 t (getChar t) (JS.length A) value
      = readString_loop n' pos0 t' (getChar t') (JS.length A') value'
      /\ (List.length R <= n')%nat
      /\ At t' (A' ++ seg') R
      /\ A' ++ seg' = A ++ seg ++ encode items
      /\ value' ++ seg' = value ++ seg ++ decode items
      /\ row t' = row t + lineFeeds items
      /\ errorsOf t' = errorsOf t ++ ds
      /\ map Diagnostic.kind ds = escapeErrors items.
Proof.
  induction items as [|i items IH];
    intros n pos0 t A seg R value HAt HR HF Hn.
  - cbn [encode flat_map app] in HAt, Hn.
    exists n, t, A, seg, value, [].
    split; [reflexivity|]. split; [exact Hn|]. split; [exact HAt|].
    cbn [encode decode escapeErrors flat_map lineFeeds fold_right map].
    rewrite !app_nil_r. repeat split. lia.
  - inversion HF as [|? ? Hi HF']; subst.
    assert (Hne : encode items ++ R <> [])
      by (intros E; apply app_eq_nil in E; destruct E; contradiction).
    destruct i as [c|e].
    + (* a plain unit *)
      destruct Hi as [Hq Hb].
      cbn [encode flat_map app] in HAt, Hn. fold (encode items) in HAt, Hn.
      destruct n as [|n]; [cbn in Hn; lia|].
      rewrite (At_getChar _ _ _ HAt).
      cbn [readString_loop hd_error charIs].
      destruct (Z.eqb_spec c 39) as [?|_]; [congruence|].
      destruct (readString_body_plain pos0 t _ c _ (JS.length A) value HAt Hne Hb)
        as (t1 & -> & HAt1 & Hrow & Herr).
      rewrite <- app_assoc in HAt1.
      destruct (IH n pos0 t1 A (seg ++ [c]) R value HAt1 HR HF')
        as (n' & t' & A' & seg' & value' & ds
            & Hrun & Hn' & HAt' & HA' & Hv' & Hrow' & Herr' & Hk);
        [cbn in Hn; lia|].
      exists n', t', A', seg', value', ds.
      split; [exact Hrun|]. split; [exact Hn'|]. split; [exact HAt'|].
      cbn [encode decode escapeErrors flat_map lineFeeds fold_right itemRows].
      fold (encode items) (decode items) (escapeErrors items) (lineFeeds items).
      rewrite <- !app_assoc in HA', Hv'. cbn [app] in HA', Hv' |- *.
      split; [exact HA'|]. split; [exact Hv'|].
      split; [lia|]. split; [congruence|exact Hk].
    + (* a backslash and the unit after it *)
      cbn [encode flat_map app] in HAt, Hn. fold (encode items) in HAt, Hn.
      destruct n as [|n]; [cbn in Hn; lia|].
      rewrite (At_getChar _ _ _ HAt).
      cbn [readString_loop hd_error charIs Z.eqb Pos.eqb].
      destruct (escapeValue e) as [d|] eqn:He.
      * destruct (readString_body_escape pos0 t A seg e d _ value HAt Hne He)
          as (t1 & -> & HAt1 & Hrow & Herr).
        assert (HAt1' : At t1 ((A ++ seg ++ [0x5c; e]) ++ [])
                          (encode items ++ R))
          by (rewrite app_nil_r; exact HAt1).
        destruct (IH n pos0 t1 (A ++ seg ++ [0x5c; e]) [] R
                    (value ++ seg ++ [d]) HAt1' HR HF')
          as (n' & t' & A' & seg' & value' & ds
              & Hrun & Hn' & HAt' & HA' & Hv' & Hrow' & Herr' & Hk);
          [cbn in Hn; lia|].
        exists n', t', A', seg', value', ds.
        split; [exact Hrun|]. split; [exact Hn'|]. split; [exact HAt'|].
        cbn [encode decode escapeErrors flat_map lineFeeds fold_right itemRows].
        fold (encode items) (decode items) (escapeErrors items)
          (lineFeeds items).
        rewrite He.
        cbn [app] in HA', Hv' |- *.
        repeat rewrite <- app_assoc in HA'.
        repeat rewrite <- app_assoc in Hv'.
        cbn [app] in HA', Hv'.
        split; [exact HA'|]. split; [exact Hv'|].
        destruct (escapeValue_Some _ _ He) as [Hlf _].
        destruct (Z.eqb_spec e 10) as [?|_]; [congruence|].
        split; [lia|]. split; [congruence|exact Hk].
      * destruct (readString_body_unknown pos0 t A seg e _ value HAt He)
          as (t1 & -> & HAt1 & Hrow & d & Herr & Hd).
        destruct (escapeValue_None _ He) as (_ & _ & N3 & N4).
        destruct n as [|n]; [cbn in Hn; lia|].
        rewrite (At_getChar _ _ _ HAt1).
        cbn [readString_loop hd_error charIs].
        destruct (Z.eqb_spec e 39) as [?|_]; [congruence|].
        destruct (readString_body_plain pos0 t1 _ e _
                    (JS.length (A ++ seg ++ [0x5c; e])) (value ++ seg)
                    HAt1 Hne N4)
          as (t2 & -> & HAt2 & Hrow2 & Herr2).
        assert (HAt2' : At t2 ((A ++ seg ++ [0x5c; e]) ++ [])
                          (encode items ++ R)).
        { rewrite app_nil_r. rewrite <- !app_assoc in HAt2. exact HAt2. }
        destruct (IH n pos0 t2 (A ++ seg ++ [0x5c; e]) [] R
                    (value ++ seg) HAt2' HR HF')
          as (n' & t' & A' & seg' & value' & ds
              & Hrun & Hn' & HAt' & HA' & Hv' & Hrow' & Herr' & Hk);
          [cbn in Hn; lia|].
        exists n', t', A', seg', value', (d :: ds).
        split; [exact Hrun|]. split; [exact Hn'|]. split; [exact HAt'|].
        cbn [encode decode escapeErrors flat_map lineFeeds fold_right itemRows
             map].
        fold (encode items) (decode items) (escapeErrors items)
          (lineFeeds items).
        rewrite He.
        cbn [app] in HA', Hv' |- *.
        repeat rewrite <- app_assoc in HA'.
        repeat rewrite <- app_assoc in Hv'.
        cbn [app] in HA', Hv'.
        split; [exact HA'|]. split; [exact Hv'|].
        split; [destruct (e =? 10); lia|].
        split; [rewrite Herr', Herr2, Herr, <- app_assoc; reflexivity|].
        rewrite Hd, Hk. reflexivity.
Qed.


(** The loop on a backslash that is the last unit of the input: the
    [return] of the escape statement keeps the value. *)
Lemma readString_loop_cut n pos0 t A seg value :
  At t (A ++ seg) [0x5c] -> (1 <= n)%nat ->
  readString_loop n pos0 t (getChar t) (JS.length A) value
  = (Token.mk String_ pos0
       (getPosition (error0 (advance t 1) UnexpectedEof))
       (Some (StringV (value ++ seg))) true,
     error0 (advance t 1) UnexpectedEof).
Proof.
  intros HAt Hn. destruct n as [|n]; [lia|].
  rewrite (At_getChar _ _ _ HAt).
  cbn [readString_loop hd_error charIs Z.eqb Pos.eqb].
  unfold readString_body, readString_escape. cbn [charIs Z.eqb Pos.eqb].
  rewrite (At_slice _ _ _ _ HAt).
  rewrite (At_atEnd_nil _ _ (At_advance _ _ _ _ HAt)).
  reflexivity.
Qed.

(** The loop on a plain unit that is the last unit of the input: the
    [return] of the second check, without a value. *)
Lemma readString_loop_last n pos0 t P c start value :
  At t P [c] -> c <> 0x27 -> c <> 0x5c -> (1 <= n)%nat ->
  exists t',
    readString_loop n pos0 t (Some c) start value
    = (Token.mk String_ pos0 (getPosition t') None true, t')
    /\ At t' (P ++ [c]) []
    /\ row t' = row t + (if c =? 0x0a then 1 else 0)
    /\ errorsOf t'
       = errorsOf t ++ [Diagnostic.mk UnexpectedEof (getPosition t')
                          (getPosition t')].
Proof.
  intros HAt Hq Hb Hn. destruct n as [|n]; [lia|].
  cbn [readString_loop charIs].
  destruct (Z.eqb_spec c 39) as [?|_]; [congruence|].
  unfold readString_body, readString_escape. cbn [charIs].
  destruct (Z.eqb_spec c 92) as [?|_]; [congruence|].
  unfold readString_tail. cbn [charIs].
  pose proof (At_advance _ _ _ _ HAt) as HA1.
  destruct (c =? 10).
  - set (t1 := set_col (set_row (advance t 1) (row (advance t 1) + 1)) 0).
    assert (HAt1 : At t1 (P ++ [c]) []) by exact HA1.
    rewrite (At_atEnd_nil _ _ HAt1).
    exists (error0 t1 UnexpectedEof).
    split; [reflexivity|]. split; [exact HAt1|]. split; [reflexivity|].
    exact (errorsOf_error0 t1 UnexpectedEof).
  - rewrite (At_atEnd_nil _ _ HA1).
    exists (error0 (advance t 1) UnexpectedEof).
    split; [reflexivity|]. split; [exact HA1|].
    split; [cbn [row advance set_col set_pos error0 error set_store]; lia|].
    exact (errorsOf_error0 (advance t 1) UnexpectedEof).
Qed.


(** The loop on a backslash and a known escape that are the last two units
    of the input. *)
Lemma readString_loop_last_escape n pos0 t A seg e d value :
  At t (A ++ seg) [0x5c; e] -> escapeValue e = Some d -> (1 <= n)%nat ->
  exists t',
    readString_loop n pos0 t (Some 0x5c) (JS.length A) value
    = (Token.mk String_ pos0 (getPosition t') None true, t')
    /\ At t' ((A ++ seg) ++ [0x5c; e]) []
    /\ row t' = row t
    /\ errorsOf t'
       = errorsOf t ++ [Diagnostic.mk UnexpectedEof (getPosition t')
                          (getPosition t')].
Proof.
  intros HAt He Hn. destruct n as [|n]; [lia|].
  pose proof (At_advance _ _ _ _ HAt) as HA1.
  pose proof (At_advance _ _ _ _ HA1) as HA2.
  rewrite <- app_assoc in HA2. cbn [app] in HA2.
  cbn [readString_loop charIs Z.eqb Pos.eqb].
  unfold readString_body, readString_escape. cbn [charIs Z.eqb Pos.eqb].
  rewrite (At_atEnd_cons _ _ _ _ HA1), (At_getChar _ _ _ HA1).
  cbn [hd_error charIs].
  destruct (escapeValue_Some _ _ He) as [Hlf _].
  assert (Htail : forall s v,
    readString_tail pos0 (advance t 1) (Some e) s v
    = Returned (Token.mk String_ pos0
                  (getPosition (error0 (advance (advance t 1) 1) UnexpectedEof))
                  None true,
                error0 (advance (advance t 1) 1) UnexpectedEof)).
  { intros s v. unfold readString_tail. cbn [charIs].
    destruct (Z.eqb_spec e 10) as [?|_]; [congruence|].
    now rewrite (At_atEnd_nil _ _ HA2). }
  exists (error0 (advance (advance t 1) 1) UnexpectedEof).
  split; [|split; [exact HA2|split; [reflexivity|]]].
  - unfold escapeValue in He.
    destruct (e =? 110); [rewrite Htail; reflexivity|].
    destruct (e =? 116); [rewrite Htail; reflexivity|].
    destruct (e =? 39); [rewrite Htail; reflexivity|].
    destruct (e =? 92); [rewrite Htail; reflexivity|discriminate He].
  - exact (errorsOf_error0 (advance (advance t 1) 1) UnexpectedEof).
Qed.

(** [readString] on a literal that the input ends in: after the items, or
    after the backslash that follows them. *)
Lemma readString_unterminated t pre items cut :
  At t pre (0x27 :: encode items ++ cut) ->
  Forall plainOk items ->
  cut = [] \/ cut = [0x5c] ->
  exists t' ds,
    readString t
    = (Token.mk String_ (getPosition t) (getPosition t')
         (match cut with
          | [] => None
          | _ :: _ => Some (StringV (decode items))
          end) true, t')
    /\ input t' = input t
    /\ pos t'
       = JS.length (input t)
         + (match items, cut with [], [] => 1 | _, _ => 0 end)
    /\ row t' = row t + lineFeeds items
    /\ errorsOf t' = errorsOf t ++ ds
    /\ map Diagnostic.kind ds = escapeErrors items ++ [UnexpectedEof].
Proof.
  intros HAt HF Hcut.
  pose proof (At_advance _ _ _ _ HAt) as HA1.
  assert (Hstart : pos (advance t 1) = JS.length (pre ++ [0x27]))
    by apply HA1.
  assert (Hin : input t = pre ++ 0x27 :: encode items ++ cut) by apply HAt.
  unfold readString. rewrite (At_remaining _ _ _ HA1), Hstart.
  destruct Hcut as [-> | ->].
  - (* the input ends after the items *)
    rewrite app_nil_r in *.
    destruct items as [|i0 items0] eqn:Eitems.
    + (* no item: the opening quote is the last unit *)
      cbn [encode flat_map] in *.
      rewrite (At_getChar _ _ _ HA1).
      cbn [List.length readString_loop hd_error charIs].
      unfold readString_body, readString_escape, readString_tail.
      cbn [charIs].
      assert (Hend : atEnd (advance (advance t 1) 1) = true).
      { destruct HA1 as [Hi Hp]. unfold atEnd. apply Z.leb_le.
        cbn [input pos advance set_col set_pos] in *.
        rewrite Hi, Hp, app_nil_r. lia. }
      rewrite Hend.
      exists (error0 (advance (advance t 1) 1) UnexpectedEof), 
        [Diagnostic.mk UnexpectedEof
           (getPosition (advance (advance t 1) 1))
           (getPosition (advance (advance t 1) 1))].
      split; [reflexivity|]. split; [reflexivity|].
      split.
      { destruct HAt as [Hi Hp].
        cbn [input pos advance set_col set_pos error0 error set_store].
        rewrite Hi, Hp, length_app, length_cons.
        change (JS.length []) with 0. lia. }
      split; [cbn [lineFeeds fold_right]; cbn; lia|].
      split; [|reflexivity].
      exact (errorsOf_error0 (advance (advance t 1) 1) UnexpectedEof).
    + (* the last item ends the input *)
      rewrite <- Eitems in *.
      assert (Hne : items <> []) by (rewrite Eitems; discriminate).
      clear Eitems i0 items0.
      destruct (exists_last Hne) as (items0 & last & ->).
      apply Forall_app in HF. destruct HF as [HF0 HFl].
      inversion HFl as [|? ? Hlast _]; subst.
      rewrite encode_app in HA1, Hin |- *.
      assert (HR : encode [last] <> []) by (destruct last; discriminate).
      assert (HA1' : At (advance t 1) ((pre ++ [0x27]) ++ [])
                       (encode items0 ++ encode [last]))
        by (rewrite app_nil_r; exact HA1).
      destruct (readString_loop_through items0
                  (S (List.length (encode items0 ++ encode [last])))
                  (getPosition t) (advance t 1) (pre ++ [0x27]) []
                  (encode [last]) [] HA1' HR HF0)
        as (n' & t1 & A' & seg' & value' & ds
            & Hrun & Hn' & HAt1 & HA' & Hv' & Hrow1 & Herr1 & Hk);
        [lia|].
      rewrite Hrun. cbn [app] in HA', Hv'.
      rewrite escapeErrors_app, lineFeeds_app.
      assert (Hfull : forall u : Tokenizer,
                At u ((A' ++ seg') ++ encode [last]) [] ->
                input u = input t /\ pos u = JS.length (input t) + 0).
      { intros u [Hi Hp]. rewrite Hp, Hi, Hin, app_nil_r, HA'.
        rewrite <- !app_assoc. cbn [app]. split; [reflexivity|lia]. }
      destruct last as [c|e].
      * (* a plain unit *)
        destruct Hlast as [Hq Hb]. cbn [encode flat_map app] in *.
        rewrite (At_getChar _ _ _ HAt1). cbn [hd_error].
        destruct (readString_loop_last n' (getPosition t) t1 _ c
                    (JS.length A') value' HAt1 Hq Hb Hn')
          as (t' & -> & HAt' & Hrow' & Herr').
        destruct (Hfull t' HAt') as [Hi' Hp'].
        exists t', (ds ++ [Diagnostic.mk UnexpectedEof (getPosition t')
                             (getPosition t')]).
        split; [destruct items0; reflexivity|]. split; [exact Hi'|].
        split; [destruct items0; exact Hp'|].
        split.
        { rewrite Hrow', Hrow1.
          cbn [row advance set_col set_pos lineFeeds fold_right itemRows].
          lia. }
        split; [rewrite Herr', Herr1, <- app_assoc; reflexivity|].
        rewrite map_app, Hk. cbn [escapeErrors flat_map app map].
        rewrite app_nil_r. reflexivity.
      * (* a backslash and a unit *)
        cbn [encode flat_map app] in *.
        rewrite (At_getChar _ _ _ HAt1). cbn [hd_error].
        destruct (escapeValue e) as [d|] eqn:He.
        -- destruct (readString_loop_last_escape n' (getPosition t) t1 A' seg'
                       e d value' HAt1 He)
             as (t' & -> & HAt' & Hrow' & Herr'); [cbn in Hn'; lia|].
           destruct (Hfull t' HAt') as [Hi' Hp'].
           exists t', (ds ++ [Diagnostic.mk UnexpectedEof (getPosition t')
                                (getPosition t')]).
           split; [destruct items0; reflexivity|]. split; [exact Hi'|].
           split; [destruct items0; exact Hp'|].
           destruct (escapeValue_Some _ _ He) as [Hlf _].
           split.
           { rewrite Hrow', Hrow1.
             cbn [row advance set_col set_pos lineFeeds fold_right itemRows].
             destruct (Z.eqb_spec e 10) as [?|_]; [congruence|lia]. }
           split; [rewrite Herr', Herr1, <- app_assoc; reflexivity|].
           rewrite map_app, Hk. cbn [escapeErrors flat_map app map].
           rewrite He. cbn [app]. rewrite app_nil_r. reflexivity.
        -- destruct n' as [|n']; [cbn in Hn'; lia|].
           cbn [readString_loop charIs Z.eqb Pos.eqb].
           destruct (readString_body_unknown (getPosition t) t1 A' seg' e []
                       value' HAt1 He)
             as (t2 & -> & HAt2 & Hrow2 & d & Herr2 & Hd).
           destruct (escapeValue_None _ He) as (_ & _ & N3 & N4).
           rewrite (At_getChar _ _ _ HAt2). cbn [hd_error].
           destruct (readString_loop_last n' (getPosition t) t2 _ e
                       (JS.length (A' ++ seg' ++ [0x5c; e])) (value' ++ seg')
                       HAt2 N3 N4)
             as (t' & -> & HAt' & Hrow' & Herr'); [cbn in Hn'; lia|].
           replace (((A' ++ seg') ++ [0x5c]) ++ [e])
             with ((A' ++ seg') ++ [0x5c; e]) in HAt'
             by (rewrite <- (app_assoc (A' ++ seg') [0x5c] [e]); reflexivity).
           destruct (Hfull t' HAt') as [Hi' Hp'].
           exists t', (ds ++ [d; Diagnostic.mk UnexpectedEof (getPosition t')
                                   (getPosition t')]).
           split; [destruct items0; reflexivity|]. split; [exact Hi'|].
           split; [destruct items0; exact Hp'|].
           split.
           { rewrite Hrow', Hrow2, Hrow1.
             cbn [row advance set_col set_pos lineFeeds fold_right itemRows].
             destruct (e =? 10); lia. }
           split.
           { rewrite Herr', Herr2, Herr1, <- !app_assoc. reflexivity. }
           rewrite map_app, Hk. cbn [escapeErrors flat_map app map].
           rewrite He, Hd, <- app_assoc. reflexivity.
  - (* the input ends after a backslash *)
    assert (HR : [0x5c] <> []) by discriminate.
    assert (HA1' : At (advance t 1) ((pre ++ [0x27]) ++ [])
                     (encode items ++ [0x5c]))
      by (rewrite app_nil_r; exact HA1).
    destruct (readString_loop_through items
                (S (List.length (encode items ++ [0x5c])))
                (getPosition t) (advance t 1) (pre ++ [0x27]) []
                [0x5c] [] HA1' HR HF)
      as (n' & t1 & A' & seg' & value' & ds
          & Hrun & Hn' & HAt1 & HA' & Hv' & Hrow1 & Herr1 & Hk);
      [lia|].
    rewrite Hrun. cbn [app] in HA', Hv'.
    rewrite (readString_loop_cut n' (getPosition t) t1 A' seg' value' HAt1 Hn').
    rewrite Hv'.
    exists (error0 (advance t1 1) UnexpectedEof),
      (ds ++ [Diagnostic.mk UnexpectedEof (getPosition (advance t1 1))
                (getPosition (advance t1 1))]).
    split; [reflexivity|].
    assert (Hi1 : input t1 = input t).
    { destruct HAt1 as [Hi _]. rewrite Hi, Hin, HA'.
      rewrite <- !app_assoc. reflexivity. }
    split; [exact Hi1|].
    split.
    { destruct HAt1 as [Hi Hp].
      cbn [input pos advance set_col set_pos error0 error set_store].
      rewrite Hp, <- Hi1, Hi, !length_app, length_cons.
      change (JS.length []) with 0. destruct items; lia. }
    split; [exact Hrow1|].
    split.
    { rewrite (errorsOf_error0 (advance t1 1) UnexpectedEof).
      change (errorsOf (advance t1 1)) with (errorsOf t1).
      rewrite Herr1, <- app_assoc. reflexivity. }
    rewrite map_app, Hk. reflexivity.
Qed.


(** X30.  A string literal that no quote closes: the input ends after the
    items of the literal, or after a backslash that follows them.
    [nextToken] returns a String token with the error flag, and records the
    diagnostics of the unknown escapes and then one UnexpectedEof.  When the
    input ends after the items the token has no value; when it ends after a
    backslash the token has a value, the decoding of the items before the
    backslash.  The token ends where the cursor stops: at the end of the
    input, or one unit beyond it when the opening quote is the last unit of
    the input. *)
Theorem unterminated_string_literal :
  forall fuel t pre items cut,
    At (skipWhitespace' t) pre (0x27 :: encode items ++ cut) ->
    Forall plainOk items ->
    cut = [] \/ cut = [0x5c] ->
    exists tok t' ds,
      nextToken' (S fuel) t = Ret (Some tok, t')
      /\ Token.kind tok = String_
      /\ Token.hasError tok = true
      /\ Token.value tok
         = match cut with
           | [] => None
           | _ :: _ => Some (StringV (decode items))
           end
      /\ Token.start tok = getPosition (skipWhitespace' t)
      /\ Token.end_ tok = getPosition t'
      /\ pos t'
         = JS.length (input t)
           + match items, cut with [], [] => 1 | _, _ => 0 end
      /\ row t' = row (skipWhitespace' t) + lineFeeds items
      /\ errorsOf t' = errorsOf t ++ ds
      /\ map Diagnostic.kind ds = escapeErrors items ++ [UnexpectedEof].
Proof.
  intros fuel t pre items cut HAt HF Hcut.
  unfold nextToken. cbn [nextToken_in].
  rewrite <- (errorsOf_skipWhitespace t).
  destruct (skipWhitespace_fields t) as (Hi & _).
  rewrite <- Hi.
  set (t0 := skipWhitespace' t) in *. clearbody t0.
  rewrite (At_atEnd_cons _ _ _ _ HAt), (At_getChar _ _ _ HAt).
  cbn [hd_error charIs Z.eqb Pos.eqb].
  destruct (readString_unterminated t0 pre items cut HAt HF Hcut)
    as (t' & ds & -> & _ & Hp & Hrow & Herr & Hk).
  exists (Token.mk String_ (getPosition t0) (getPosition t')
            match cut with
            | [] => None
            | _ :: _ => Some (StringV (decode items))
            end true), t', ds.
  split; [reflexivity|].
  cbn [Token.kind Token.value Token.hasError Token.start Token.end_].
  repeat split; assumption.
Qed.


(** ** The diagnostics of operator tokens *)

Lemma Reads_operator_errors fuel t0 p :
  Reads' fuel t0 p ->
  valueless (Token.kind (fst p)) = true ->
  errorsOf (snd p)
  = errorsOf t0 ++ operatorDiagnostics (allowNewLineMarkers t0) (fst p).
Proof.
  intros HR Hv. destruct HR.
  - destruct (readString t0) as [tok t'] eqn:Hs. cbn [fst snd] in *.
    destruct (readString_shape t0 tok t' Hs) as [_ (K & _)].
    rewrite K in Hv. discriminate.
  - unfold operatorDiagnostics.
    cbn [fst snd getOneCharToken Token3 Token.kind Token.start].
    destruct (allowNewLineMarkers t0); [now rewrite app_nil_r|].
    exact (errorsOf_error0 t0 UnexpectedNewLineMarker).
  - table H; injection H as <- <-; now rewrite app_nil_r.
  - table H; injection H as <- <- <-; now rewrite app_nil_r.
  - table H; injection H as <- <-; now rewrite app_nil_r.
  - unfold readEllipsis, operatorDiagnostics.
    cbn [fst snd Token3 Token.kind Token.start Token.end_].
    destruct (negb (charIs (getChar (advance t0 1)) 46)
              || negb (charIs (peekChar (advance t0 1)) 46)).
    + cbn [getPosition Position.pos pos advance set_col set_pos error0 error
             set_store].
      replace (pos t0 + 1 - pos t0 =? 3) with false
        by (symmetry; apply Z.eqb_neq; lia).
      exact (errorsOf_error0 (advance t0 1) UnknownOperator).
    + cbn [getPosition Position.pos pos advance set_col set_pos].
      replace (pos t0 + 1 + 2 - pos t0 =? 3) with true
        by (symmetry; apply Z.eqb_eq; lia).
      now rewrite app_nil_r.
  - unfold getBooleanOp, operatorDiagnostics.
    cbn [fst snd Token3 Token.kind Token.start Token.end_].
    destruct (negb (charIs (peekChar t0) c)).
    + cbn [getPosition Position.pos pos advance set_col set_pos error0 error
             set_store].
      replace (pos t0 + 1 - pos t0 =? 2) with false
        by (symmetry; apply Z.eqb_neq; lia).
      table H; injection H as <- <-;
        exact (errorsOf_error0 t0 UnknownOperator).
    + cbn [getPosition Position.pos pos advance set_col set_pos].
      replace (pos t0 + 1 + 1 - pos t0 =? 2) with true
        by (symmetry; apply Z.eqb_eq; lia).
      table H; injection H as <- <-; now rewrite app_nil_r.
  - destruct p as [tok t']. cbn [fst snd] in *.
    unfold readComment in H1.
    destruct (readComment_loop fuel _ []) as [[t2 v]| |]; cbn [bind] in H1;
      try discriminate.
    injection H1 as <- <-. discriminate Hv.
  - destruct p as [tok t']. cbn [fst snd] in *. exfalso.
    unfold readNumber in H2.
    repeat match type of H2 with
      | (if ?b then _ else _) = _ => destruct b
      | match ?x with Some _ => _ | None => _ end = _ => destruct x
      | (let '(_, _) := ?x in _) = _ => destruct x
      | bind ?m _ = _ => destruct m; cbn [bind] in H2; try discriminate
      end; injection H2 as <- <-; discriminate Hv.
  - exfalso. unfold readIdent in Hv. cbn [fst Token4 Token.kind] in Hv.
    repeat match type of Hv with
      | context [if ?b then _ else _] => destruct b
      end; discriminate Hv.
Qed.

(** X14.  With a punctuation or operator token [nextToken] records, after
    the diagnostics of the units it skipped, at most one diagnostic:
    [UnexpectedNewLineMarker] for a [$] when markers are not allowed,
    [UnknownOperator] for a single [&] or [|] and for a [.] that does not
    begin [...]; nothing for any other operator. *)
Theorem operator_token_diagnostics :
  forall fuel t tok t',
    nextToken' fuel t = Ret (Some tok, t') ->
    valueless (Token.kind tok) = true ->
    exists ds,
      errorsOf t'
      = errorsOf t ++ ds ++ operatorDiagnostics (allowNewLineMarkers t) tok
      /\ UnexpectedReport JAVA_WHITESPACE_CHAR_CODES (input t) (pos t)
           (Position.pos (Token.start tok)) ds.
Proof.
  intros fuel t tok t' H Hv. apply nextToken_view in H.
  destruct H as (t0 & HR & [(Hn & _)|(_ & fuel' & p & Hp & Hr & ->)]);
    [discriminate|].
  injection Hr as ->.
  destruct (Resync_report _ _ HR) as (_ & ds & Hds & Hrep).
  destruct (Resync_facts _ _ HR) as (_ & _ & Ex & _).
  destruct (Reads_span _ _ _ Hp) as (Hs & _ & _).
  exists ds. rewrite (Reads_operator_errors _ _ _ Hp Hv), Hds, Hs.
  rewrite (ext_allowNewLineMarkers _ _ Ex), <- app_assoc.
  split; [reflexivity|exact Hrep].
Qed.


(** ** Rows and columns of operator tokens *)

Lemma Reads_operator_columns fuel t0 p :
  Reads' fuel t0 p ->
  valueless (Token.kind (fst p)) = true ->
  Position.row (Token.end_ (fst p)) = Position.row (Token.start (fst p))
  /\ Position.col (Token.end_ (fst p))
     = Position.col (Token.start (fst p))
       + match Token.kind (fst p) with
         | Spread => 1
         | _ => Position.pos (Token.end_ (fst p))
                - Position.pos (Token.start (fst p))
         end.
Proof.
  intros HR Hv. destruct HR.
  - destruct (readString t0) as [tok t'] eqn:Hs. cbn [fst snd] in *.
    destruct (readString_shape t0 tok t' Hs) as [_ (K & _)].
    rewrite K in Hv. discriminate.
  - destruct (allowNewLineMarkers t0); cbn; split; lia.
  - table H; injection H as <- <-; cbn; split; lia.
  - table H; injection H as <- <- <-; cbn; split; lia.
  - table H; injection H as <- <-; cbn; split; lia.
  - unfold readEllipsis.
    destruct (negb (charIs (getChar (advance t0 1)) 46)
              || negb (charIs (peekChar (advance t0 1)) 46)); cbn; split; lia.
  - unfold getBooleanOp.
    destruct (negb (charIs (peekChar t0) c));
      table H; injection H as <- <-; cbn; split; lia.
  - destruct p as [tok t']. cbn [fst snd] in *.
    unfold readComment in H1.
    destruct (readComment_loop fuel _ []) as [[t2 v]| |]; cbn [bind] in H1;
      try discriminate.
    injection H1 as <- <-. discriminate Hv.
  - destruct p as [tok t']. cbn [fst snd] in *. exfalso.
    unfold readNumber in H2.
    repeat match type of H2 with
      | (if ?b then _ else _) = _ => destruct b
      | match ?x with Some _ => _ | None => _ end = _ => destruct x
      | (let '(_, _) := ?x in _) = _ => destruct x
      | bind ?m _ = _ => destruct m; cbn [bind] in H2; try discriminate
      end; injection H2 as <- <-; discriminate Hv.
  - exfalso. unfold readIdent in Hv. cbn [fst Token4 Token.kind] in Hv.
    repeat match type of Hv with
      | context [if ?b then _ else _] => destruct b
      end; discriminate Hv.
Qed.

(** X15.  A punctuation or operator token lies on one row, and its end
    column is its start column plus the number of units it covers; except
    for the Spread token, whose end column is one after its start column
    also when it covers the three units of [...]. *)
Theorem operator_token_columns :
  forall fuel t tok t',
    nextToken' fuel t = Ret (Some tok, t') ->
    valueless (Token.kind tok) = true ->
    Position.row (Token.end_ tok) = Position.row (Token.start tok)
    /\ Position.col (Token.end_ tok)
       = Position.col (Token.start tok)
         + match Token.kind tok with
           | Spread => 1
           | _ => Position.pos (Token.end_ tok)
                  - Position.pos (Token.start tok)
           end.
Proof.
  intros fuel t tok t' H Hv. apply nextToken_view in H.
  destruct H as (t0 & HR & [(Hn & _)|(_ & fuel' & p & Hp & Hr & ->)]);
    [discriminate|].
  injection Hr as ->. exact (Reads_operator_columns _ _ _ Hp Hv).
Qed.


(** ** readNumber on digits outside ASCII *)

Lemma readNumber_loop_digits ds :
  forall n start t pre rest iv v e es u,
    At t pre (ds ++ rest) ->
    Forall (fun d => isDigit' (Some d) = true) ds ->
    isDigit' (hd_error rest) = false ->
    hd_error rest <> Some 0x2e ->
    (lor20 (hd_error rest) =? 0x65) = false ->
    (List.length ds <= n)%nat ->
    exists t' l errs,
      readNumber_loop' n start t (Num.mk (getChar t) iv v e es 0%float u false)
      = (t', l)
      /\ At t' (pre ++ ds) rest
      /\ errorsOf t' = errorsOf t ++ errs
      /\ Forall (fun d => Diagnostic.kind d = UnicodeDigit
                          /\ Diagnostic.end_ d = Diagnostic.start d) errs
      /\ map (fun d => Position.pos (Diagnostic.start d)) errs
         = unicodeOffsets (JS.length pre) ds
      /\ Num.intValue l = fold_left digitStep ds iv
      /\ Num.isExp l = false
      /\ truthy (Num.decimalDigits l) = false
      /\ Num.isUnicode l = u || existsb (Z.ltb 127) ds.
Proof.
  induction ds as [|d ds IH];
    intros n start t pre rest iv v e es u HAt Hds Hrest Hdot He Hn.
  - cbn [app] in HAt. rewrite app_nil_r.
    exists t, (Num.mk (getChar t) iv v e es 0%float u false), [].
    split.
    { destruct n; cbn [readNumber_loop]; destruct (atEnd t); try reflexivity.
      unfold readNumber_step.
      rewrite (At_getChar _ _ _ HAt), Hrest.
      change (truthy 0%float) with false. cbn [negb andb].
      rewrite (charIs_false _ _ Hdot), He. reflexivity. }
    split; [exact HAt|]. split; [now rewrite app_nil_r|].
    split; [constructor|]. split; [reflexivity|].
    cbn [fold_left existsb Num.intValue Num.isExp Num.decimalDigits
         Num.isUnicode].
    rewrite orb_false_r. repeat split.
  - inversion Hds as [|? ? Hd Hds']; subst.
    destruct n as [|n]; [cbn in Hn; lia|].
    cbn [app] in HAt. pose proof (At_getChar _ _ _ HAt) as Hc.
    cbn [hd_error] in Hc. rewrite Hc.
    cbn [readNumber_loop]. rewrite (At_atEnd_cons _ _ _ _ HAt).
    unfold readNumber_step. rewrite Hd.
    change (truthy 0%float) with false.
    pose proof (At_advance _ _ _ _ HAt) as HAt1.
    assert (Hpre : pre ++ d :: ds = (pre ++ [d]) ++ ds)
      by (rewrite <- app_assoc; reflexivity).
    destruct (127 <? d) eqn:E127; cbn [Num_set_c].
    + set (t1 := advance (error0 t UnicodeDigit) 1).
      assert (HAt1' : At t1 (pre ++ [d]) (ds ++ rest)) by exact HAt1.
      destruct (IH n start t1 (pre ++ [d]) rest iv v e es true HAt1' Hds'
                  Hrest Hdot He) as (t' & l & errs & Hrun & HAt' & Herr & HF
                                     & Hoff & Hiv & Hie & Hdd & Hun);
        [cbn in Hn; lia|].
      exists t', l,
        (Diagnostic.mk UnicodeDigit (getPosition t) (getPosition t) :: errs).
      split; [exact Hrun|]. rewrite Hpre. split; [exact HAt'|].
      split.
      { rewrite Herr.
        change (errorsOf t1) with (errorsOf (error0 t UnicodeDigit)).
        rewrite errorsOf_error0, <- app_assoc. reflexivity. }
      split; [constructor; [split; reflexivity|exact HF]|].
      split.
      { cbn [map unicodeOffsets Diagnostic.start getPosition Position.pos].
        rewrite E127, Hoff, length_app. cbn [app].
        destruct HAt as [_ Hp]. rewrite Hp. reflexivity. }
      cbn [fold_left existsb]. unfold digitStep at 2. rewrite E127.
      split; [exact Hiv|]. split; [exact Hie|]. split; [exact Hdd|].
      rewrite Hun. now rewrite orb_true_r.
    + destruct (IH n start (advance t 1) (pre ++ [d]) rest (iv * 10 + (d - 48))
                  v e es u HAt1 Hds' Hrest Hdot He)
        as (t' & l & errs & Hrun & HAt' & Herr & HF & Hoff & Hiv & Hie & Hdd
            & Hun);
        [cbn in Hn; lia|].
      exists t', l, errs.
      split; [exact Hrun|]. rewrite Hpre. split; [exact HAt'|].
      split; [exact Herr|]. split; [exact HF|].
      split.
      { cbn [unicodeOffsets]. rewrite E127, Hoff, length_app. reflexivity. }
      cbn [fold_left existsb]. unfold digitStep at 2. rewrite E127.
      split; [exact Hiv|]. split; [exact Hie|]. split; [exact Hdd|exact Hun].
Qed.

Lemma digitStep_ascii ds :
  forall iv, existsb (Z.ltb 127) ds = false ->
    fold_left digitStep ds iv = fold_left intStep ds iv.
Proof.
  induction ds as [|d ds IH]; intros iv H; cbn [fold_left]; [reflexivity|].
  cbn [existsb] in H. apply orb_false_elim in H. destruct H as [Hd Hds].
  unfold digitStep at 2. rewrite Hd. now apply IH.
Qed.

(** X21.  On a run of decimal digits, not followed by a digit, a point or
    an [e] and not beginning a hexadecimal prefix, [readNumber] returns a
    Number token over the run; each digit above 127 is recorded as one
    [UnicodeDigit] diagnostic at its offset, and when there is one the
    token has no value and the error flag set; otherwise the value is the
    integer that the digits denote and the flag is clear. *)
Theorem readNumber_reports_digits_outside_ascii :
  forall t pre ds rest,
    At t pre (ds ++ rest) ->
    ds <> [] ->
    Forall (fun d => isDigit' (Some d) = true) ds ->
    isDigit' (hd_error rest) = false ->
    hd_error rest <> Some 0x2e ->
    (lor20 (hd_error rest) =? 0x65) = false ->
    (forall x r, ds ++ rest = 0x30 :: x :: r -> Z.lor x 0x20 <> 0x78) ->
    exists t' errs,
      readNumber' t
      = Ret (Token.mk Number (getPosition t) (getPosition t')
               (if existsb (Z.ltb 127) ds then None
                else Some (BigIntV (fold_left intStep ds 0)))
               (existsb (Z.ltb 127) ds), t')
      /\ At t' (pre ++ ds) rest
      /\ errorsOf t' = errorsOf t ++ errs
      /\ Forall (fun d => Diagnostic.kind d = UnicodeDigit
                          /\ Diagnostic.end_ d = Diagnostic.start d) errs
      /\ map (fun d => Position.pos (Diagnostic.start d)) errs
         = unicodeOffsets (JS.length pre) ds.
Proof.
  intros t pre ds rest HAt Hne Hds Hrest Hdot He Hhex.
  unfold readNumber.
  assert (Hnx : charIs (getChar t) 48 && (lor20 (peekChar t) =? 120) = false).
  { destruct ds as [|d1 ds']; [congruence|]. cbn [app] in HAt, Hhex.
    rewrite (At_getChar _ _ _ HAt), (At_peekChar _ _ _ _ HAt).
    cbn [hd_error charIs].
    destruct (Z.eqb_spec d1 48) as [->|_]; [|reflexivity].
    destruct (ds' ++ rest) as [|x r] eqn:Er; [reflexivity|].
    cbn [hd_error lor20 andb]. apply Z.eqb_neq. now apply (Hhex x r). }
  rewrite Hnx.
  destruct (readNumber_loop_digits ds
              (Z.to_nat (JS.length (input t) - pos t)) (getPosition t) t pre
              rest 0 0%float (Finite 0) 1%float false HAt Hds Hrest Hdot He)
    as (t' & l & errs & Hrun & HAt' & Herr & HF & Hoff & Hiv & Hie & Hdd & Hun).
  { rewrite (At_remaining _ _ _ HAt), List.length_app. lia. }
  rewrite Hrun. unfold finalValue. rewrite Hie, Hdd, Hun, Hiv.
  cbn [bind orb].
  exists t', errs. split; [|auto].
  destruct (existsb (Z.ltb 127) ds) eqn:Eu; [reflexivity|].
  now rewrite digitStep_ascii.
Qed.


(** ** Successive calls *)

(** X23.  The token of a call does not begin before the end of the token
    of the call before it, and the units between the two are whitespace or
    units that no token begins with. *)
Theorem successive_tokens_do_not_overlap :
  forall fuel1 fuel2 t a t1 b t2,
    nextToken' fuel1 t = Ret (Some a, t1) ->
    nextToken' fuel2 t1 = Ret (Some b, t2) ->
    Position.pos (Token.end_ a) <= Position.pos (Token.start b)
    /\ forall i,
         Position.pos (Token.end_ a) <= i < Position.pos (Token.start b) ->
         isWhitespace' (JS.charCodeAt (input t) i) = true
         \/ unexpected' (JS.charCodeAt (input t) i).
Proof.
  intros fuel1 fuel2 t a t1 b t2 H1 H2.
  apply nextToken_view in H1, H2.
  destruct H1 as (u0 & HR1 & [(Hn & _)|(_ & f1 & p1 & Hp1 & Hr1 & ->)]);
    [discriminate|].
  destruct H2 as (u1 & HR2 & [(Hn & _)|(_ & f2 & p2 & Hp2 & Hr2 & ->)]);
    [discriminate|].
  injection Hr1 as ->. injection Hr2 as ->.
  destruct (Reads_span _ _ _ Hp1) as (_ & He1 & Hi1).
  destruct (Reads_span _ _ _ Hp2) as (Hs2 & _ & _).
  destruct (Resync_facts _ _ HR1) as (Hi0 & _).
  destruct (Resync_facts _ _ HR2) as (_ & Hle & _).
  destruct (Resync_report _ _ HR2) as (Hsk & _).
  rewrite He1, Hs2. cbn [getPosition Position.pos].
  split; [exact Hle|].
  intros i Hi. rewrite <- Hi0, <- Hi1. now apply Hsk.
Qed.


End ScannerProperties.

(** ** The constructor *)

(** X24.  A tokenizer built over arrays of the caller's store starts at
    offset, row and column 0; its two arrays are one and the same exactly
    when the caller gave the same array for both; an array the caller did
    not give is empty, the one it gave has the contents it had; and the
    arrays of the store are as they were. *)
Theorem constructor_arrays :
  forall inp o s,
    (forall r, opt_errors o = Some r -> (r < next s)%nat) ->
    (forall r, opt_warnings o = Some r -> (r < next s)%nat) ->
    getPosition (newTokenizer inp o s) = Position.mk 0 0 0
    /\ input (newTokenizer inp o s) = inp
    /\ (errors (newTokenizer inp o s) = warnings (newTokenizer inp o s)
        <-> exists r, opt_errors o = Some r /\ opt_warnings o = Some r)
    /\ errorsOf (newTokenizer inp o s)
       = match opt_errors o with Some r => deref s r | None => [] end
    /\ warningsOf (newTokenizer inp o s)
       = match opt_warnings o with Some r => deref s r | None => [] end
    /\ (forall r, (r < next s)%nat ->
          deref (store (newTokenizer inp o s)) r = deref s r).
Proof.
  intros inp [ac anl [e|] [w|]] s He Hw; cbn in He, Hw;
    unfold newTokenizer, errorsOf, warningsOf, alloc, deref;
    cbn [opt_errors opt_warnings getPosition input errors warnings store pos
         row col arrays next].
  - repeat split; try reflexivity.
    + intros ->. now exists w.
    + intros (r & [= ->] & [= ->]). reflexivity.
  - specialize (He e eq_refl).
    assert (Hne : Nat.eqb e (next s) = false) by (apply Nat.eqb_neq; lia).
    rewrite Hne, Nat.eqb_refl.
    repeat split; try reflexivity.
    + intros ->. lia.
    + intros (r & _ & [=]).
    + intros r Hr.
      assert (Nat.eqb r (next s) = false) as -> by (apply Nat.eqb_neq; lia).
      reflexivity.
  - specialize (Hw w eq_refl).
    assert (Hne : Nat.eqb w (next s) = false) by (apply Nat.eqb_neq; lia).
    rewrite Hne, Nat.eqb_refl.
    repeat split; try reflexivity.
    + intros <-. lia.
    + intros (r & [=] & _).
    + intros r Hr.
      assert (Nat.eqb r (next s) = false) as -> by (apply Nat.eqb_neq; lia).
      reflexivity.
  - cbn [next]. rewrite !Nat.eqb_refl.
    assert (Nat.eqb (next s) (S (next s)) = false) as ->
      by (apply Nat.eqb_neq; lia).
    repeat split; try reflexivity.
    + intros E. exfalso. revert E. apply Nat.neq_succ_diag_r.
    + intros (r & [=] & _).
    + intros r Hr.
      assert (Nat.eqb r (S (next s)) = false) as -> by (apply Nat.eqb_neq; lia).
      assert (Nat.eqb r (next s) = false) as -> by (apply Nat.eqb_neq; lia).
      reflexivity.
Qed.

(** ** The whitespace list of the generator *)

Lemma includes_In a c : includes a c = true <-> In c a.
Proof.
  unfold includes. rewrite existsb_exists. split.
  - intros (x & Hx & E). apply Z.eqb_eq in E. now subst.
  - intros H. exists c. split; [exact H|apply Z.eqb_refl].
Qed.

Lemma setFrom_In l :
  forall seen c, In c (setFrom seen l) <-> In c l /\ ~ In c seen.
Proof.
  induction l as [|x l IH]; intros seen c; cbn [setFrom].
  - cbn. tauto.
  - destruct (includes seen x) eqn:E.
    + apply includes_In in E. rewrite IH. cbn [In]. split.
      * intros [H1 H2]. auto.
      * intros [[->|H1] H2]; [contradiction|auto].
    + assert (~ In x seen) as Hx
        by (intros H; apply includes_In in H; congruence).
      cbn [In]. rewrite IH, in_app_iff. cbn [In]. split.
      * intros [<-|[H1 H2]]; [auto|]. split; [auto|]. intros H. apply H2. auto.
      * intros [[->|H1] H2]; [auto|].
        destruct (Z.eq_dec x c) as [->|N]; [auto|].
        right. split; [exact H1|]. intros [H|[H|[]]]; auto.
Qed.

Lemma setFrom_NoDup l : forall seen, NoDup (setFrom seen l).
Proof.
  induction l as [|x l IH]; intros seen; cbn [setFrom]; [constructor|].
  destruct (includes seen x); [apply IH|].
  constructor; [|apply IH].
  rewrite setFrom_In, in_app_iff. cbn [In]. tauto.
Qed.

(** X25.  The whitespace list that the generator writes holds no unit
    twice, and holds exactly the nine control characters Java adds and the
    [White_Space] code points up to [0xffff] other than the three no-break
    spaces; so these, and nothing else, are what the tokenizer takes for
    whitespace under the generated list. *)
Theorem javaWhitespace_members :
  forall whiteSpaceCodePoints c,
    NoDup (javaWhitespace whiteSpaceCodePoints)
    /\ (In c (javaWhitespace whiteSpaceCodePoints)
        <-> In c javaExtraSpace
            \/ (In c whiteSpaceCodePoints /\ c <= 0xffff
                /\ ~ In c javaNonSpace))
    /\ (isWhitespace (javaWhitespace whiteSpaceCodePoints) (Some c) = true
        <-> In c (javaWhitespace whiteSpaceCodePoints)).
Proof.
  intros ws c. unfold javaWhitespace. split; [apply setFrom_NoDup|]. split.
  - rewrite setFrom_In, in_app_iff, !filter_In, negb_true_iff.
    unfold nonSupplementary. rewrite Z.leb_le.
    assert (includes javaNonSpace c = false <-> ~ In c javaNonSpace) as ->.
    { rewrite <- includes_In. destruct (includes javaNonSpace c); split;
        congruence. }
    cbn [In]. tauto.
  - unfold isWhitespace. apply (includes_In _ c).
Qed.


(** ** Assignment discovery *)

Section NodeInduction.

Variable P : Node -> Prop.
Hypothesis HNull : P Null.
Hypothesis HBinary : forall op l r, P l -> P r -> P (BinaryExpression op l r).
Hypothesis HParen : forall v, P v -> P (ParenthesisedExpression v).
Hypothesis HUnary : forall v, P v -> P (UnaryExpression v).
Hypothesis HFunction : forall ps, Forall P ps -> P (FunctionExpression ps).
Hypothesis HMap : forall ps, Forall P ps -> P (MapLiteral ps).
Hypothesis HList : forall ps, Forall P ps -> P (ListLiteral ps).
Hypothesis HVariable : forall name, P (VariableNode name).
Hypothesis HOther : forall kind, P (OtherNode kind).

(** Induction on nodes that reaches the elements of [params]. *)
Lemma Node_nested_ind : forall n, P n.
Proof.
  fix IH 1. intros [|op l r|v|v|ps|ps|ps|name|kind].
  - exact HNull.
  - apply HBinary; apply IH.
  - apply HParen, IH.
  - apply HUnary, IH.
  - apply HFunction. induction ps as [|p ps IHps]; constructor; [apply IH|exact IHps].
  - apply HMap. induction ps as [|p ps IHps]; constructor; [apply IH|exact IHps].
  - apply HList. induction ps as [|p ps IHps]; constructor; [apply IH|exact IHps].
  - apply HVariable.
  - apply HOther.
Qed.

End NodeInduction.

Lemma findAssign_params_app (ps : list Node) :
  Forall (fun p => forall names, findAssign p names = names ++ findAssign p []) ps ->
  forall names,
    fold_left (fun names param => findAssign param names) ps names
    = names ++ fold_left (fun names param => findAssign param names) ps [].
Proof.
  induction 1 as [|p ps Hp _ IH]; intros names; cbn [fold_left].
  - now rewrite app_nil_r.
  - rewrite IH, (IH (findAssign p [])), Hp. now rewrite app_assoc.
Qed.

(** The walk only appends to [names]: what it finds does not depend on what
    was found before. *)
Lemma findAssign_app (scope : Node) :
  forall names, findAssign scope names = names ++ findAssign scope [].
Proof.
  induction scope as [|op l r IHl IHr|v IH|v IH|ps IH|ps IH|ps IH|name|kind]
    using Node_nested_ind; intros names; cbn [findAssign];
    try (now rewrite app_nil_r); try apply IH;
    try (now apply findAssign_params_app).
  destruct (isAssignOperator op).
  - destruct (isVariable (resolveParenthesised l)); [now rewrite app_nil_r|].
    rewrite IHr, (IHr ([] ++ _)). now rewrite app_assoc.
  - rewrite IHr, IHl, (IHr (findAssign l [])). now rewrite app_assoc.
Qed.

(** C8.  For a BinaryExpression whose operator is [=], [+=] or [<>]: when
    the lvalue, unwrapped of its parentheses, is not a Variable node, the
    walk appends the expression to the result and then what it finds in the
    rvalue, and nothing from the lvalue; when it is a Variable node, the walk
    appends nothing at all. *)
Theorem findAssign_assignment :
  forall operator lvalue rvalue names,
    operator = "="%string \/ operator = "+="%string \/ operator = "<>"%string ->
    findAssign (BinaryExpression operator lvalue rvalue) names
    = names ++
      (if isVariable (resolveParenthesised lvalue) then []
       else BinaryExpression operator lvalue rvalue :: findAssign rvalue []).
Proof.
  intros op l r names Hop. cbn [findAssign].
  assert (isAssignOperator op = true) as ->
    by (destruct Hop as [-> | [-> | ->]]; reflexivity).
  destruct (isVariable (resolveParenthesised l)); [now rewrite app_nil_r|].
  rewrite findAssign_app, <- app_assoc. reflexivity.
Qed.

(** The example of the specification: only the assignment to [[a, b]] is
    found. *)
Example findAssign_example :
  findAssign example_scope []
  = [BinaryExpression "="
       (ListLiteral [VariableNode "a"; VariableNode "b"]) (OtherNode "FunctionCall")].
Proof. reflexivity. Qed.

(** ** Further properties of the walk *)

Lemma findAssign_params (ps : list Node) :
  forall names,
    fold_left (fun names param => findAssign param names) ps names
    = names ++ flat_map (fun p => findAssign p []) ps.
Proof.
  induction ps as [|p ps IH]; intros names; cbn [fold_left flat_map].
  - now rewrite app_nil_r.
  - rewrite IH, findAssign_app, <- app_assoc. reflexivity.
Qed.

(** X16.  What the walk finds in a scope does not depend on the names
    found before: it leaves them in place and appends the same nodes to
    any of them. *)
Theorem findAssign_only_appends :
  forall scope, exists found,
    forall names, findAssign scope names = names ++ found.
Proof.
  intros scope. exists (findAssign scope []). intros names.
  apply findAssign_app.
Qed.

(** X17.  The walk is compositional: under an operator that is no
    assignment it finds what it finds in the left side, then what it finds
    in the right side; under a function expression, a map or a list what it
    finds in each element, in order; parentheses and unary operators are
    transparent. *)
Theorem findAssign_compositional :
  (forall op l r, isAssignOperator op = false ->
     findAssign (BinaryExpression op l r) []
     = findAssign l [] ++ findAssign r [])
  /\ (forall ps,
        findAssign (FunctionExpression ps) []
        = flat_map (fun p => findAssign p []) ps
        /\ findAssign (MapLiteral ps) [] = flat_map (fun p => findAssign p []) ps
        /\ findAssign (ListLiteral ps) [] = flat_map (fun p => findAssign p []) ps)
  /\ (forall v,
        findAssign (ParenthesisedExpression v) [] = findAssign v []
        /\ findAssign (UnaryExpression v) [] = findAssign v []).
Proof.
  split; [|split].
  - intros op l r Hop. cbn [findAssign]. rewrite Hop. apply findAssign_app.
  - intros ps. cbn [findAssign]. rewrite findAssign_params. auto.
  - intros v. split; reflexivity.
Qed.

Lemma incl_flat_map_subnodes (ps : list Node) :
  Forall (fun p => incl (findAssign p []) (subnodes p)) ps ->
  incl (flat_map (fun p => findAssign p []) ps) (flat_map subnodes ps).
Proof.
  induction 1 as [|p ps Hp _ IH]; cbn [flat_map]; [apply incl_refl|].
  apply incl_app; [apply incl_appl, Hp|apply incl_appr, IH].
Qed.

Lemma Forall_flat_map_discovery (ps : list Node) :
  Forall (fun p => Forall isDiscovery (findAssign p [])) ps ->
  Forall isDiscovery (flat_map (fun p => findAssign p []) ps).
Proof.
  induction 1 as [|p ps Hp _ IH]; cbn [flat_map]; [constructor|].
  apply Forall_app. split; assumption.
Qed.

Lemma findAssign_discoveries (scope : Node) :
  Forall isDiscovery (findAssign scope []).
Proof.
  induction scope as [|op l r IHl IHr|v IH|v IH|ps IH|ps IH|ps IH|name|kind]
    using Node_nested_ind; cbn [findAssign];
    try (constructor; fail); try exact IH;
    try (rewrite findAssign_params; cbn [app];
         now apply Forall_flat_map_discovery).
  destruct (isAssignOperator op) eqn:Hop.
  - destruct (isVariable (resolveParenthesised l)) eqn:Hv; [constructor|].
    rewrite findAssign_app. cbn [app].
    constructor; [split; assumption|exact IHr].
  - rewrite findAssign_app. apply Forall_app. split; assumption.
Qed.

Lemma findAssign_subnodes (scope : Node) :
  incl (findAssign scope []) (subnodes scope).
Proof.
  induction scope as [|op l r IHl IHr|v IH|v IH|ps IH|ps IH|ps IH|name|kind]
    using Node_nested_ind; cbn [findAssign subnodes];
    try (apply incl_nil_l); try (apply incl_tl; exact IH);
    try (rewrite findAssign_params; cbn [app];
         apply incl_tl; now apply incl_flat_map_subnodes).
  destruct (isAssignOperator op).
  - destruct (isVariable (resolveParenthesised l)); [apply incl_nil_l|].
    rewrite findAssign_app. cbn [app].
    apply incl_cons; [now left|].
    apply incl_tl, incl_appr, IHr.
  - rewrite findAssign_app. apply incl_tl.
    apply incl_app; [apply incl_appl, IHl|apply incl_appr, IHr].
Qed.

(** X18.  Every node the walk adds to the names is a node of the scope, and
    is an assignment, compound assignment or swap whose left side, out of
    its parentheses, is not a variable. *)
Theorem findAssign_finds_assignments_of_the_scope :
  forall scope names n,
    In n (findAssign scope names) ->
    In n names \/ (In n (subnodes scope) /\ isDiscovery n).
Proof.
  intros scope names n H. rewrite findAssign_app in H.
  apply in_app_or in H. destruct H as [H|H]; [now left|right].
  split; [now apply findAssign_subnodes|].
  pose proof (findAssign_discoveries scope) as HF.
  rewrite Forall_forall in HF. now apply HF.
Qed.

(** X19.  Whatever the scope resolver answers, [findVariableNames] returns
    nothing when the stack is empty, and otherwise only assignments of the
    first scope of the stack: the scopes after the first are never looked
    at. *)
Theorem findVariableNames_first_scope_only :
  forall findScope root node,
    (findScope root node = [] -> findVariableNames findScope root node = [])
    /\ (forall scope stack stack',
          findScope root node = scope :: stack ->
          findVariableNames findScope root node
          = findVariableNames (fun _ _ => scope :: stack') root node
          /\ Forall isDiscovery (findVariableNames findScope root node)
          /\ incl (findVariableNames findScope root node) (subnodes scope)).
Proof.
  intros fs root node. unfold findVariableNames. split.
  - intros ->. reflexivity.
  - intros scope stack stack' ->.
    split; [reflexivity|].
    split; [apply findAssign_discoveries|apply findAssign_subnodes].
Qed.


(** ** The theorems at concrete inputs *)

Lemma Latin_ascii_digits :
  forall c, isAsciiDigit c -> Latin.DECIMAL_DIGIT_CHAR_CODES c <> None.
Proof.
  intros c [H1 H2]. unfold Latin.DECIMAL_DIGIT_CHAR_CODES.
  rewrite (proj2 (Z.leb_le _ _) H1), (proj2 (Z.leb_le _ _) H2). discriminate.
Qed.

Lemma Latin_e_not_digit :
  Latin.DECIMAL_DIGIT_CHAR_CODES 0x65 = None
  /\ Latin.DECIMAL_DIGIT_CHAR_CODES 0x45 = None.
Proof. split; reflexivity. Qed.


(** C5 on [&x]. *)
Lemma boolean_op_mismatch_witness :
  exists tok t',
    Latin.nextToken 1 (Latin.tokenizer "&x") = Ret (Some tok, t')
    /\ Token.kind tok = And
    /\ map Diagnostic.kind (errorsOf t') = [UnknownOperator]
    /\ pos t' = 1.
Proof.
  destruct (boolean_op_mismatch Latin.LETTER_CHAR_CODES
              Latin.JAVA_WHITESPACE_CHAR_CODES Latin.DECIMAL_DIGIT_CHAR_CODES
              Latin.CONSTANTS Latin.pow10 Latin.bigIntTooBig
              Latin.callStackFrames 0 (Latin.tokenizer "&x") 0x26)
    as (tok & t' & H & Hk & _ & _ & _ & _ & He & Hp).
  - left. reflexivity.
  - vm_compute. reflexivity.
  - vm_compute. discriminate.
  - exists tok, t'. split; [exact H|]. split; [exact Hk|].
    split; [rewrite He; reflexivity|exact Hp].
Defined.

(** C6 on [0x1F]: the value is 31. *)
Lemma hex_literal_witness :
  exists tok t',
    Latin.nextToken 1 (Latin.tokenizer "0x1F") = Ret (Some tok, t')
    /\ Token.kind tok = HexNumber
    /\ Token.value tok = Some (BigIntV 31)
    /\ Token.hasError tok = false.
Proof.
  destruct (hex_literal Latin.LETTER_CHAR_CODES
              Latin.JAVA_WHITESPACE_CHAR_CODES Latin.DECIMAL_DIGIT_CHAR_CODES
              Latin.CONSTANTS Latin.pow10 Latin.bigIntTooBig
              Latin.callStackFrames 0 (Latin.tokenizer "0x1F")
              [] 0x78 (JS.lit "1F") [])
    as (tok & t' & H & Hk & _ & _ & _ & Hv & _).
  - vm_compute. discriminate.
  - split; vm_compute; reflexivity.
  - left. reflexivity.
  - repeat constructor.
  - reflexivity.
  - exists tok, t'. split; [exact H|]. split; [exact Hk|].
    destruct Hv as (Hv & Hf & _); [discriminate|]. split; [exact Hv|exact Hf].
Defined.

(** C8 on the assignment [[a, b] = f()]. *)
Lemma findAssign_assignment_witness :
  findAssign
    (BinaryExpression "="
       (ListLiteral [VariableNode "a"; VariableNode "b"]) (OtherNode "FunctionCall")) []
  = [BinaryExpression "="
       (ListLiteral [VariableNode "a"; VariableNode "b"]) (OtherNode "FunctionCall")].
Proof.
  apply (findAssign_assignment "="
           (ListLiteral [VariableNode "a"; VariableNode "b"])
           (OtherNode "FunctionCall") []).
  left. reflexivity.
Defined.

(** C10 on [#;] with the default, distinct arrays. *)
Lemma warnings_unchanged_witness :
  exists r t',
    Latin.nextToken 2 (Latin.tokenizer "#;") = Ret (r, t')
    /\ warningsOf t' = warningsOf (Latin.tokenizer "#;")
    /\ map Diagnostic.kind (errorsOf t') = [UnexpectedToken].
Proof.
  eexists. eexists. split; [vm_compute; reflexivity|].
  destruct (warnings_unchanged_when_not_aliased Latin.LETTER_CHAR_CODES
              Latin.JAVA_WHITESPACE_CHAR_CODES Latin.DECIMAL_DIGIT_CHAR_CODES
              Latin.CONSTANTS Latin.pow10 Latin.bigIntTooBig
              Latin.callStackFrames (Latin.tokenizer "#;"))
    as [Hone _].
  - vm_compute. discriminate.
  - split; [|vm_compute; reflexivity].
    eapply (Hone 2%nat). vm_compute. reflexivity.
Defined.

(** On [2^13 + 1] units [#] and with room for [2^13] calls of [nextToken]
    by itself, the call ends with the [RangeError] of the stack. *)
Example hash_run_exhausts_the_stack :
  Latin.nextToken (Nat.pow 2 13 + 1)
    (newTokenizer (repeat 0x23 (Nat.pow 2 13 + 1)) noOptions emptyStore)
  = Throw RangeError.
Proof.
  unfold Latin.nextToken, nextToken.
  apply (nextToken_in_stack_exhausted Latin.LETTER_CHAR_CODES
           Latin.JAVA_WHITESPACE_CHAR_CODES Latin.DECIMAL_DIGIT_CHAR_CODES
           Latin.CONSTANTS Latin.pow10 Latin.bigIntTooBig
           Latin.callStackFrames _ _ [] (repeat 0x23 (Nat.pow 2 13 + 1)) []).
  - split; vm_compute; reflexivity.
  - apply Forall_forall. intros x Hx. apply repeat_spec in Hx. subst x.
    split; [split; [|split; reflexivity]|reflexivity].
    intros k Hk. cbn in Hk.
    repeat (destruct Hk as [<-|Hk]; [reflexivity|]). contradiction.
  - rewrite repeat_length, Nat.add_1_r. apply Nat.lt_succ_diag_r.
  - rewrite Nat.add_1_r. apply Nat.lt_succ_diag_r.
Qed.

(** ** The further properties at concrete inputs *)

(** X3 on a space, a line feed, a tab and a space before [x]: the cursor
    ends at offset 4, row 1, column 2. *)
Lemma skipWhitespace_tracks_lines_witness :
  pos (skipWhitespace Latin.JAVA_WHITESPACE_CHAR_CODES
         (newTokenizer [0x20; 0x0a; 0x09; 0x20; 0x78] noOptions emptyStore)) = 4
  /\ row (skipWhitespace Latin.JAVA_WHITESPACE_CHAR_CODES
            (newTokenizer [0x20; 0x0a; 0x09; 0x20; 0x78] noOptions emptyStore)) = 1
  /\ col (skipWhitespace Latin.JAVA_WHITESPACE_CHAR_CODES
            (newTokenizer [0x20; 0x0a; 0x09; 0x20; 0x78] noOptions emptyStore)) = 2.
Proof.
  destruct (skipWhitespace_tracks_lines Latin.JAVA_WHITESPACE_CHAR_CODES
              (newTokenizer [0x20; 0x0a; 0x09; 0x20; 0x78] noOptions emptyStore)
              [] [0x20; 0x0a; 0x09; 0x20] [0x78])
    as (Hp & Hr & _ & Hc).
  - split; reflexivity.
  - repeat constructor.
  - reflexivity.
  - split; [exact Hp|]. split; [exact Hr|].
    apply (Hc [0x20] [0x09; 0x20]); [reflexivity|].
    intros [H|[H|H]]; [discriminate H|discriminate H|exact H].
Defined.

(** X4 on two spaces: the first call returns the sentinel, and so does
    any call after it, from the same state. *)
Lemma sentinel_is_final_witness :
  exists t',
    Latin.nextToken 1 (Latin.tokenizer "  ") = Ret (None, t')
    /\ atEnd t' = true
    /\ forall fuel', Latin.nextToken (S fuel') t' = Ret (None, t').
Proof.
  eexists. split; [vm_compute; reflexivity|].
  refine (sentinel_is_final Latin.LETTER_CHAR_CODES
            Latin.JAVA_WHITESPACE_CHAR_CODES Latin.DECIMAL_DIGIT_CHAR_CODES
            Latin.CONSTANTS Latin.pow10 Latin.bigIntTooBig
            Latin.callStackFrames 1 (Latin.tokenizer "  ") _ _).
  vm_compute. reflexivity.
Defined.

(** X5 on [ <= b]. *)
Lemma token_span_and_cursor_witness :
  exists tok t',
    Latin.nextToken 1 (Latin.tokenizer " <= b") = Ret (Some tok, t')
    /\ Token.end_ tok = getPosition t'
    /\ pos (Latin.tokenizer " <= b") <= Position.pos (Token.start tok)
    /\ input t' = input (Latin.tokenizer " <= b").
Proof.
  eexists. eexists. split; [vm_compute; reflexivity|].
  refine (token_span_and_cursor Latin.LETTER_CHAR_CODES
            Latin.JAVA_WHITESPACE_CHAR_CODES Latin.DECIMAL_DIGIT_CHAR_CODES
            Latin.CONSTANTS Latin.pow10 Latin.bigIntTooBig
            Latin.callStackFrames 1 (Latin.tokenizer " <= b") _ _ _).
  vm_compute. reflexivity.
Defined.

(** X6 on [->x]: the Arrow token covers one of the texts of its kind. *)
Lemma operator_token_covers_its_text_witness :
  exists tok t',
    Latin.nextToken 1 (Latin.tokenizer "->x") = Ret (Some tok, t')
    /\ exists text,
         In text (lexemes (Token.kind tok))
         /\ TextAt (input (Latin.tokenizer "->x"))
              (Position.pos (Token.start tok)) text
         /\ Position.pos (Token.end_ tok)
            = Position.pos (Token.start tok) + JS.length text.
Proof.
  eexists. eexists. split; [vm_compute; reflexivity|].
  refine (operator_token_covers_its_text Latin.LETTER_CHAR_CODES
            Latin.JAVA_WHITESPACE_CHAR_CODES Latin.DECIMAL_DIGIT_CHAR_CODES
            Latin.CONSTANTS Latin.pow10 Latin.bigIntTooBig
            Latin.callStackFrames 1 (Latin.tokenizer "->x") _ _ _ _).
  - vm_compute. reflexivity.
  - reflexivity.
Defined.

(** X7 on [<x]: the Lt token is returned, and [x] completes no operator
    that begins with [<]. *)
Lemma longest_operator_wins_witness :
  exists tok t',
    Latin.nextToken 1 (Latin.tokenizer "<x") = Ret (Some tok, t')
    /\ (forall c2 ty2, In (0x3c, c2, ty2) pairOps ->
          JS.charCodeAt (input (Latin.tokenizer "<x"))
            (Position.pos (Token.end_ tok)) <> Some c2)
    /\ (0x3c = 0x2f ->
        JS.charCodeAt (input (Latin.tokenizer "<x"))
          (Position.pos (Token.end_ tok)) <> Some 0x2f).
Proof.
  eexists. eexists. split; [vm_compute; reflexivity|].
  refine (longest_operator_wins Latin.LETTER_CHAR_CODES
            Latin.JAVA_WHITESPACE_CHAR_CODES Latin.DECIMAL_DIGIT_CHAR_CODES
            Latin.CONSTANTS Latin.pow10 Latin.bigIntTooBig
            Latin.callStackFrames 1 (Latin.tokenizer "<x") _ _ 0x3c _ _).
  - vm_compute. reflexivity.
  - do 4 right. left. reflexivity.
Defined.

(** X8 on [#;]: the [#] is skipped with one diagnostic before the token of
    [;]. *)
Lemma skipped_units_are_reported_witness :
  exists tok t',
    Latin.nextToken 2 (Latin.tokenizer "#;") = Ret (Some tok, t')
    /\ (forall i, 0 <= i < Position.pos (Token.start tok) ->
          isWhitespace Latin.JAVA_WHITESPACE_CHAR_CODES
            (JS.charCodeAt (input (Latin.tokenizer "#;")) i) = true
          \/ unexpected Latin.LETTER_CHAR_CODES Latin.DECIMAL_DIGIT_CHAR_CODES
               (JS.charCodeAt (input (Latin.tokenizer "#;")) i))
    /\ exists ds ds',
         errorsOf t' = errorsOf (Latin.tokenizer "#;") ++ ds ++ ds'
         /\ UnexpectedReport Latin.JAVA_WHITESPACE_CHAR_CODES
              (input (Latin.tokenizer "#;")) 0
              (Position.pos (Token.start tok)) ds
         /\ (Some tok = None -> ds' = []).
Proof.
  eexists. eexists. split; [vm_compute; reflexivity|].
  refine (skipped_units_are_reported Latin.LETTER_CHAR_CODES
            Latin.JAVA_WHITESPACE_CHAR_CODES Latin.DECIMAL_DIGIT_CHAR_CODES
            Latin.CONSTANTS Latin.pow10 Latin.bigIntTooBig
            Latin.callStackFrames 2 (Latin.tokenizer "#;") (Some _) _ _).
  vm_compute. reflexivity.
Defined.

(** X9 on the lines [//a] and [//b] before [x]: one Comment token, from
    offset 0 to offset 8 on row 2, with both lines as its value. *)
Lemma readComment_joins_comment_lines_witness :
  exists t',
    readComment 2
      (newTokenizer (commentBlock [JS.lit "a"; JS.lit "b"] ++ JS.lit "x")
         noOptions emptyStore)
    = Ret (Token4 Comment (Position.mk 0 0 0) (Position.mk 8 2 0)
             (StringV (commentBlock [JS.lit "a"; JS.lit "b"])), t')
    /\ pos t' = 8
    /\ errorsOf t' = [].
Proof.
  destruct (readComment_joins_comment_lines 2
              (newTokenizer (commentBlock [JS.lit "a"; JS.lit "b"] ++ JS.lit "x")
                 noOptions emptyStore)
              [] [JS.lit "a"; JS.lit "b"] (JS.lit "x"))
    as (t' & Hr & HAt & _ & _ & He).
  - discriminate.
  - split; reflexivity.
  - constructor; [vm_compute; intros [H|H]; [discriminate H|exact H]|].
    constructor; [vm_compute; intros [H|H]; [discriminate H|exact H]|].
    constructor.
  - intros r H. discriminate H.
  - apply le_n.
  - exists t'. split; [exact Hr|]. split; [apply HAt|exact He].
Defined.

(** X10 on [ab c]: the Variable token of [ab] is not empty. *)
Lemma token_other_than_comment_is_not_empty_witness :
  exists tok t',
    Latin.nextToken 1 (Latin.tokenizer "ab c") = Ret (Some tok, t')
    /\ Position.pos (Token.start tok) < Position.pos (Token.end_ tok)
    /\ pos (Latin.tokenizer "ab c") < pos t'.
Proof.
  eexists. eexists. split; [vm_compute; reflexivity|].
  refine (token_other_than_comment_is_not_empty Latin.LETTER_CHAR_CODES
            Latin.JAVA_WHITESPACE_CHAR_CODES Latin.DECIMAL_DIGIT_CHAR_CODES
            Latin.CONSTANTS Latin.pow10 Latin.bigIntTooBig
            Latin.callStackFrames 1 (Latin.tokenizer "ab c") _ _ _ _).
  - vm_compute. reflexivity.
  - discriminate.
Defined.

(** X11 on [//] and a line feed: the comment is ended, and the call comes
    to an end. *)
Lemma nextToken_ends_when_comments_end_witness :
  CommentsEnded [0x2f; 0x2f; 0x0a]
  /\ Latin.nextToken 4 (newTokenizer [0x2f; 0x2f; 0x0a] noOptions emptyStore)
     <> OutOfFuel.
Proof.
  assert (HC : CommentsEnded [0x2f; 0x2f; 0x0a]).
  { intros i H1 H2. pose proof (charCodeAt_Some _ _ _ H1) as Hr.
    change (JS.length [47; 47; 10]) with 3 in Hr.
    assert (i = 0 \/ i = 1 \/ i = 2) as Hi by lia.
    destruct Hi as [Hi|[Hi|Hi]]; subst i.
    - exists 2. split; [lia|reflexivity].
    - discriminate H2.
    - discriminate H1. }
  split; [exact HC|].
  apply (nextToken_ends_when_comments_end Latin.LETTER_CHAR_CODES
           Latin.JAVA_WHITESPACE_CHAR_CODES Latin.DECIMAL_DIGIT_CHAR_CODES
           Latin.CONSTANTS Latin.pow10 Latin.bigIntTooBig
           Latin.callStackFrames 4
           (newTokenizer [0x2f; 0x2f; 0x0a] noOptions emptyStore)).
  - exact HC.
  - vm_compute. lia.
Defined.

(** X12 on ['a\nb\zc'] before [;]: the value is [a], a line feed, [b] and
    [c]; the escape [\z] leaves one diagnostic and nothing in the value. *)
Lemma readString_decodes_closed_literal_witness :
  exists t' ds,
    readString (Latin.tokenizer "'a\nb\zc';")
    = (Token4 String_ (Position.mk 0 0 0) (getPosition t')
         (StringV [0x61; 0x0a; 0x62; 0x63]), t')
    /\ pos t' = 9
    /\ errorsOf t' = ds
    /\ map Diagnostic.kind ds = [UnknownEscapeSequence].
Proof.
  destruct (readString_decodes_closed_literal (Latin.tokenizer "'a\nb\zc';")
              []
              [Plain 0x61; Escape 0x6e; Plain 0x62; Escape 0x7a; Plain 0x63]
              (JS.lit ";"))
    as (t' & ds & Hr & HAt & _ & He & Hk).
  - split; reflexivity.
  - repeat constructor; discriminate.
  - exists t', ds. split; [exact Hr|]. split; [exact (proj2 HAt)|].
    split; [exact He|exact Hk].
Defined.

(** X13 on [42;]: the value is 42. *)
Lemma integer_literal_witness :
  exists tok t',
    Latin.nextToken 1 (Latin.tokenizer "42;") = Ret (Some tok, t')
    /\ Token.kind tok = Number
    /\ Token.value tok = Some (BigIntV 42)
    /\ Token.hasError tok = false.
Proof.
  destruct (integer_literal Latin.LETTER_CHAR_CODES
              Latin.JAVA_WHITESPACE_CHAR_CODES Latin.DECIMAL_DIGIT_CHAR_CODES
              Latin.CONSTANTS Latin.pow10 Latin.bigIntTooBig
              Latin.callStackFrames Latin_ascii_digits
              0 (Latin.tokenizer "42;") [] (JS.lit "42") (JS.lit ";"))
    as (tok & t' & H & Hk & Hv & Hf & _).
  - split; vm_compute; reflexivity.
  - discriminate.
  - repeat constructor; vm_compute; discriminate.
  - reflexivity.
  - discriminate.
  - reflexivity.
  - intros _. reflexivity.
  - exists tok, t'. split; [exact H|]. split; [exact Hk|].
    split; [exact Hv|exact Hf].
Defined.

(** X14 on [&x]: the single [&] is recorded as an unknown operator. *)
Lemma operator_token_diagnostics_witness :
  exists tok t' ds,
    Latin.nextToken 1 (Latin.tokenizer "&x") = Ret (Some tok, t')
    /\ errorsOf t'
       = errorsOf (Latin.tokenizer "&x") ++ ds
         ++ operatorDiagnostics (allowNewLineMarkers (Latin.tokenizer "&x")) tok
    /\ UnexpectedReport Latin.JAVA_WHITESPACE_CHAR_CODES
         (input (Latin.tokenizer "&x")) (pos (Latin.tokenizer "&x"))
         (Position.pos (Token.start tok)) ds.
Proof.
  eexists. eexists.
  assert (H : Latin.nextToken 1 (Latin.tokenizer "&x") = Ret (Some _, _))
    by (vm_compute; reflexivity).
  destruct (operator_token_diagnostics Latin.LETTER_CHAR_CODES
              Latin.JAVA_WHITESPACE_CHAR_CODES Latin.DECIMAL_DIGIT_CHAR_CODES
              Latin.CONSTANTS Latin.pow10 Latin.bigIntTooBig
              Latin.callStackFrames 1 (Latin.tokenizer "&x") _ _ H)
    as (ds & He & Hrep); [reflexivity|].
  exists ds. split; [exact H|]. split; [exact He|exact Hrep].
Defined.

(** X15 on [...]: the Spread token covers three units and one column. *)
Lemma operator_token_columns_witness :
  exists tok t',
    Latin.nextToken 1 (Latin.tokenizer "...") = Ret (Some tok, t')
    /\ Token.kind tok = Spread
    /\ Position.pos (Token.end_ tok) = Position.pos (Token.start tok) + 3
    /\ Position.col (Token.end_ tok) = Position.col (Token.start tok) + 1.
Proof.
  eexists. eexists. split; [vm_compute; reflexivity|].
  split; [reflexivity|]. split; [reflexivity|].
  refine (proj2 (operator_token_columns Latin.LETTER_CHAR_CODES
            Latin.JAVA_WHITESPACE_CHAR_CODES Latin.DECIMAL_DIGIT_CHAR_CODES
            Latin.CONSTANTS Latin.pow10 Latin.bigIntTooBig
            Latin.callStackFrames 1 (Latin.tokenizer "...") _ _ _ _)).
  - vm_compute. reflexivity.
  - reflexivity.
Defined.

(** X18 on the scope of the example: the node found is a node of the scope
    and an assignment to something that is no variable. *)
Lemma findAssign_finds_assignments_of_the_scope_witness :
  In (BinaryExpression "="
        (ListLiteral [VariableNode "a"; VariableNode "b"])
        (OtherNode "FunctionCall"))
     (subnodes example_scope)
  /\ isDiscovery
       (BinaryExpression "="
          (ListLiteral [VariableNode "a"; VariableNode "b"])
          (OtherNode "FunctionCall")).
Proof.
  destruct (findAssign_finds_assignments_of_the_scope example_scope []
              (BinaryExpression "="
                 (ListLiteral [VariableNode "a"; VariableNode "b"])
                 (OtherNode "FunctionCall")))
    as [H|H].
  - left. reflexivity.
  - destruct H.
  - exact H.
Defined.

(** X20 on [12e;]: the value is 12 and the token takes in the [e]. *)
Lemma exponent_marker_without_digits_witness :
  exists tok t',
    Latin.nextToken 1 (Latin.tokenizer "12e;") = Ret (Some tok, t')
    /\ Token.value tok = Some (BigIntV 12)
    /\ Token.hasError tok = false
    /\ Position.pos (Token.end_ tok) = 3.
Proof.
  destruct (exponent_marker_without_digits Latin.LETTER_CHAR_CODES
              Latin.JAVA_WHITESPACE_CHAR_CODES Latin.DECIMAL_DIGIT_CHAR_CODES
              Latin.CONSTANTS Latin.pow10 Latin.bigIntTooBig
              Latin.callStackFrames Latin_ascii_digits Latin_e_not_digit
              0 (Latin.tokenizer "12e;") [] (JS.lit "12") 0x65 (JS.lit ";"))
    as (tok & t' & H & _ & Hv & Hf & _ & He & _).
  - split; vm_compute; reflexivity.
  - discriminate.
  - repeat constructor; vm_compute; discriminate.
  - left. reflexivity.
  - reflexivity.
  - discriminate.
  - discriminate.
  - discriminate.
  - exists tok, t'. split; [exact H|]. split; [exact Hv|].
    split; [exact Hf|exact He].
Defined.

(** X21 on [1], the Arabic-Indic digit two and [3]: no value, the flag
    set, and one diagnostic at offset 1. *)
Lemma readNumber_reports_digits_outside_ascii_witness :
  exists t' errs,
    readNumber latinAndArabicIndicDigits Latin.pow10 Latin.bigIntTooBig
      (newTokenizer [0x31; 0x662; 0x33] noOptions emptyStore)
    = Ret (Token.mk Number (Position.mk 0 0 0) (getPosition t') None true, t')
    /\ errorsOf t' = errs
    /\ map (fun d => Position.pos (Diagnostic.start d)) errs = [1].
Proof.
  destruct (readNumber_reports_digits_outside_ascii latinAndArabicIndicDigits
              Latin.pow10 Latin.bigIntTooBig
              (newTokenizer [0x31; 0x662; 0x33] noOptions emptyStore)
              [] [0x31; 0x662; 0x33] [])
    as (t' & errs & Hr & _ & He & _ & Ho).
  - split; reflexivity.
  - discriminate.
  - repeat constructor.
  - reflexivity.
  - discriminate.
  - reflexivity.
  - intros x r H. discriminate H.
  - exists t', errs. split; [exact Hr|]. split; [exact He|exact Ho].
Defined.

(** X22 on [9007199254740993.]: the integer is above the largest safe
    integer, and the loss of precision is recorded. *)
Lemma integer_with_trailing_point_witness :
  exists tok t',
    Latin.nextToken 1 (Latin.tokenizer "9007199254740993.")
    = Ret (Some tok, t')
    /\ Token.value tok = Some (NumberV (NumberOfBigInt 9007199254740993))
    /\ Token.hasError tok = false
    /\ map Diagnostic.kind (errorsOf t') = [LossOfPrecision].
Proof.
  destruct (integer_with_trailing_point Latin.LETTER_CHAR_CODES
              Latin.JAVA_WHITESPACE_CHAR_CODES Latin.DECIMAL_DIGIT_CHAR_CODES
              Latin.CONSTANTS Latin.pow10 Latin.bigIntTooBig
              Latin.callStackFrames Latin_ascii_digits
              0 (Latin.tokenizer "9007199254740993.") []
              (JS.lit "9007199254740993") [])
    as (tok & t' & H & _ & Hv & Hf & _ & _ & _ & He).
  - split; vm_compute; reflexivity.
  - discriminate.
  - repeat constructor; vm_compute; discriminate.
  - reflexivity.
  - reflexivity.
  - reflexivity.
  - exists tok, t'. split; [exact H|]. split; [exact Hv|].
    split; [exact Hf|]. rewrite He. reflexivity.
Defined.

(** X23 on [a+b]: the token of [+] begins where the token of [a] ends. *)
Lemma successive_tokens_do_not_overlap_witness :
  exists a t1 b t2,
    Latin.nextToken 1 (Latin.tokenizer "a+b") = Ret (Some a, t1)
    /\ Latin.nextToken 1 t1 = Ret (Some b, t2)
    /\ Position.pos (Token.end_ a) <= Position.pos (Token.start b).
Proof.
  eexists. eexists. eexists. eexists.
  split; [vm_compute; reflexivity|]. split; [vm_compute; reflexivity|].
  refine (proj1 (successive_tokens_do_not_overlap Latin.LETTER_CHAR_CODES
            Latin.JAVA_WHITESPACE_CHAR_CODES Latin.DECIMAL_DIGIT_CHAR_CODES
            Latin.CONSTANTS Latin.pow10 Latin.bigIntTooBig
            Latin.callStackFrames 1 1 (Latin.tokenizer "a+b")
            _ _ _ _ _ _)).
  - vm_compute. reflexivity.
  - vm_compute. reflexivity.
Defined.

(** X24 on one array of the caller given for both options: the tokenizer
    holds it twice. *)
Lemma constructor_arrays_witness :
  errors (newTokenizer (JS.lit "x") (mkOptions None None (Some 0%nat) (Some 0%nat))
            (snd (alloc emptyStore)))
  = warnings (newTokenizer (JS.lit "x")
                (mkOptions None None (Some 0%nat) (Some 0%nat))
                (snd (alloc emptyStore))).
Proof.
  destruct (constructor_arrays (JS.lit "x")
              (mkOptions None None (Some 0%nat) (Some 0%nat))
              (snd (alloc emptyStore)))
    as (_ & _ & Hiff & _).
  - intros r H. injection H as <-. apply le_n.
  - intros r H. injection H as <-. apply le_n.
  - apply Hiff. exists 0%nat. split; reflexivity.
Defined.

(** X26 on [5e-3;]: the value is the number 5 times ten to the minus 3. *)
Lemma negative_exponent_literal_witness :
  exists tok t',
    Latin.nextToken 1 (Latin.tokenizer "5e-3;") = Ret (Some tok, t')
    /\ Token.kind tok = Number
    /\ Token.value tok
       = Some (NumberV
                 (PrimFloat.mul (NumberOfBigInt 5)
                    (Latin.pow10 (PrimFloat.mul (NumberOfBigInt 3) (-1)%float))))
    /\ Token.hasError tok = false
    /\ pos t' = 4.
Proof.
  destruct (negative_exponent_literal Latin.LETTER_CHAR_CODES
              Latin.JAVA_WHITESPACE_CHAR_CODES Latin.DECIMAL_DIGIT_CHAR_CODES
              Latin.CONSTANTS Latin.pow10 Latin.bigIntTooBig
              Latin.callStackFrames Latin_ascii_digits Latin_e_not_digit
              0 (Latin.tokenizer "5e-3;") [] (JS.lit "5") 0x65 (JS.lit "3")
              (JS.lit ";"))
    as (tok & t' & H & Hk & Hv & Hf & _ & Hp & _).
  - split; vm_compute; reflexivity.
  - discriminate.
  - repeat constructor; vm_compute; discriminate.
  - left. reflexivity.
  - repeat constructor; vm_compute; discriminate.
  - reflexivity.
  - vm_compute. reflexivity.
  - exists tok, t'. split; [exact H|]. split; [exact Hk|].
    split; [exact Hv|]. split; [exact Hf|exact Hp].
Defined.

(** A power of ten with the exponent [e] has more than [3 * e] bits. *)
Lemma Latin_exponentTooBig iv e :
  2 ^ 30 <= 3 * e -> exponentTooBig Latin.bigIntTooBig iv e = true.
Proof.
  intros He. change (2 ^ 30) with 1073741824 in He.
  unfold exponentTooBig.
  replace (0 <? e) with true by (symmetry; apply Z.ltb_lt; lia).
  replace (Latin.bigIntTooBig (10 ^ e)) with true; [reflexivity|].
  symmetry. unfold Latin.bigIntTooBig. apply Z.ltb_lt.
  change (2 ^ 30) with 1073741824.
  assert (H8 : 2 ^ (3 * e) <= 10 ^ e).
  { rewrite Z.pow_mul_r by lia. change (2 ^ 3) with 8.
    apply Z.pow_le_mono_l. lia. }
  assert (Hpos : 0 < 10 ^ e) by (apply Z.pow_pos_nonneg; lia).
  rewrite Z.abs_eq by lia.
  pose proof (Z.log2_le_mono _ _ H8) as Hlog.
  rewrite Z.log2_pow2 in Hlog by lia. lia.
Qed.

(** X27 on [2e3], where the value is 2000, and on [1e2000000000], a power
    of ten of more than [2^30] bits, where the call ends with the
    [RangeError]. *)
Lemma exponent_literal_witness :
  (exists tok t',
     Latin.nextToken 1 (Latin.tokenizer "2e3") = Ret (Some tok, t')
     /\ Token.kind tok = Number
     /\ Token.value tok = Some (BigIntV 2000)
     /\ Token.hasError tok = false)
  /\ Latin.nextToken 1 (Latin.tokenizer "1e2000000000") = Throw RangeError.
Proof.
  split.
  - destruct (exponent_literal Latin.LETTER_CHAR_CODES
                Latin.JAVA_WHITESPACE_CHAR_CODES Latin.DECIMAL_DIGIT_CHAR_CODES
                Latin.CONSTANTS Latin.pow10 Latin.bigIntTooBig
                Latin.callStackFrames Latin_ascii_digits Latin_e_not_digit
                0 (Latin.tokenizer "2e3") [] (JS.lit "2") 0x65 []
                (JS.lit "3") [])
      as [Hok _].
    + split; vm_compute; reflexivity.
    + discriminate.
    + repeat constructor; vm_compute; discriminate.
    + left. reflexivity.
    + left. reflexivity.
    + discriminate.
    + repeat constructor; vm_compute; discriminate.
    + reflexivity.
    + discriminate.
    + vm_compute. reflexivity.
    + destruct Hok as (tok & t' & H & Hk & Hv & Hf & _);
        [vm_compute; reflexivity|].
      exists tok, t'. split; [exact H|]. split; [exact Hk|].
      split; [exact Hv|exact Hf].
  - destruct (exponent_literal Latin.LETTER_CHAR_CODES
                Latin.JAVA_WHITESPACE_CHAR_CODES Latin.DECIMAL_DIGIT_CHAR_CODES
                Latin.CONSTANTS Latin.pow10 Latin.bigIntTooBig
                Latin.callStackFrames Latin_ascii_digits Latin_e_not_digit
                0 (Latin.tokenizer "1e2000000000") [] (JS.lit "1") 0x65 []
                (JS.lit "2000000000") [])
      as [_ Hbig].
    + split; vm_compute; reflexivity.
    + discriminate.
    + repeat constructor; vm_compute; discriminate.
    + left. reflexivity.
    + left. reflexivity.
    + discriminate.
    + repeat constructor; vm_compute; discriminate.
    + reflexivity.
    + discriminate.
    + vm_compute. reflexivity.
    + refine (Hbig (Latin_exponentTooBig _ _ _)).
      vm_compute. discriminate.
Defined.

(** X28 on [foo  (]: a Function token with the text [foo] that ends at
    offset 5. *)
Lemma identifier_token_witness :
  exists tok t',
    Latin.nextToken 1 (Latin.tokenizer "foo  (") = Ret (Some tok, t')
    /\ Token.kind tok = Function_
    /\ Token.value tok = Some (StringV (JS.lit "foo"))
    /\ Position.pos (Token.end_ tok) = 5.
Proof.
  destruct (identifier_token Latin.LETTER_CHAR_CODES
              Latin.JAVA_WHITESPACE_CHAR_CODES Latin.DECIMAL_DIGIT_CHAR_CODES
              Latin.CONSTANTS Latin.pow10 Latin.bigIntTooBig
              Latin.callStackFrames 0 (Latin.tokenizer "foo  (")
              [] 0x66 (JS.lit "oo") (JS.lit "  ") (JS.lit "("))
    as (tok & t' & H & Hk & Hv & _ & _ & He & _).
  - split; vm_compute; reflexivity.
  - right. reflexivity.
  - reflexivity.
  - reflexivity.
  - repeat constructor.
  - reflexivity.
  - repeat constructor.
  - reflexivity.
  - exists tok, t'. split; [exact H|]. split; [exact Hk|].
    split; [exact Hv|exact He].
Defined.

(** X29 on ['unterminated]: the String token that is returned, with the
    flag and no value, obeys the law. *)
Lemma token_value_error_law_witness :
  exists tok t',
    Latin.nextToken 1 (Latin.tokenizer "'unterminated") = Ret (Some tok, t')
    /\ Token.hasError tok = true
    /\ Token.value tok = None
    /\ ValueErrorLaw (input (Latin.tokenizer "'unterminated")) tok.
Proof.
  eexists. eexists. split; [vm_compute; reflexivity|].
  split; [reflexivity|]. split; [reflexivity|].
  refine (token_value_error_law Latin.LETTER_CHAR_CODES
            Latin.JAVA_WHITESPACE_CHAR_CODES Latin.DECIMAL_DIGIT_CHAR_CODES
            Latin.CONSTANTS Latin.pow10 Latin.bigIntTooBig
            Latin.callStackFrames 1 (Latin.tokenizer "'unterminated") _ _ _).
  vm_compute. reflexivity.
Defined.

(** X30 on ['a\'], where the literal ends with an escaped quote, and on
    ['a\], where it ends with a backslash: a String token with the flag, in
    the first case with no value, in the second with the value [a]. *)
Lemma unterminated_string_literal_witness :
  (exists tok t',
     Latin.nextToken 1 (Latin.tokenizer "'a\'") = Ret (Some tok, t')
     /\ Token.hasError tok = true
     /\ Token.value tok = None
     /\ pos t' = 4)
  /\ (exists tok t',
        Latin.nextToken 1 (Latin.tokenizer "'a\") = Ret (Some tok, t')
        /\ Token.hasError tok = true
        /\ Token.value tok = Some (StringV (JS.lit "a"))
        /\ pos t' = 3).
Proof.
  split.
  - destruct (unterminated_string_literal Latin.LETTER_CHAR_CODES
                Latin.JAVA_WHITESPACE_CHAR_CODES Latin.DECIMAL_DIGIT_CHAR_CODES
                Latin.CONSTANTS Latin.pow10 Latin.bigIntTooBig
                Latin.callStackFrames 0 (Latin.tokenizer "'a\'") []
                [Plain 0x61; Escape 0x27] [])
      as (tok & t' & ds & H & _ & Hf & Hv & _ & _ & Hp & _).
    + split; vm_compute; reflexivity.
    + repeat constructor; discriminate.
    + left. reflexivity.
    + exists tok, t'. split; [exact H|]. split; [exact Hf|].
      split; [exact Hv|exact Hp].
  - destruct (unterminated_string_literal Latin.LETTER_CHAR_CODES
                Latin.JAVA_WHITESPACE_CHAR_CODES Latin.DECIMAL_DIGIT_CHAR_CODES
                Latin.CONSTANTS Latin.pow10 Latin.bigIntTooBig
                Latin.callStackFrames 0 (Latin.tokenizer "'a\") []
                [Plain 0x61] [0x5c])
      as (tok & t' & ds & H & _ & Hf & Hv & _ & _ & Hp & _).
    + split; vm_compute; reflexivity.
    + repeat constructor; discriminate.
    + right. reflexivity.
    + exists tok, t'. split; [exact H|]. split; [exact Hf|].
      split; [exact Hv|exact Hp].
Defined.
